(** * Feature extraction from business relationship graphs: the model of
      [train.ipynb]

    The notebook builds DGL graphs from weighted edge lists, runs two
    message-passing layers over them ([BiDirectionalGCN] and
    [GATWithSelfLoop]) and reads a fixed-size vector out of the node
    embeddings ([Classifier]).

    Conventions of the embedding.
    - A tensor entry is a real number ([R]): the exact arithmetic that
      float32 approximates.  A 1-D tensor is a [list R], a 2-D tensor a
      list of rows.
    - A Python exception is a value of [exception]; a cell that can raise
      returns [result A = exception + A].
    - Node ids are natural numbers (the edge-list files hold non-negative
      integers, read with [nodetype=int]).
    - The library calls the notebook makes (networkx [DiGraph], DGL
      [from_networkx], [add_edges], [update_all], [apply_nodes],
      [apply_edges], [batch], [unbatch], torch [eye], [zeros], [cat],
      [sum], [mean], [max], [softmax], [nn.Linear]) are written out as the
      functions they compute. *)

From Stdlib Require Import List Arith Bool Lia Permutation.
From Stdlib Require Import Reals Lra.
Import ListNotations.

Set Implicit Arguments.

(** ** Exceptions *)

Inductive exception : Type :=
| IndexError              (* Python: index out of range *)
| KeyError                (* Python: missing frame column *)
| RuntimeError            (* torch: bad shape, reduction of an empty tensor *)
| DGLError                (* DGL: a feature tensor of the wrong length *)
| InsufficientNodesError. (* named by the specification; no cell raises it *)

Definition result (A : Type) : Type := (exception + A)%type.

Definition ret {A} (a : A) : result A := inr a.
Definition raise {A} (e : exception) : result A := inl e.

Definition bind {A B} (m : result A) (k : A -> result B) : result B :=
  match m with
  | inl e => inl e
  | inr a => k a
  end.

Notation "x <- m ;; k" := (bind m (fun x => k))
  (at level 61, m at next level, right associativity).

(** ** Tensors *)

Definition vec := list R.
Definition tensor := list vec.

(** Every row of the tensor has width [d]. *)
Definition rectangular (d : nat) (t : tensor) : Prop :=
  Forall (fun row => length row = d) t.

(** Width of a 2-D tensor, read off its first row. *)
Definition width (t : tensor) : nat := length (hd [] t).

Definition zeros (d : nat) : vec := repeat 0%R d.

(** [torch.zeros(r, c)] *)
Definition torch_zeros (r c : nat) : tensor := repeat (zeros c) r.

(** [torch.eye(n)] *)
Definition torch_eye (n : nat) : tensor :=
  map (fun i => map (fun j => if i =? j then 1%R else 0%R) (seq 0 n)) (seq 0 n).

(** [row[j] = x] *)
Fixpoint set_item (row : vec) (j : nat) (x : R) : vec :=
  match row, j with
  | [], _ => []
  | _ :: r, O => x :: r
  | y :: r, S j' => y :: set_item r j' x
  end.

(** [t[:, j] = x] *)
Definition set_column (j : nat) (x : R) (t : tensor) : tensor :=
  map (fun row => set_item row j x) t.

(** The vector with a single 1 at position [j]. *)
Definition one_hot (d j : nat) : vec :=
  map (fun k => if j =? k then 1%R else 0%R) (seq 0 d).

(** ** make_node_feature

<<
def make_node_feature(n_nodes, n_features):
    t1 = torch.eye(n_features)
    t2 = torch.zeros(n_nodes-n_features, n_features)
    t2[:, n_features-1] = 1
    return torch.cat([t1, t2])
>>
    [torch.zeros] raises on a negative size; with [n_features = 0] the
    column index is [-1] on a dimension of size 0, an [IndexError]. *)

Definition make_node_feature (n_nodes n_features : nat) : result tensor :=
  let t1 := torch_eye n_features in
  if n_nodes <? n_features then raise RuntimeError
  else
    let t2 := torch_zeros (n_nodes - n_features) n_features in
    if n_features =? 0 then raise IndexError
    else
      let t2 := set_column (n_features - 1) 1%R t2 in
      ret (t1 ++ t2).

(** ** networkx [DiGraph]

    A [DiGraph] keeps [_adj]: an insertion-ordered dict from node to an
    insertion-ordered dict from successor to the edge's attributes (here
    the weight).  Order is part of the value: it decides the DGL edge
    ids. *)

Definition dict (V : Type) : Type := list (nat * V).

Fixpoint dict_mem {V} (k : nat) (d : dict V) : bool :=
  match d with
  | [] => false
  | (k', _) :: d' => (k' =? k) || dict_mem k d'
  end.

(** [d[k] = v]: an existing key keeps its position. *)
Fixpoint dict_set {V} (k : nat) (v : V) (d : dict V) : dict V :=
  match d with
  | [] => [(k, v)]
  | (k', v') :: d' =>
      if k' =? k then (k, v) :: d' else (k', v') :: dict_set k v d'
  end.

(** [d[k] = f(d[k])] for a key that is present. *)
Fixpoint dict_update {V} (k : nat) (f : V -> V) (d : dict V) : dict V :=
  match d with
  | [] => []
  | (k', v') :: d' =>
      if k' =? k then (k', f v') :: d' else (k', v') :: dict_update k f d'
  end.

Definition DiGraph : Type := dict (dict R).

Definition nx_nodes (G : DiGraph) : list nat := map fst G.

Definition has_node (G : DiGraph) (u : nat) : bool := dict_mem u G.

Definition add_node (u : nat) (G : DiGraph) : DiGraph :=
  if has_node G u then G else G ++ [(u, [])].

(** [G.add_edge(u, v, weight=w)]: both endpoints are created when absent;
    an edge that exists already has its weight overwritten. *)
Definition add_edge (u v : nat) (w : R) (G : DiGraph) : DiGraph :=
  dict_update u (dict_set v w) (add_node v (add_node u G)).

(** [G.edges(data='weight')]: by node, then by successor. *)
Definition nx_edges (G : DiGraph) : list (nat * nat * R) :=
  flat_map (fun '(u, nbrs) => map (fun '(v, w) => (u, v, w)) nbrs) G.

(** [nx.read_weighted_edgelist(..., create_using=nx.DiGraph())], from the
    parsed lines. *)
Definition add_line (G : DiGraph) (l : nat * nat * R) : DiGraph :=
  let '(u, v, w) := l in add_edge u v w G.

Definition read_weighted_edgelist (lines : list (nat * nat * R)) : DiGraph :=
  fold_left add_line lines [].

(** [sorted(list(Di_G.nodes))[-1]] *)
Definition last_id (G : DiGraph) : result nat :=
  match nx_nodes G with
  | [] => raise IndexError
  | n :: ns => ret (fold_left Nat.max ns n)
  end.

(** [for i in range(last_id): if not Di_G.has_node(i): Di_G.add_node(i)] *)
Definition pad_nodes (last : nat) (G : DiGraph) : DiGraph :=
  fold_left (fun G i => add_node i G) (seq 0 last) G.

(** ** DGL graphs *)

Record Edge : Type := mkEdge {
  e_src : nat;
  e_dst : nat;
  e_weight : R;     (* edata['weight'] *)
  e_direction : R   (* edata['direction']: 0.0 forward, 1.0 mirrored *)
}.

Record DGLGraph : Type := mkGraph {
  number_of_nodes : nat;
  ndata_h : tensor;        (* ndata['h'] *)
  edata : list Edge        (* in edge-id order *)
}.

(** [G.from_networkx(Di_G, edge_attrs=['weight'])] followed by
    [G.edata['direction'] = torch.zeros(G.number_of_edges())].  DGL
    relabels the nodes by their rank in sorted order; after [pad_nodes]
    the node set is [0 .. last_id] (lemma [padded_nodes_range]), so a
    label is its own rank. *)
Definition from_networkx (G : DiGraph) : list Edge :=
  map (fun '(u, v, w) => mkEdge u v w 0%R) (nx_edges G).

(** [src, dst = G.edges(); G.add_edges(dst, src, data={'weight': weight,
    'direction': torch.ones(...)})] *)
Definition mirror (e : Edge) : Edge :=
  mkEdge (e_dst e) (e_src e) (e_weight e) 1%R.

Definition add_reverse_edges (es : list Edge) : list Edge :=
  es ++ map mirror es.

(** The body of the loading loop, with the feature width as a parameter. *)
Definition build_graph_with (n_features : nat) (lines : list (nat * nat * R))
  : result DGLGraph :=
  let Di_G := read_weighted_edgelist lines in
  last <- last_id Di_G ;;
  let Di_G := pad_nodes last Di_G in
  let n := length (nx_nodes Di_G) in
  let es := from_networkx Di_G in
  h <- make_node_feature n n_features ;;
  ret (mkGraph n h (add_reverse_edges es)).

(** The notebook's loop: [make_node_feature(G.number_of_nodes(), 8)]. *)
Definition build_graph : list (nat * nat * R) -> result DGLGraph :=
  build_graph_with 8.

(** Re-extraction of the input edges: the edges whose direction flag is
    not 1. *)
Definition is_mirrored (e : Edge) : bool :=
  if Req_EM_T (e_direction e) 1%R then true else false.

Definition extract_edges (g : DGLGraph) : list (nat * nat * R) :=
  map (fun e => (e_src e, e_dst e, e_weight e))
      (filter (fun e => negb (is_mirrored e)) (edata g)).

(** ** Tensor arithmetic *)

(** Element-wise sum of two vectors of the same width. *)
Definition vadd (a b : vec) : vec :=
  map (fun p => (fst p + snd p)%R) (combine a b).

(** Broadcast product of a scalar with a vector. *)
Definition scale (c : R) (a : vec) : vec := map (fun x => (x * c)%R) a.

(** [torch.sum(t, dim)] over the rows of [t]. *)
Definition torch_sum (t : tensor) : vec :=
  fold_right vadd (zeros (width t)) t.

(** Sum of the entries of a vector. *)
Definition total (a : vec) : R := fold_right Rplus 0%R a.

Definition dot (a b : vec) : R :=
  total (map (fun p => (fst p * snd p)%R) (combine a b)).

(** The [%] of torch: [a - b * floor(a / b)]. *)
Definition torch_remainder (a b : R) : R :=
  (a - b * IZR (Int_part (a / b)))%R.

(** [F.relu] and [F.leaky_relu] (negative slope 0.01). *)
Definition relu (x : R) : R := Rmax 0 x.

Definition leaky_relu (x : R) : R :=
  (Rmax 0 x + (1 / 100) * Rmin 0 x)%R.

(** [F.softmax] along one dimension. *)
Definition softmax (l : vec) : vec :=
  let s := total (map exp l) in
  map (fun x => (exp x / s)%R) l.

(** ** nn.Linear *)

Record Linear : Type := mkLinear {
  in_features : nat;
  lin_weight : tensor;      (* [out_features] rows of [in_features] entries *)
  lin_bias : option vec     (* [None] when built with [bias=False] *)
}.

Definition out_features (L : Linear) : nat := length (lin_weight L).

Definition linear_row (L : Linear) (x : vec) : vec :=
  let y := map (fun w => dot w x) (lin_weight L) in
  match lin_bias L with
  | Some b => vadd y b
  | None => y
  end.

(** The layer applied to a 2-D tensor; torch raises when the width of the
    input is not [in_features]. *)
Definition rows_ok (L : Linear) (X : tensor) : bool :=
  forallb (fun x => length x =? in_features L) X.

Definition linear (L : Linear) (X : tensor) : result tensor :=
  if rows_ok L X then ret (map (linear_row L) X) else raise RuntimeError.

(** The entry of a one-element row (the output of an [nn.Linear(_, 1)]). *)
Definition item (row : vec) : R := hd 0%R row.

(** ** DGL message passing

    [g.update_all(message_func, reduce_func)].  [msgs] is what the message
    function returned for the batch of all edges, one message per edge in
    edge-id order.  DGL groups the receiving nodes by in-degree and runs
    the reduce function on each group: "reduce_func will be skipped for
    nodes with no incoming message", and "their new feature value will be
    calculated by the column initializer", which is zeros of the shape of
    the reduced features.  On a graph with no edge at all the call
    "downgrades to apply_nodes": nothing is sent and no column is written,
    the result is [None]. *)

(** The messages that arrive at node [v]: those of the edges into [v], in
    edge-id order. *)
Definition mailbox {M : Type} (es : list Edge) (msgs : list M) (v : nat)
  : list M :=
  map snd (filter (fun p => e_dst (fst p) =? v) (combine es msgs)).

(** The new feature of node [v]. *)
Definition node_out {M O : Type} (es : list Edge) (msgs : list M)
    (reduce_func : nat -> list M -> O) (initializer : O) (v : nat) : O :=
  match mailbox es msgs v with
  | [] => initializer
  | m :: ms => reduce_func v (m :: ms)
  end.

Definition update_all {M O : Type} (g : DGLGraph) (msgs : list M)
    (reduce_func : nat -> list M -> O) (initializer : O) : option (list O) :=
  match edata g with
  | [] => None
  | _ :: _ =>
      Some (map (node_out (edata g) msgs reduce_func initializer)
                (seq 0 (number_of_nodes g)))
  end.

(** [g.ndata['h'] = h]: DGL refuses a tensor whose number of rows is not
    the number of nodes. *)
Definition set_ndata (g : DGLGraph) (h : tensor) : result unit :=
  if length h =? number_of_nodes g then ret tt else raise DGLError.

(** ** BiDirectionalGCN *)

Module BiDirectionalGCN.

Record t : Type := mk {
  fc : Linear;              (* nn.Linear(in_feats*3, out_feats) *)
  activation : R -> R       (* applied element-wise *)
}.

(** [messages = edges.src['h'] * weight], with the edge's direction. *)
Definition message_func (h : tensor) (e : Edge) : vec * R :=
  (scale (e_weight e) (nth (e_src e) h []), e_direction e).

(** <<
    h0 = torch.sum(messages * direction, dim=1)
    direction = (direction + 1) % 2  # 0=>1, 1=>0
    h1 = torch.sum(messages * direction, dim=1)
    >> *)
Definition reduce_func (mail : list (vec * R)) : vec * vec :=
  let messages := map fst mail in
  let direction := map snd mail in
  let h0 :=
    torch_sum (map (fun p => scale (snd p) (fst p))
                   (combine messages direction)) in
  let direction := map (fun d => torch_remainder (d + 1) 2) direction in
  let h1 :=
    torch_sum (map (fun p => scale (snd p) (fst p))
                   (combine messages direction)) in
  (h0, h1).

(** [torch.cat([h, h0, h1], dim=1)], row by row. *)
Definition cat3 (h : tensor) (h01 : list (vec * vec)) : tensor :=
  map (fun p => fst p ++ fst (snd p) ++ snd (snd p)) (combine h h01).

(** <<
    h = torch.cat([nodes.data['h'], nodes.data['h0'], nodes.data['h1']], dim=1)
    h = self.activation(self.fc(h))
    >> *)
Definition node_apply_func (layer : t) (h : tensor) (h01 : list (vec * vec))
  : result tensor :=
  y <- linear (fc layer) (cat3 h h01) ;;
  ret (map (map (activation layer)) y).

(** <<
    g.ndata['h'] = h
    g.update_all(self.message_func, self.reduce_func)
    g.apply_nodes(func=self.node_apply_func)
    return g.ndata.pop('h')
    >>
    On a graph without edges [update_all] writes no ['h0'] column and
    [node_apply_func] raises a [KeyError]. *)
Definition forward (layer : t) (g : DGLGraph) (h : tensor) : result tensor :=
  _ <- set_ndata g h ;;
  match update_all g (map (message_func h) (edata g))
                   (fun _ => reduce_func)
                   (zeros (width h), zeros (width h)) with
  | None => raise KeyError
  | Some h01 => node_apply_func layer h h01
  end.

End BiDirectionalGCN.

(** ** GATWithSelfLoop *)

Module GATWithSelfLoop.

Record t : Type := mk {
  fc : Linear;             (* nn.Linear(in_dim, out_dim, bias=False) *)
  attn_fc : Linear;        (* nn.Linear(2 * out_dim, 1, bias=False) *)
  self_fc : Linear;        (* nn.Linear(in_dim, out_dim, bias=False) *)
  self_attn_fc : Linear;   (* nn.Linear(out_dim, 1, bias=False) *)
  activation : R -> R
}.

(** <<
    z_self = self.self_fc(nodes.data['h'])
    return {'z': self.fc(nodes.data['h']), 'z_self': z_self,
            'e_self': F.leaky_relu(self.self_attn_fc(z_self))}
    >> *)
Definition node_apply_func (layer : t) (h : tensor)
  : result (tensor * tensor * vec) :=
  z_self <- linear (self_fc layer) h ;;
  z <- linear (fc layer) h ;;
  a_self <- linear (self_attn_fc layer) z_self ;;
  ret (z, z_self, map (fun r => leaky_relu (item r)) a_self).

(** [torch.cat([edges.src['z'], edges.dst['z']], dim=1)] *)
Definition cat_src_dst (z : tensor) (es : list Edge) : tensor :=
  map (fun e => nth (e_src e) z [] ++ nth (e_dst e) z []) es.

(** [e = F.leaky_relu(self.attn_fc(z2))], one logit per edge. *)
Definition edge_attention (layer : t) (z : tensor) (es : list Edge)
  : result vec :=
  a <- linear (attn_fc layer) (cat_src_dst z es) ;;
  ret (map (fun r => leaky_relu (item r)) a).

(** [{'z': edges.src['z'], 'e': edges.data['e']}] *)
Definition message_func (z : tensor) (e : vec) (es : list Edge)
  : list (vec * R) :=
  combine (map (fun ed => nth (e_src ed) z []) es) e.

(** [alpha = F.softmax(torch.cat([mailbox['e'], e_self], dim=1), dim=1)] *)
Definition attention (mail : list (vec * R)) (e_self : R) : vec :=
  softmax (map snd mail ++ [e_self]).

(** [h = activation(torch.sum(alpha * z, dim=1))] with
    [z = torch.cat([mailbox['z'], z_self], dim=1)]. *)
Definition reduce_func (layer : t) (z_self : tensor) (e_self : vec)
    (v : nat) (mail : list (vec * R)) : vec :=
  let alpha := attention mail (nth v e_self 0%R) in
  let z := map fst mail ++ [nth v z_self []] in
  map (activation layer)
      (torch_sum (map (fun p => scale (fst p) (snd p)) (combine alpha z))).

(** <<
    g.ndata['h'] = h
    g.apply_nodes(self.node_apply_func)
    g.apply_edges(self.edge_attention)
    g.update_all(self.message_func, self.reduce_func)
    return g.ndata.pop('h')
    >>
    On a graph without edges ['h'] is still the input. *)
Definition forward (layer : t) (g : DGLGraph) (h : tensor) : result tensor :=
  _ <- set_ndata g h ;;
  ndata <- node_apply_func layer h ;;
  let '(z, z_self, e_self) := ndata in
  e <- edge_attention layer z (edata g) ;;
  match update_all g (message_func z e (edata g))
                   (reduce_func layer z_self e_self)
                   (zeros (out_features (self_fc layer))) with
  | None => ret h
  | Some h' => ret h'
  end.

End GATWithSelfLoop.

(** ** Batching

    [dgl.batch] makes the disjoint union of the graphs: the nodes of the
    k-th graph are shifted by the number of nodes before it, node and edge
    features are concatenated.  A batched graph remembers the sizes of its
    parts, and [dgl.unbatch] cuts it back along them. *)

Record BatchedDGLGraph : Type := mkBatched {
  bg_graph : DGLGraph;
  batch_num_nodes : list nat;
  batch_num_edges : list nat
}.

Definition shift_edge (k : nat) (e : Edge) : Edge :=
  mkEdge (k + e_src e) (k + e_dst e) (e_weight e) (e_direction e).

Definition unshift_edge (k : nat) (e : Edge) : Edge :=
  mkEdge (e_src e - k) (e_dst e - k) (e_weight e) (e_direction e).

(** The disjoint union, the graphs taken from left to right. *)
Fixpoint union_from (offset : nat) (gs : list DGLGraph) : tensor * list Edge :=
  match gs with
  | [] => ([], [])
  | g :: gs' =>
      let '(h, es) := union_from (offset + number_of_nodes g) gs' in
      (ndata_h g ++ h, map (shift_edge offset) (edata g) ++ es)
  end.

Definition dgl_batch (gs : list DGLGraph) : BatchedDGLGraph :=
  let '(h, es) := union_from 0 gs in
  mkBatched (mkGraph (fold_right Nat.add 0 (map number_of_nodes gs)) h es)
            (map number_of_nodes gs)
            (map (fun g => length (edata g)) gs).

Fixpoint unbatch_from (offset : nat) (h : tensor) (es : list Edge)
    (nn ne : list nat) : list DGLGraph :=
  match nn, ne with
  | n :: nn', m :: ne' =>
      mkGraph n (firstn n h) (map (unshift_edge offset) (firstn m es))
      :: unbatch_from (offset + n) (skipn n h) (skipn m es) nn' ne'
  | _, _ => []
  end.

Definition dgl_unbatch (bg : BatchedDGLGraph) : list DGLGraph :=
  unbatch_from 0 (ndata_h (bg_graph bg)) (edata (bg_graph bg))
               (batch_num_nodes bg) (batch_num_edges bg).

(** [collate]: [dgl.batch(graphs)] *)
Definition collate (graphs : list DGLGraph) : BatchedDGLGraph :=
  dgl_batch graphs.

(** ** Classifier *)

(** Element-wise maximum of two vectors. *)
Definition vmax (a b : vec) : vec :=
  map (fun p => Rmax (fst p) (snd p)) (combine a b).

(** [torch.mean(t, 0)].  On a tensor without rows torch returns NaNs; the
    only caller takes [torch.max] of the same tensor next, which raises. *)
Definition torch_mean (t : tensor) : vec :=
  map (fun s => (s / INR (length t))%R) (torch_sum t).

(** [torch.max(t, 0)]: the reduction has no identity and raises on a tensor
    without rows. *)
Definition torch_max (t : tensor) : result vec :=
  match t with
  | [] => raise RuntimeError
  | r :: rs => ret (fold_left vmax rs r)
  end.

Module Classifier.

Record t : Type := mk {
  conv1 : BiDirectionalGCN.t;   (* BiDirectionalGCN(in_dim, hidden_dim, F.relu) *)
  conv2 : GATWithSelfLoop.t;    (* GATWithSelfLoop(hidden_dim, hidden_dim, F.relu) *)
  fc1 : Linear;                 (* nn.Linear(hidden_dim*9, hidden_dim) *)
  fc2 : Linear                  (* nn.Linear(hidden_dim, n_classes) *)
}.

(** <<
    node_features = graph.ndata['h'][0:7]
    mean = torch.mean(graph.ndata['h'][7:], 0).view(1, -1)
    max_values, _ = torch.max(graph.ndata['h'][7:], 0)
    max_values = max_values.view(1, -1)
    concat = torch.cat([node_features, mean, max_values], 0).view(1, -1)
    >> *)
Definition readout (h : tensor) : result vec :=
  let node_features := firstn 7 h in
  let mean := torch_mean (skipn 7 h) in
  max_values <- torch_max (skipn 7 h) ;;
  ret (concat (node_features ++ [mean] ++ [max_values])).

Fixpoint readout_all (gs : list DGLGraph) : result tensor :=
  match gs with
  | [] => ret []
  | g :: gs' =>
      f <- readout (ndata_h g) ;;
      fs <- readout_all gs' ;;
      ret (f :: fs)
  end.

(** The two layers, then the embeddings stored back in [g.ndata['h']]. *)
Definition embed (model : t) (bg : BatchedDGLGraph) : result BatchedDGLGraph :=
  let g := bg_graph bg in
  let h := ndata_h g in
  h <- BiDirectionalGCN.forward (conv1 model) g h ;;
  h <- GATWithSelfLoop.forward (conv2 model) g h ;;
  _ <- set_ndata g h ;;
  ret (mkBatched (mkGraph (number_of_nodes g) h (edata g))
                 (batch_num_nodes bg) (batch_num_edges bg)).

(** The per-graph readout vectors: the rows of [tensor]. *)
Definition features (model : t) (bg : BatchedDGLGraph) : result tensor :=
  bg' <- embed model bg ;;
  readout_all (dgl_unbatch bg').

(** [self.fc2(self.activation(self.fc1(tensor)))] *)
Definition head (model : t) (x : tensor) : result tensor :=
  y <- linear (fc1 model) x ;;
  linear (fc2 model) (map (map relu) y).

(** [torch.cat(features)] raises on an empty list. *)
Definition forward (model : t) (bg : BatchedDGLGraph) : result tensor :=
  fs <- features model bg ;;
  match fs with
  | [] => raise RuntimeError
  | _ :: _ => head model fs
  end.

End Classifier.

(** ** Evaluation loop

<<
total_count = len(df_target)
iteration_count = math.ceil(total_count / batch_size)
df_probs_list = []
for i in tqdm(range(iteration_count)):
    start = i * batch_size
    end = (i+1) * batch_size
    if end > total_count:
        end = total_count
    batch_graphs = dgl.batch(graphs[start:end])
    model.eval()
    prediction = model(batch_graphs).view(-1)
    probs = torch.sigmoid(prediction)...numpy()
    df = df_target.iloc[start:end].copy()
    df['probability'] = probs
    df_probs_list.append(df)
df_probs = pd.concat(df_probs_list)
>>
    There is one graph per row of [df_target], so [total_count] is the
    length of [graphs] and the frame [df] of an iteration has as many rows
    as the slice has graphs.  Of a frame only the column ['probability']
    is kept here.  [batch_size] is the constant 100 of the notebook, a
    parameter here. *)

(** What these cells can raise: the division by a zero batch size, an
    exception of the model, and the [ValueError] of pandas. *)
Inductive eval_exception : Type :=
| ZeroDivisionError
| ModelError (e : exception)
| ValueError.

(** [math.ceil(total_count / batch_size)] *)
Definition iteration_count (total_count batch_size : nat)
  : eval_exception + nat :=
  match batch_size with
  | 0 => inl ZeroDivisionError
  | S _ => inr ((total_count + batch_size - 1) / batch_size)
  end.

(** [l[start:stop]] for indices that are not negative. *)
Definition slice {A : Type} (l : list A) (start stop : nat) : list A :=
  skipn start (firstn stop l).

(** [graphs[start:end]] of iteration [i]. *)
Definition batch_slice {A : Type} (l : list A) (batch_size i : nat) : list A :=
  let total_count := length l in
  let start := i * batch_size in
  let stop := (i + 1) * batch_size in
  let stop := if total_count <? stop then total_count else stop in
  slice l start stop.

(** The slices of [for i in range(iteration_count)]. *)
Definition eval_batches {A : Type} (l : list A) (batch_size count : nat)
  : list (list A) :=
  map (batch_slice l batch_size) (seq 0 count).

(** [torch.sigmoid] *)
Definition torch_sigmoid (x : R) : R := (1 / (1 + exp (- x)))%R.

(** [torch.sigmoid(model(batch_graphs).view(-1))] *)
Definition predict_proba (model : Classifier.t) (batch_graphs : list DGLGraph)
  : result vec :=
  prediction <- Classifier.forward model (dgl_batch batch_graphs) ;;
  ret (map torch_sigmoid (concat prediction)).

(** The body of the loop, slice after slice.  [df['probability'] = probs]
    raises a [ValueError] unless [probs] has one entry per row of [df]. *)
Fixpoint eval_loop (model : Classifier.t) (batches : list (list DGLGraph))
  : eval_exception + list vec :=
  match batches with
  | [] => inr []
  | b :: bs =>
      match predict_proba model b with
      | inl e => inl (ModelError e)
      | inr probs =>
          if length probs =? length b then
            match eval_loop model bs with
            | inl e => inl e
            | inr df_probs_list => inr (probs :: df_probs_list)
            end
          else inl ValueError
      end
  end.

(** [pd.concat] raises a [ValueError] on an empty list of frames. *)
Definition pd_concat (frames : list vec) : eval_exception + vec :=
  match frames with
  | [] => inl ValueError
  | _ :: _ => inr (concat frames)
  end.

(** The column ['probability'] of [df_probs]. *)
Definition evaluate (model : Classifier.t) (graphs : list DGLGraph)
    (batch_size : nat) : eval_exception + vec :=
  match iteration_count (length graphs) batch_size with
  | inl e => inl e
  | inr count =>
      match eval_loop model (eval_batches graphs batch_size count) with
      | inl e => inl e
      | inr df_probs_list => pd_concat df_probs_list
      end
  end.

(** ** Training batches

<<
def collate(samples):
    graphs, labels = map(list, zip( *samples))
    batched_graph = dgl.batch(graphs)
    return batched_graph, torch.tensor(labels).to(device)
>>
    [samples] is a list of pairs (graph, label).  On an empty list
    the [zip] yields nothing and the unpacking into two names raises
    a [ValueError]: [None] here. *)
Definition collate_samples (samples : list (DGLGraph * R))
  : option (BatchedDGLGraph * vec) :=
  match samples with
  | [] => None
  | _ :: _ =>
      let graphs := map fst samples in
      let labels := map snd samples in
      let batched_graph := dgl_batch graphs in
      Some (batched_graph, labels)
  end.

(** ** Vocabulary of the statements *)

(** The node pair of an edge-list line. *)
Definition endpoints (l : nat * nat * R) : nat * nat := fst l.

(** Every node id a line mentions. *)
Definition observed_ids (lines : list (nat * nat * R)) : list nat :=
  flat_map (fun l => [fst (fst l); snd (fst l)]) lines.

(** The largest observed node id. *)
Definition max_node_id (lines : list (nat * nat * R)) : nat :=
  list_max (observed_ids lines).

(** A [DiGraph] holds each node once. *)
Definition wf_DiGraph (G : DiGraph) : Prop := NoDup (nx_nodes G).

(** Each node holds each of its successors once. *)
Definition successors_unique (G : DiGraph) : Prop :=
  Forall (fun p => NoDup (map fst (snd p))) G.

Definition same_pair (k1 k2 : nat * nat) : bool :=
  (fst k1 =? fst k2) && (snd k1 =? snd k2).

(** The weight of the last line that names the node pair [k]. *)
Fixpoint last_weight (lines : list (nat * nat * R)) (k : nat * nat)
  : option R :=
  match lines with
  | [] => None
  | l :: ls =>
      match last_weight ls k with
      | Some w => Some w
      | None => if same_pair (endpoints l) k then Some (snd l) else None
      end
  end.

(** No node pair is given two different weights. *)
Definition single_weighted (lines : list (nat * nat * R)) : Prop :=
  forall u v w w', In (u, v, w) lines -> In (u, v, w') lines -> w = w'.

(** The forward and the mirrored edge of a line. *)
Definition forward_edge (l : nat * nat * R) : Edge :=
  mkEdge (fst (fst l)) (snd (fst l)) (snd l) 0%R.

Definition reverse_edge (l : nat * nat * R) : Edge :=
  mkEdge (snd (fst l)) (fst (fst l)) (snd l) 1%R.

(** A row with exactly one entry equal to 1 and the others 0. *)
Definition is_one_hot (row : vec) : Prop :=
  exists j, j < length row /\
    forall k, k < length row ->
      nth k row 0%R = if k =? j then 1%R else 0%R.

(** The edges that arrive at node [v], in edge-id order. *)
Definition in_edges (g : DGLGraph) (v : nat) : list Edge :=
  filter (fun e => e_dst e =? v) (edata g).

Definition has_flag (flag : R) (e : Edge) : bool :=
  if Req_EM_T (e_direction e) flag then true else false.

(** The sum of [H[u] * weight(u -> v)] over the edges [es]; the zero vector
    of width [d] when there is none. *)
Definition sum_messages (d : nat) (h : tensor) (es : list Edge) : vec :=
  fold_right vadd (zeros d)
             (map (fun e => scale (e_weight e) (nth (e_src e) h [])) es).

(** The sum over the edges into [v] whose direction flag is [flag]. *)
Definition neighbour_sum (d : nat) (h : tensor) (g : DGLGraph) (v : nat)
    (flag : R) : vec :=
  sum_messages d h (filter (has_flag flag) (in_edges g v)).

(** What [BiDirectionalGCN] computes at node [v]: the node's own feature,
    then the sum over the incoming edges flagged 1, then the sum over the
    incoming edges flagged 0, through the linear map and the activation. *)
Definition BiGCN_node (layer : BiDirectionalGCN.t) (d : nat) (h : tensor)
    (g : DGLGraph) (v : nat) : vec :=
  map (BiDirectionalGCN.activation layer)
      (linear_row (BiDirectionalGCN.fc layer)
         (nth v h [] ++ neighbour_sum d h g v 1 ++ neighbour_sum d h g v 0)).

(** The same with the two sums in the other order: flag 0 first. *)
Definition BiGCN_node_flag0_first (layer : BiDirectionalGCN.t) (d : nat)
    (h : tensor) (g : DGLGraph) (v : nat) : vec :=
  map (BiDirectionalGCN.activation layer)
      (linear_row (BiDirectionalGCN.fc layer)
         (nth v h [] ++ neighbour_sum d h g v 0 ++ neighbour_sum d h g v 1)).

(** The endpoints of every edge are nodes of the graph. *)
Definition wf_graph (g : DGLGraph) : Prop :=
  Forall (fun e => e_src e < number_of_nodes g /\ e_dst e < number_of_nodes g)
         (edata g).

(** Every edge carries the flag 0 or the flag 1. *)
Definition flagged (g : DGLGraph) : Prop :=
  Forall (fun e => e_direction e = 0%R \/ e_direction e = 1%R) (edata g).

(** The endpoints of an edge: the topology without weight and flag. *)
Definition edge_ends (e : Edge) : nat * nat := (e_src e, e_dst e).

(** Column [j] of a tensor. *)
Definition column (j : nat) (t : tensor) : vec :=
  map (fun row => nth j row 0%R) t.

(** The mean of each column of a tensor of width [d]. *)
Definition elementwise_mean (d : nat) (t : tensor) : vec :=
  map (fun j => (total (column j t) / INR (length t))%R) (seq 0 d).

(** The largest entry of a list of numbers (0 for the empty list). *)
Definition maximum (l : vec) : R :=
  match l with
  | [] => 0%R
  | x :: xs => fold_left Rmax xs x
  end.

(** The maximum of each column of a tensor of width [d]. *)
Definition elementwise_max (d : nat) (t : tensor) : vec :=
  map (fun j => maximum (column j t)) (seq 0 d).

(** The disjoint union of two graphs: what [dgl.batch] makes of a list of
    two. *)
Definition disjoint_union (g1 g2 : DGLGraph) : DGLGraph :=
  mkGraph (number_of_nodes g1 + number_of_nodes g2)
          (ndata_h g1 ++ ndata_h g2)
          (edata g1 ++ map (shift_edge (number_of_nodes g1)) (edata g2)).

(** The rows [BiDirectionalGCN.forward] hands to its linear map, on a graph
    that has edges: [cat([h, h0, h1])]. *)
Definition BiGCN_rows (g : DGLGraph) (h : tensor) : tensor :=
  BiDirectionalGCN.cat3 h
    (map (node_out (edata g)
                   (map (BiDirectionalGCN.message_func h) (edata g))
                   (fun _ => BiDirectionalGCN.reduce_func)
                   (zeros (width h), zeros (width h)))
         (seq 0 (number_of_nodes g))).

(** The shape checks of [GATWithSelfLoop.forward]: the four linear maps
    accept their inputs. *)
Definition GAT_checks (layer : GATWithSelfLoop.t) (g : DGLGraph) (h : tensor)
  : bool :=
  let z_self := map (linear_row (GATWithSelfLoop.self_fc layer)) h in
  let z := map (linear_row (GATWithSelfLoop.fc layer)) h in
  rows_ok (GATWithSelfLoop.self_fc layer) h
  && rows_ok (GATWithSelfLoop.fc layer) h
  && rows_ok (GATWithSelfLoop.self_attn_fc layer) z_self
  && rows_ok (GATWithSelfLoop.attn_fc layer)
             (GATWithSelfLoop.cat_src_dst z (edata g)).

(** The rows [GATWithSelfLoop.forward] returns when the checks pass, on a
    graph that has edges. *)
Definition GAT_nodes (layer : GATWithSelfLoop.t) (g : DGLGraph) (h : tensor)
  : tensor :=
  let z_self := map (linear_row (GATWithSelfLoop.self_fc layer)) h in
  let z := map (linear_row (GATWithSelfLoop.fc layer)) h in
  let e_self :=
    map (fun r => leaky_relu (item r))
        (map (linear_row (GATWithSelfLoop.self_attn_fc layer)) z_self) in
  let e :=
    map (fun r => leaky_relu (item r))
        (map (linear_row (GATWithSelfLoop.attn_fc layer))
             (GATWithSelfLoop.cat_src_dst z (edata g))) in
  map (node_out (edata g) (GATWithSelfLoop.message_func z e (edata g))
                (GATWithSelfLoop.reduce_func layer z_self e_self)
                (zeros (out_features (GATWithSelfLoop.self_fc layer))))
      (seq 0 (number_of_nodes g)).

(** The two layers on one graph. *)
Definition embed_graph (model : Classifier.t) (g : DGLGraph) : result tensor :=
  h <- BiDirectionalGCN.forward (Classifier.conv1 model) g (ndata_h g) ;;
  GATWithSelfLoop.forward (Classifier.conv2 model) g h.

(** What the layers and the readout need of a graph of feature width [d]:
    edges, endpoints that are nodes, one feature row per node. *)
Definition batchable (d : nat) (g : DGLGraph) : Prop :=
  wf_graph g /\ edata g <> [] /\
  length (ndata_h g) = number_of_nodes g /\ width (ndata_h g) = d.

(** The bias of an [nn.Linear], when there is one, has one entry per output
    feature. *)
Definition bias_fits (L : Linear) : Prop :=
  forall b, lin_bias L = Some b -> length b = out_features L.

(** An [nn.Linear(i, o)]. *)
Definition shaped (L : Linear) (i o : nat) : Prop :=
  in_features L = i /\ out_features L = o /\ bias_fits L.

(** The layers [Classifier(in_dim, hidden_dim, n_classes)] constructs. *)
Definition constructed (in_dim hidden_dim n_classes : nat)
    (model : Classifier.t) : Prop :=
  shaped (BiDirectionalGCN.fc (Classifier.conv1 model))
         (in_dim * 3) hidden_dim /\
  shaped (GATWithSelfLoop.fc (Classifier.conv2 model))
         hidden_dim hidden_dim /\
  shaped (GATWithSelfLoop.attn_fc (Classifier.conv2 model))
         (2 * hidden_dim) 1 /\
  shaped (GATWithSelfLoop.self_fc (Classifier.conv2 model))
         hidden_dim hidden_dim /\
  shaped (GATWithSelfLoop.self_attn_fc (Classifier.conv2 model))
         hidden_dim 1 /\
  shaped (Classifier.fc1 model) (hidden_dim * 9) hidden_dim /\
  shaped (Classifier.fc2 model) hidden_dim n_classes.

(** What the loading loop guarantees of a graph with features of width
    [d], for [d >= 8]. *)
Definition loaded_graph (d : nat) (g : DGLGraph) : Prop :=
  edata g <> [] /\ wf_graph g /\ flagged g /\
  length (ndata_h g) = number_of_nodes g /\
  rectangular d (ndata_h g) /\ 8 <= number_of_nodes g.

(** One computation per graph, the results appended in order. *)
Fixpoint single_runs {A : Type} (f : DGLGraph -> result (list A))
    (gs : list DGLGraph) : result (list A) :=
  match gs with
  | [] => ret []
  | g :: gs' =>
      x <- f g ;;
      xs <- single_runs f gs' ;;
      ret (x ++ xs)
  end.

(** The embeddings of each graph of a list, run one by one. *)
Fixpoint embed_each (model : Classifier.t) (gs : list DGLGraph)
  : result (list tensor) :=
  match gs with
  | [] => ret []
  | g :: gs' =>
      a <- embed_graph model g ;;
      r <- embed_each model gs' ;;
      ret (a :: r)
  end.

(** The readout of each embedding of a list. *)
Fixpoint readout_each (hs : list tensor) : result tensor :=
  match hs with
  | [] => ret []
  | h :: hs' =>
      f <- Classifier.readout h ;;
      fs <- readout_each hs' ;;
      ret (f :: fs)
  end.

(** ** Example inputs *)

(** Two nodes, the edge 0 -> 1 of weight 2 and its mirror. *)
Definition two_node_graph : DGLGraph :=
  mkGraph 2 [[3]; [5]]%R [mkEdge 0 1 2 0; mkEdge 1 0 2 1].

(** A [BiDirectionalGCN(1, 3, identity)] whose linear map is the identity
    of width 3. *)
Definition identity_BiGCN : BiDirectionalGCN.t :=
  BiDirectionalGCN.mk
    (mkLinear 3 [[1; 0; 0]; [0; 1; 0]; [0; 0; 1]]%R (Some [0; 0; 0]%R))
    (fun x => x).

(** Three nodes: the edge 0 -> 2 with its mirror, and node 1 isolated (an
    id the edge list does not mention, added by the padding loop). *)
Definition isolated_node_graph : DGLGraph :=
  mkGraph 3 [[1]; [1]; [1]]%R [mkEdge 0 2 1 0; mkEdge 2 0 1 1].

(** The same graph with other weights. *)
Definition isolated_node_graph' : DGLGraph :=
  mkGraph 3 [[1]; [1]; [1]]%R [mkEdge 0 2 7 0; mkEdge 2 0 7 1].

(** A [GATWithSelfLoop(1, 1, F.relu)] with all weights 1. *)
Definition unit_GAT : GATWithSelfLoop.t :=
  GATWithSelfLoop.mk
    (mkLinear 1 [[1]]%R None)
    (mkLinear 2 [[1; 1]]%R None)
    (mkLinear 1 [[1]]%R None)
    (mkLinear 1 [[1]]%R None)
    relu.

(** The graphs of the edge lists (0,7,1.0) and (0,8,2.0): 8 and 9 nodes. *)
Definition eight_node_graph : DGLGraph :=
  mkGraph 8 (map (fun v => one_hot 8 (Nat.min v 7)) (seq 0 8))
          [mkEdge 0 7 1 0; mkEdge 7 0 1 1].

Definition nine_node_graph : DGLGraph :=
  mkGraph 9 (map (fun v => one_hot 8 (Nat.min v 7)) (seq 0 9))
          [mkEdge 0 8 2 0; mkEdge 8 0 2 1].

(** A [Classifier(8, 1, 1)] with all weights 1 and all biases 0. *)
Definition unit_classifier : Classifier.t :=
  Classifier.mk
    (BiDirectionalGCN.mk (mkLinear 24 [repeat 1%R 24] (Some [0%R])) relu)
    unit_GAT
    (mkLinear 9 [repeat 1%R 9] (Some [0%R]))
    (mkLinear 1 [[1%R]] (Some [0%R])).

(** * Properties *)

(** ** The networkx dictionaries *)

Section DictFacts.

Variable V : Type.

Lemma dict_mem_In (k : nat) (d : dict V) :
  dict_mem k d = true <-> In k (map fst d).
Proof.
  induction d as [|[k' v'] d IH]; simpl.
  - split; [discriminate | tauto].
  - rewrite orb_true_iff, Nat.eqb_eq, IH. tauto.
Qed.

Lemma dict_mem_app (k : nat) (d1 d2 : dict V) :
  dict_mem k (d1 ++ d2) = dict_mem k d1 || dict_mem k d2.
Proof.
  induction d1 as [|[k' v'] d1 IH]; simpl; [reflexivity|].
  now rewrite IH, orb_assoc.
Qed.

Lemma dict_set_fresh (k : nat) (v : V) (d : dict V) :
  ~ In k (map fst d) -> dict_set k v d = d ++ [(k, v)].
Proof.
  induction d as [|[k' v'] d IH]; simpl; intros Hk; [reflexivity|].
  destruct (Nat.eqb_spec k' k) as [->|Hne]; [tauto|].
  now rewrite IH by tauto.
Qed.

Lemma dict_update_keys (k : nat) (f : V -> V) (d : dict V) :
  map fst (dict_update k f d) = map fst d.
Proof.
  induction d as [|[k' v'] d IH]; simpl; [reflexivity|].
  destruct (k' =? k); simpl; now rewrite ?IH.
Qed.

End DictFacts.

Lemma has_node_In (G : DiGraph) (u : nat) :
  has_node G u = true <-> In u (nx_nodes G).
Proof. apply dict_mem_In. Qed.

Lemma nx_nodes_add_node (u : nat) (G : DiGraph) :
  nx_nodes (add_node u G) = if has_node G u then nx_nodes G else nx_nodes G ++ [u].
Proof.
  unfold add_node, nx_nodes. destruct (has_node G u); [reflexivity|].
  now rewrite map_app.
Qed.

Lemma In_nodes_add_node (x u : nat) (G : DiGraph) :
  In x (nx_nodes (add_node u G)) <-> x = u \/ In x (nx_nodes G).
Proof.
  rewrite nx_nodes_add_node. destruct (has_node G u) eqn:E.
  - apply has_node_In in E. split; [tauto | intros [->|]; assumption].
  - rewrite in_app_iff. simpl. intuition.
Qed.

Lemma nx_edges_app (G1 G2 : DiGraph) :
  nx_edges (G1 ++ G2) = nx_edges G1 ++ nx_edges G2.
Proof. apply flat_map_app. Qed.

Lemma nx_edges_add_node (u : nat) (G : DiGraph) :
  nx_edges (add_node u G) = nx_edges G.
Proof.
  unfold add_node. destruct (has_node G u); [reflexivity|].
  rewrite nx_edges_app. simpl. apply app_nil_r.
Qed.

Lemma wf_add_node (u : nat) (G : DiGraph) :
  wf_DiGraph G -> wf_DiGraph (add_node u G).
Proof.
  unfold wf_DiGraph. intros Hn. rewrite nx_nodes_add_node.
  destruct (has_node G u) eqn:E; [assumption|].
  apply NoDup_app; [assumption | repeat constructor; simpl; tauto |].
  intros x Hx [<-|[]]. apply has_node_In in Hx. congruence.
Qed.

Lemma In_nx_edges (G : DiGraph) (u v : nat) (w : R) :
  In (u, v, w) (nx_edges G) <-> exists nbrs, In (u, nbrs) G /\ In (v, w) nbrs.
Proof.
  unfold nx_edges. rewrite in_flat_map. split.
  - intros [[u' nbrs] [HG Hin]]. apply in_map_iff in Hin.
    destruct Hin as [[v' w'] [Heq Hin]]. inversion Heq; subst. eauto.
  - intros [nbrs [HG Hin]]. exists (u, nbrs). split; [assumption|].
    apply in_map_iff. now exists (v, w).
Qed.

Lemma nx_edges_src_node (G : DiGraph) (l : nat * nat * R) :
  In l (nx_edges G) -> In (fst (fst l)) (nx_nodes G).
Proof.
  destruct l as [[u v] w]. rewrite In_nx_edges. intros [nbrs [HG _]].
  apply in_map_iff. now exists (u, nbrs).
Qed.

Lemma nx_nodes_add_edge (u v : nat) (w : R) (G : DiGraph) :
  nx_nodes (add_edge u v w G) = nx_nodes (add_node v (add_node u G)).
Proof. apply dict_update_keys. Qed.

Lemma wf_add_edge (u v : nat) (w : R) (G : DiGraph) :
  wf_DiGraph G -> wf_DiGraph (add_edge u v w G).
Proof.
  intros H. unfold wf_DiGraph. rewrite nx_nodes_add_edge.
  now apply wf_add_node, wf_add_node.
Qed.

Lemma In_nodes_add_edge (x u v : nat) (w : R) (G : DiGraph) :
  In x (nx_nodes (add_edge u v w G)) <-> x = u \/ x = v \/ In x (nx_nodes G).
Proof.
  rewrite nx_nodes_add_edge, !In_nodes_add_node. tauto.
Qed.

(** Writing a new successor of a node that is present adds one edge. *)
Lemma nx_edges_new_successor (G : DiGraph) (u v : nat) (w : R) :
  In u (nx_nodes G) ->
  ~ In (u, v) (map endpoints (nx_edges G)) ->
  Permutation (nx_edges (dict_update u (dict_set v w) G))
              ((u, v, w) :: nx_edges G).
Proof.
  induction G as [|[k nbrs] G IH]; simpl; intros Hu Hfresh; [tauto|].
  rewrite map_app, in_app_iff in Hfresh.
  destruct (Nat.eqb_spec k u) as [->|Hne]; simpl.
  - assert (Hv : ~ In v (map fst nbrs)).
    { intros Hv. apply Hfresh. left. apply in_map_iff in Hv.
      destruct Hv as [[v' w'] [Hv Hin]]. simpl in Hv. subst v'.
      rewrite map_map. apply in_map_iff. now exists (v, w'). }
    rewrite (dict_set_fresh _ _ _ Hv), map_app. simpl.
    rewrite <- app_assoc. simpl. symmetry. apply Permutation_middle.
  - destruct Hu as [Hu|Hu]; [congruence|].
    rewrite (Permutation_app_head _ (IH Hu (fun H => Hfresh (or_intror H)))).
    symmetry. apply Permutation_middle.
Qed.

Lemma nx_edges_add_edge (G : DiGraph) (u v : nat) (w : R) :
  ~ In (u, v) (map endpoints (nx_edges G)) ->
  Permutation (nx_edges (add_edge u v w G)) ((u, v, w) :: nx_edges G).
Proof.
  intros Hfresh. unfold add_edge.
  rewrite <- (nx_edges_add_node u G), <- (nx_edges_add_node v (add_node u G)) in Hfresh |- *.
  apply nx_edges_new_successor; [|assumption].
  apply In_nodes_add_node. right. apply In_nodes_add_node. now left.
Qed.

Lemma read_lines_edges (lines : list (nat * nat * R)) : forall G,
  NoDup (map endpoints lines) ->
  (forall l, In l lines -> ~ In (endpoints l) (map endpoints (nx_edges G))) ->
  Permutation (nx_edges (fold_left add_line lines G)) (nx_edges G ++ lines).
Proof.
  induction lines as [|[[u v] w] lines IH]; simpl; intros G Hnd Hfresh.
  - now rewrite app_nil_r.
  - inversion Hnd as [|? ? Hhd Htl]; subst.
    assert (Hstep := nx_edges_add_edge G u v w (Hfresh _ (or_introl eq_refl))).
    rewrite IH; [| assumption |].
    + rewrite (Permutation_app_tail _ Hstep). simpl. apply Permutation_middle.
    + intros l Hl Hin.
      apply (Permutation_in _ (Permutation_map endpoints Hstep)) in Hin.
      destruct Hin as [Heq|Hin].
      * apply Hhd. unfold endpoints in Heq. simpl in Heq. rewrite Heq.
        now apply in_map.
      * now apply (Hfresh l (or_intror Hl)).
Qed.

Lemma read_lines_nodes (lines : list (nat * nat * R)) : forall G x,
  In x (nx_nodes (fold_left add_line lines G)) <->
  In x (nx_nodes G) \/ In x (observed_ids lines).
Proof.
  induction lines as [|[[u v] w] lines IH]; simpl; intros G x; [tauto|].
  rewrite IH, In_nodes_add_edge. intuition.
Qed.

Lemma read_lines_wf (lines : list (nat * nat * R)) : forall G,
  wf_DiGraph G -> wf_DiGraph (fold_left add_line lines G).
Proof.
  induction lines as [|[[u v] w] lines IH]; simpl; intros G HG; [assumption|].
  now apply IH, wf_add_edge.
Qed.

(** ** Node ids after padding *)

Lemma fold_left_max (l : list nat) : forall a,
  fold_left Nat.max l a = Nat.max a (list_max l).
Proof.
  induction l as [|x l IH]; simpl; intros a; [lia|].
  rewrite IH. lia.
Qed.

Lemma list_max_ge (l : list nat) (x : nat) : In x l -> x <= list_max l.
Proof.
  intros Hx. assert (H : list_max l <= list_max l) by lia.
  apply list_max_le in H. rewrite Forall_forall in H. now apply H.
Qed.

Lemma list_max_mem (l : list nat) : l <> [] -> In (list_max l) l.
Proof.
  induction l as [|x l IH]; [congruence|]. intros _. simpl.
  destruct l as [|y l]; [simpl; lia|].
  destruct (Nat.max_spec x (list_max (y :: l))) as [[_ ->]|[_ ->]].
  - right. apply IH. discriminate.
  - now left.
Qed.

Lemma list_max_same_elements (l1 l2 : list nat) :
  l1 <> [] -> (forall x, In x l1 <-> In x l2) -> list_max l1 = list_max l2.
Proof.
  intros Hne Heq.
  assert (Hne2 : l2 <> []).
  { destruct l1 as [|x l1]; [congruence|]. destruct l2; [|discriminate].
    destruct (proj1 (Heq x) (or_introl eq_refl)). }
  apply Nat.le_antisymm; apply list_max_ge.
  - apply Heq. now apply list_max_mem.
  - apply Heq. now apply list_max_mem.
Qed.

Lemma last_id_list_max (G : DiGraph) :
  G <> [] -> last_id G = inr (list_max (nx_nodes G)).
Proof.
  unfold last_id. destruct G as [|[n nbrs] G]; [congruence|]. intros _.
  simpl. unfold ret. f_equal. apply fold_left_max.
Qed.

Lemma observed_ids_nonempty (lines : list (nat * nat * R)) :
  lines <> [] -> observed_ids lines <> [].
Proof. destruct lines as [|[[u v] w] lines]; [congruence | discriminate]. Qed.

Lemma read_nodes_observed (lines : list (nat * nat * R)) (x : nat) :
  In x (nx_nodes (read_weighted_edgelist lines)) <-> In x (observed_ids lines).
Proof.
  unfold read_weighted_edgelist. rewrite read_lines_nodes. simpl. tauto.
Qed.

Lemma last_id_read (lines : list (nat * nat * R)) :
  lines <> [] ->
  last_id (read_weighted_edgelist lines) = inr (max_node_id lines).
Proof.
  intros Hne.
  assert (Hobs := observed_ids_nonempty Hne).
  assert (HG : read_weighted_edgelist lines <> []).
  { intros E. destruct (observed_ids lines) as [|x l] eqn:Eo; [congruence|].
    assert (Hx : In x (nx_nodes (read_weighted_edgelist lines))).
    { apply read_nodes_observed. rewrite Eo. now left. }
    rewrite E in Hx. destruct Hx. }
  rewrite (last_id_list_max HG). unfold max_node_id. f_equal.
  apply list_max_same_elements.
  - intros E. apply HG. now apply map_eq_nil in E.
  - apply read_nodes_observed.
Qed.

Lemma last_id_empty : last_id (read_weighted_edgelist []) = inl IndexError.
Proof. reflexivity. Qed.

Lemma pad_nodes_In (k : nat) : forall G x,
  In x (nx_nodes (fold_left (fun G i => add_node i G) (seq 0 k) G)) <->
  x < k \/ In x (nx_nodes G).
Proof.
  induction k as [|k IH]; intros G x; [simpl; intuition lia|].
  rewrite seq_S, fold_left_app. simpl.
  rewrite In_nodes_add_node, IH. intuition lia.
Qed.

Lemma pad_nodes_wf (l : list nat) : forall G,
  wf_DiGraph G -> wf_DiGraph (fold_left (fun G i => add_node i G) l G).
Proof.
  induction l as [|i l IH]; simpl; intros G HG; [assumption|].
  now apply IH, wf_add_node.
Qed.

Lemma pad_nodes_edges (l : list nat) : forall G,
  nx_edges (fold_left (fun G i => add_node i G) l G) = nx_edges G.
Proof.
  induction l as [|i l IH]; simpl; intros G; [reflexivity|].
  now rewrite IH, nx_edges_add_node.
Qed.

(** After padding the node set is [0 .. last_id]: DGL's relabelling by
    sorted rank is the identity, and there are [last_id + 1] nodes. *)
Lemma padded_nodes_range (lines : list (nat * nat * R)) :
  lines <> [] ->
  Permutation (nx_nodes (pad_nodes (max_node_id lines)
                                   (read_weighted_edgelist lines)))
              (seq 0 (S (max_node_id lines))).
Proof.
  intros Hne. apply NoDup_Permutation.
  - apply pad_nodes_wf. unfold read_weighted_edgelist. apply read_lines_wf.
    constructor.
  - apply seq_NoDup.
  - intros x. unfold pad_nodes. rewrite pad_nodes_In, read_nodes_observed, in_seq.
    split.
    + intros [H|H]; [lia|]. apply list_max_ge in H. unfold max_node_id. lia.
    + intros H. destruct (Nat.eq_dec x (max_node_id lines)) as [->|Hx]; [|lia].
      right. apply list_max_mem. now apply observed_ids_nonempty.
Qed.

Lemma padded_nodes_count (lines : list (nat * nat * R)) :
  lines <> [] ->
  length (nx_nodes (pad_nodes (max_node_id lines)
                              (read_weighted_edgelist lines)))
  = S (max_node_id lines).
Proof.
  intros Hne. rewrite (Permutation_length (padded_nodes_range Hne)).
  apply length_seq.
Qed.

Lemma built_edges (lines : list (nat * nat * R)) :
  NoDup (map endpoints lines) ->
  Permutation (nx_edges (pad_nodes (max_node_id lines)
                                   (read_weighted_edgelist lines)))
              lines.
Proof.
  intros Hnd. unfold pad_nodes. rewrite pad_nodes_edges.
  unfold read_weighted_edgelist.
  rewrite read_lines_edges; simpl; [reflexivity | assumption | tauto].
Qed.

(** ** Node features *)

Lemma length_one_hot (d j : nat) : length (one_hot d j) = d.
Proof. unfold one_hot. now rewrite length_map, length_seq. Qed.

Lemma nth_map_lt {A B} (f : A -> B) (l : list A) (k : nat) (a : A) (b : B) :
  k < length l -> nth k (map f l) b = f (nth k l a).
Proof.
  revert k. induction l as [|x l IH]; simpl; intros k Hk; [lia|].
  destruct k; [reflexivity|]. apply IH. lia.
Qed.

Lemma nth_one_hot (d j k : nat) :
  k < d -> nth k (one_hot d j) 0%R = if k =? j then 1%R else 0%R.
Proof.
  intros Hk. unfold one_hot.
  rewrite (nth_map_lt _ _ 0) by now rewrite length_seq.
  rewrite seq_nth by assumption. simpl. now rewrite Nat.eqb_sym.
Qed.

Lemma one_hot_is_one_hot (d j : nat) : j < d -> is_one_hot (one_hot d j).
Proof.
  intros Hj. exists j. rewrite length_one_hot. split; [assumption|].
  intros k Hk. now apply nth_one_hot.
Qed.

Lemma map_off_diagonal (d : nat) : forall a s,
  a < s -> map (fun k => if a =? k then 1%R else 0%R) (seq s d) = zeros d.
Proof.
  induction d as [|d IH]; intros a s Ha; simpl; [reflexivity|].
  destruct (Nat.eqb_spec a s); [lia|]. unfold zeros. simpl. f_equal.
  apply IH. lia.
Qed.

Lemma set_item_zeros (d : nat) : forall j s,
  j < d ->
  set_item (zeros d) j 1%R
  = map (fun k => if s + j =? k then 1%R else 0%R) (seq s d).
Proof.
  induction d as [|d IH]; intros j s Hj; [lia|].
  destruct j as [|j]; simpl.
  - rewrite Nat.add_0_r, Nat.eqb_refl. f_equal.
    symmetry. apply map_off_diagonal. lia.
  - destruct (Nat.eqb_spec (s + S j) s); [lia|]. f_equal.
    fold (zeros d). rewrite (IH j (S s)) by lia. apply map_ext. intros k.
    now replace (S s + j) with (s + S j) by lia.
Qed.

Lemma set_item_last (d : nat) :
  0 < d -> set_item (zeros d) (d - 1) 1%R = one_hot d (d - 1).
Proof.
  intros Hd. rewrite (set_item_zeros 0) by lia. reflexivity.
Qed.

Lemma make_node_feature_rows (n f : nat) :
  1 <= f <= n ->
  make_node_feature n f
  = inr (map (fun v => one_hot f (Nat.min v (f - 1))) (seq 0 n)).
Proof.
  intros [Hf Hn]. unfold make_node_feature.
  destruct (Nat.ltb_spec n f); [lia|].
  destruct (Nat.eqb_spec f 0); [lia|].
  unfold ret. f_equal.
  replace n with (f + (n - f)) at 2 by lia.
  rewrite seq_app, map_app. f_equal.
  - unfold torch_eye. apply map_ext_in. intros v Hv. apply in_seq in Hv.
    now replace (Nat.min v (f - 1)) with v by lia.
  - unfold set_column, torch_zeros. rewrite map_repeat, set_item_last by lia.
    simpl. generalize (n - f) as m. intros m.
    assert (Hrep : forall s, f <= s ->
              repeat (one_hot f (f - 1)) m
              = map (fun v => one_hot f (Nat.min v (f - 1))) (seq s m)).
    { induction m as [|m IH]; intros s Hs; simpl; [reflexivity|].
      replace (Nat.min s (f - 1)) with (f - 1) by lia. f_equal.
      apply IH. lia. }
    now apply Hrep.
Qed.

Lemma make_node_feature_too_few (n f : nat) :
  n < f -> make_node_feature n f = inl RuntimeError.
Proof.
  intros H. unfold make_node_feature.
  now destruct (Nat.ltb_spec n f); [|lia].
Qed.

(** ** The loading loop *)

Lemma build_graph_with_unfold (f : nat) (lines : list (nat * nat * R)) :
  lines <> [] ->
  build_graph_with f lines
  = (let Di_G := pad_nodes (max_node_id lines) (read_weighted_edgelist lines) in
     h <- make_node_feature (S (max_node_id lines)) f ;;
     ret (mkGraph (S (max_node_id lines)) h
                  (add_reverse_edges (from_networkx Di_G)))).
Proof.
  intros Hne. unfold build_graph_with.
  rewrite (last_id_read Hne). simpl.
  now rewrite (padded_nodes_count Hne).
Qed.

Lemma build_graph_with_empty (f : nat) :
  build_graph_with f [] = inl IndexError.
Proof. reflexivity. Qed.

Lemma build_graph_with_ok (f : nat) (lines : list (nat * nat * R)) :
  lines <> [] -> 1 <= f <= S (max_node_id lines) ->
  build_graph_with f lines
  = inr (mkGraph (S (max_node_id lines))
           (map (fun v => one_hot f (Nat.min v (f - 1)))
                (seq 0 (S (max_node_id lines))))
           (add_reverse_edges
              (from_networkx (pad_nodes (max_node_id lines)
                                        (read_weighted_edgelist lines))))).
Proof.
  intros Hne Hf. rewrite (build_graph_with_unfold _ Hne). cbv zeta.
  now rewrite (make_node_feature_rows Hf).
Qed.

Lemma build_graph_with_inv (f : nat) (lines : list (nat * nat * R))
    (g : DGLGraph) :
  build_graph_with f lines = inr g ->
  lines <> [] /\ 1 <= f <= S (max_node_id lines).
Proof.
  intros Hb. assert (Hne : lines <> []).
  { intros ->. rewrite build_graph_with_empty in Hb. discriminate. }
  split; [assumption|].
  rewrite (build_graph_with_unfold _ Hne) in Hb. cbv zeta in Hb.
  unfold make_node_feature in Hb.
  destruct (Nat.ltb_spec (S (max_node_id lines)) f); [discriminate|].
  destruct (Nat.eqb_spec f 0); [discriminate|]. lia.
Qed.

Lemma from_networkx_forward (G : DiGraph) :
  from_networkx G = map forward_edge (nx_edges G).
Proof.
  unfold from_networkx. apply map_ext. now intros [[u v] w].
Qed.

Lemma mirror_forward (l : nat * nat * R) :
  mirror (forward_edge l) = reverse_edge l.
Proof. reflexivity. Qed.

Lemma built_edata (lines : list (nat * nat * R)) :
  NoDup (map endpoints lines) ->
  Permutation
    (add_reverse_edges
       (from_networkx (pad_nodes (max_node_id lines)
                                 (read_weighted_edgelist lines))))
    (map forward_edge lines ++ map reverse_edge lines).
Proof.
  intros Hnd. unfold add_reverse_edges.
  rewrite from_networkx_forward, map_map.
  apply Permutation_app; apply Permutation_map; now apply built_edges.
Qed.

(** C5.  A graph built from an edge list has [max node id + 1] nodes, one
    feature row per node, and every row is one-hot: node [v] has its 1 in
    column [v] when [v < F] and in the last column [F - 1] otherwise.  The
    edge list (0,1,2.0), (1,2,1.0) with F = 2 gives 3 nodes and the rows
    (1,0), (0,1), (0,1). *)
Theorem node_features_one_hot :
  (forall (F : nat) (lines : list (nat * nat * R)) (g : DGLGraph),
      build_graph_with F lines = inr g ->
      number_of_nodes g = S (max_node_id lines) /\
      length (ndata_h g) = number_of_nodes g /\
      forall v, v < number_of_nodes g ->
        length (nth v (ndata_h g) []) = F /\
        is_one_hot (nth v (ndata_h g) []) /\
        nth v (ndata_h g) [] = one_hot F (if v <? F then v else F - 1)) /\
  (exists g,
      build_graph_with 2 [(0, 1, 2%R); (1, 2, 1%R)] = inr g /\
      number_of_nodes g = 3 /\
      ndata_h g = [[1; 0]; [0; 1]; [0; 1]]%R).
Proof.
  split.
  - intros F lines g Hb.
    destruct (build_graph_with_inv _ _ Hb) as [Hne HF].
    rewrite (build_graph_with_ok Hne HF) in Hb.
    remember (seq 0 (S (max_node_id lines))) as ids eqn:Hids.
    injection Hb as <-. cbn [number_of_nodes ndata_h]. subst ids.
    split; [reflexivity|]. split; [now rewrite length_map, length_seq|].
    intros v Hv.
    rewrite (nth_map_lt _ _ 0) by now rewrite length_seq.
    rewrite seq_nth by assumption. rewrite Nat.add_0_l.
    replace (Nat.min v (F - 1)) with (if v <? F then v else F - 1)
      by (destruct (Nat.ltb_spec v F); lia).
    split; [apply length_one_hot|]. split; [|reflexivity].
    apply one_hot_is_one_hot. destruct (Nat.ltb_spec v F); lia.
  - eexists. split; [reflexivity|]. split; reflexivity.
Qed.

Lemma node_features_one_hot_witness :
  exists g,
    build_graph_with 2 [(0, 1, 2%R); (1, 2, 1%R)] = inr g /\
    number_of_nodes g = 3 /\ length (ndata_h g) = 3.
Proof.
  eexists. split; [reflexivity|].
  destruct (proj1 node_features_one_hot 2 [(0, 1, 2%R); (1, 2, 1%R)] _ eq_refl)
    as [Hn [Hl _]].
  split; [exact Hn | rewrite Hl; exact Hn].
Defined.

Lemma is_mirrored_forward (l : nat * nat * R) :
  is_mirrored (forward_edge l) = false.
Proof.
  unfold is_mirrored. simpl. destruct (Req_EM_T 0 1) as [H|H]; [lra | reflexivity].
Qed.

Lemma is_mirrored_reverse (l : nat * nat * R) :
  is_mirrored (reverse_edge l) = true.
Proof.
  unfold is_mirrored. simpl. destruct (Req_EM_T 1 1) as [H|H]; [reflexivity | lra].
Qed.

Lemma extract_forward_reverse (ls : list (nat * nat * R)) :
  map (fun e => (e_src e, e_dst e, e_weight e))
      (filter (fun e => negb (is_mirrored e))
              (add_reverse_edges (map forward_edge ls)))
  = ls.
Proof.
  unfold add_reverse_edges. rewrite filter_app, map_app, map_map.
  assert (Hf : forall l : list (nat * nat * R),
             filter (fun e => negb (is_mirrored e)) (map forward_edge l)
             = map forward_edge l).
  { induction l as [|x l IH]; simpl; [reflexivity|].
    rewrite is_mirrored_forward. simpl. now rewrite IH. }
  assert (Hr : forall l : list (nat * nat * R),
             filter (fun e => negb (is_mirrored e))
                    (map (fun x => mirror (forward_edge x)) l) = []).
  { induction l as [|x l IH]; simpl; [reflexivity|].
    rewrite mirror_forward, is_mirrored_reverse. simpl. apply IH. }
  rewrite Hf, Hr, app_nil_r, map_map.
  rewrite <- (map_id ls) at 2. apply map_ext. now intros [[u v] w].
Qed.




(** With no node pair named twice, the edges that are not mirrored are the
    lines of the edge list, each once. *)
Lemma extract_edges_permutation (F : nat) (lines : list (nat * nat * R))
    (g : DGLGraph) :
  NoDup (map endpoints lines) ->
  build_graph_with F lines = inr g ->
  Permutation (extract_edges g) lines.
Proof.
  intros Hnd Hb. destruct (build_graph_with_inv _ _ Hb) as [Hne HF].
  rewrite (build_graph_with_ok Hne HF) in Hb. injection Hb as <-.
  unfold extract_edges. cbn [edata].
  rewrite from_networkx_forward, extract_forward_reverse.
  now apply built_edges.
Qed.


(** ** Vector arithmetic *)

Lemma length_zeros (d : nat) : length (zeros d) = d.
Proof. apply repeat_length. Qed.

Lemma length_vadd (a b : vec) :
  length (vadd a b) = Nat.min (length a) (length b).
Proof. unfold vadd. now rewrite length_map, length_combine. Qed.

Lemma length_scale (c : R) (a : vec) : length (scale c a) = length a.
Proof. apply length_map. Qed.

Lemma vadd_zeros_l (b : vec) : vadd (zeros (length b)) b = b.
Proof.
  induction b as [|x b IH]; [reflexivity|].
  unfold vadd, zeros in *. simpl. rewrite IH. f_equal. lra.
Qed.

Lemma scale_one (a : vec) : scale 1 a = a.
Proof.
  unfold scale. rewrite <- (map_id a) at 2. apply map_ext. intros; lra.
Qed.

Lemma scale_zero (a : vec) : scale 0 a = zeros (length a).
Proof.
  induction a as [|x a IH]; [reflexivity|].
  unfold scale, zeros in *. simpl. rewrite IH. f_equal. lra.
Qed.

Lemma rectangular_nth (d : nat) (t : tensor) (i : nat) :
  rectangular d t -> i < length t -> length (nth i t []) = d.
Proof.
  intros Hr Hi. unfold rectangular in Hr. rewrite Forall_forall in Hr.
  apply Hr, nth_In, Hi.
Qed.

Lemma rectangular_width (d : nat) (t : tensor) :
  rectangular d t -> t <> [] -> width t = d.
Proof.
  intros Hr Hne. destruct t as [|r t]; [congruence|].
  now inversion Hr.
Qed.

Lemma length_sum_rows (d : nat) (t : tensor) :
  rectangular d t -> length (fold_right vadd (zeros d) t) = d.
Proof.
  induction 1 as [|r t Hr _ IH]; simpl; [apply length_zeros|].
  rewrite length_vadd, IH, Hr. lia.
Qed.

Lemma torch_sum_rectangular (d : nat) (t : tensor) :
  rectangular d t -> t <> [] -> torch_sum t = fold_right vadd (zeros d) t.
Proof.
  intros Hr Hne. unfold torch_sum. now rewrite (rectangular_width Hr Hne).
Qed.

(** The flip of the direction flags, [(direction + 1) % 2]. *)
Lemma flip_zero : torch_remainder (0 + 1) 2 = 1%R.
Proof.
  unfold torch_remainder.
  rewrite <- (Int_part_spec ((0 + 1) / 2) 0) by (simpl; lra). simpl. lra.
Qed.

Lemma flip_one : torch_remainder (1 + 1) 2 = 0%R.
Proof.
  unfold torch_remainder.
  rewrite <- (Int_part_spec ((1 + 1) / 2) 1) by (simpl; lra). simpl. lra.
Qed.

(** ** Mailboxes *)

Lemma mailbox_map {M} (g : DGLGraph) (f : Edge -> M) (v : nat) :
  mailbox (edata g) (map f (edata g)) v = map f (in_edges g v).
Proof.
  unfold mailbox, in_edges. induction (edata g) as [|e es IH]; simpl; [reflexivity|].
  destruct (e_dst e =? v); simpl; now rewrite IH.
Qed.

Lemma length_update_all {M O} (g : DGLGraph) (msgs : list M)
    (r : nat -> list M -> O) (i : O) (out : list O) :
  update_all g msgs r i = Some out -> length out = number_of_nodes g.
Proof.
  unfold update_all. destruct (edata g); [discriminate|].
  intros H. injection H as <-. now rewrite length_map, length_seq.
Qed.

Lemma combine_fst_snd {A B} (l : list (A * B)) :
  combine (map fst l) (map snd l) = l.
Proof.
  induction l as [|[a b] l IH]; simpl; [reflexivity | now rewrite IH].
Qed.

Lemma combine_map_seq {A B} (f : nat -> B) (d : A) (l : list A) : forall s,
  combine l (map f (seq s (length l)))
  = map (fun v => (nth (v - s) l d, f v)) (seq s (length l)).
Proof.
  induction l as [|a l IH]; intros s; simpl; [reflexivity|].
  rewrite Nat.sub_diag. f_equal. rewrite IH. apply map_ext_in.
  intros v Hv. apply in_seq in Hv.
  now replace (v - s) with (S (v - S s)) by lia.
Qed.

Lemma has_flag_true (f : R) (e : Edge) :
  e_direction e = f -> has_flag f e = true.
Proof.
  intros H. unfold has_flag. now destruct (Req_EM_T (e_direction e) f).
Qed.

Lemma has_flag_false (f : R) (e : Edge) :
  e_direction e <> f -> has_flag f e = false.
Proof.
  intros H. unfold has_flag. now destruct (Req_EM_T (e_direction e) f).
Qed.

(** ** BiDirectionalGCN *)

Section BiGCN.

Variable h : tensor.
Variable d : nat.

Let msg (e : Edge) : vec := scale (e_weight e) (nth (e_src e) h []).

(** Scaling each message by a 0/1 selector and summing is summing the
    selected messages. *)
Lemma sum_selected (sel : Edge -> R) (b : Edge -> bool) (es : list Edge) :
  Forall (fun e => length (msg e) = d) es ->
  Forall (fun e => (sel e = 1%R /\ b e = true) \/
                   (sel e = 0%R /\ b e = false)) es ->
  fold_right vadd (zeros d) (map (fun e => scale (sel e) (msg e)) es)
  = sum_messages d h (filter b es).
Proof.
  unfold sum_messages. fold msg.
  induction es as [|e es IH]; intros Hlen Hsel; [reflexivity|].
  apply Forall_cons_iff in Hlen as [Hl Hlen'].
  apply Forall_cons_iff in Hsel as [Hs Hsel'].
  simpl. rewrite (IH Hlen' Hsel').
  destruct Hs as [[-> ->]|[-> ->]]; simpl.
  - now rewrite scale_one.
  - rewrite scale_zero, Hl.
    rewrite <- (length_sum_rows (d := d)
                  (t := map msg (filter b es))) at 1.
    + apply vadd_zeros_l.
    + apply Forall_map. rewrite Forall_forall in *. intros x Hx.
      apply filter_In in Hx. now apply Hlen'.
Qed.

Lemma length_sum_messages (es : list Edge) :
  Forall (fun e => length (msg e) = d) es ->
  length (sum_messages d h es) = d.
Proof.
  intros H. apply length_sum_rows. now apply Forall_map.
Qed.

(** The two sums of [reduce_func] on the messages of the edges [es]. *)
Lemma reduce_func_sums (es : list Edge) :
  es <> [] ->
  Forall (fun e => length (msg e) = d) es ->
  Forall (fun e => e_direction e = 0%R \/ e_direction e = 1%R) es ->
  BiDirectionalGCN.reduce_func (map (BiDirectionalGCN.message_func h) es)
  = (sum_messages d h (filter (has_flag 1) es),
     sum_messages d h (filter (has_flag 0) es)).
Proof.
  intros Hne Hlen Hflag. unfold BiDirectionalGCN.reduce_func.
  rewrite combine_fst_snd.
  assert (E1 : map (fun p : vec * R => scale (snd p) (fst p))
                   (map (BiDirectionalGCN.message_func h) es)
               = map (fun e => scale (e_direction e) (msg e)) es).
  { now rewrite map_map. }
  assert (E2 : map (fun p : vec * R => scale (snd p) (fst p))
                 (combine (map fst (map (BiDirectionalGCN.message_func h) es))
                    (map (fun x => torch_remainder (x + 1) 2)
                       (map snd (map (BiDirectionalGCN.message_func h) es))))
               = map (fun e => scale (torch_remainder (e_direction e + 1) 2)
                                     (msg e)) es).
  { clear. induction es as [|e es IH]; simpl; [reflexivity | now rewrite IH]. }
  rewrite E1, E2.
  assert (Hrect : forall sel : Edge -> R,
             rectangular d (map (fun e => scale (sel e) (msg e)) es)).
  { intros sel. apply Forall_map. rewrite Forall_forall in *.
    intros e He. rewrite length_scale. now apply Hlen. }
  assert (Hne' : forall sel : Edge -> R,
             map (fun e => scale (sel e) (msg e)) es <> []).
  { intros sel E. apply map_eq_nil in E. contradiction. }
  rewrite !(torch_sum_rectangular (Hrect _) (Hne' _)).
  f_equal; apply sum_selected; try assumption;
    rewrite Forall_forall in *; intros e He;
    destruct (Hflag e He) as [E|E]; rewrite E.
  - right. split; [reflexivity|]. apply has_flag_false. rewrite E. lra.
  - left. split; [reflexivity|]. now apply has_flag_true.
  - left. split; [apply flip_zero|]. now apply has_flag_true.
  - right. split; [apply flip_one|]. apply has_flag_false. rewrite E. lra.
Qed.

End BiGCN.

Lemma wf_graph_in_edges (g : DGLGraph) (v : nat) (e : Edge) :
  wf_graph g -> In e (in_edges g v) ->
  e_src e < number_of_nodes g /\ e_dst e = v.
Proof.
  unfold wf_graph, in_edges. rewrite Forall_forall. intros Hwf He.
  apply filter_In in He. destruct He as [He Hv].
  apply Nat.eqb_eq in Hv. split; [now apply Hwf | assumption].
Qed.

Lemma wf_graph_nonempty (g : DGLGraph) :
  wf_graph g -> edata g <> [] -> 0 < number_of_nodes g.
Proof.
  unfold wf_graph. destruct (edata g) as [|e es]; [congruence|].
  intros H _. apply Forall_cons_iff in H. lia.
Qed.

Lemma linear_rectangular (L : Linear) (X : tensor) :
  rectangular (in_features L) X -> linear L X = inr (map (linear_row L) X).
Proof.
  intros Hr.
  assert (E : rows_ok L X = true); [|unfold linear; now rewrite E].
  apply forallb_forall. intros x Hx. apply Nat.eqb_eq.
  unfold rectangular in Hr. rewrite Forall_forall in Hr. now apply Hr.
Qed.

Lemma BiGCN_update_all (g : DGLGraph) (h : tensor) (d : nat) :
  edata g <> [] -> wf_graph g -> flagged g ->
  length h = number_of_nodes g -> rectangular d h ->
  update_all g (map (BiDirectionalGCN.message_func h) (edata g))
             (fun _ => BiDirectionalGCN.reduce_func)
             (zeros (width h), zeros (width h))
  = Some (map (fun v => (neighbour_sum d h g v 1, neighbour_sum d h g v 0))
              (seq 0 (number_of_nodes g))).
Proof.
  intros Hne Hwf Hfl Hlen Hrect. unfold update_all.
  assert (Hpos := wf_graph_nonempty Hwf Hne).
  destruct (edata g) as [|e0 es0] eqn:E; [congruence|]. rewrite <- E.
  f_equal. apply map_ext. intros v. unfold node_out. rewrite mailbox_map.
  unfold neighbour_sum.
  destruct (in_edges g v) as [|e es] eqn:Ein.
  - simpl. unfold sum_messages. simpl.
    rewrite (rectangular_width Hrect); [reflexivity|].
    intros ->. simpl in Hlen. lia.
  - change (BiDirectionalGCN.reduce_func
              (map (BiDirectionalGCN.message_func h) (e :: es))
            = (sum_messages d h (filter (has_flag 1) (e :: es)),
               sum_messages d h (filter (has_flag 0) (e :: es)))).
    apply reduce_func_sums; [discriminate | |].
    + rewrite Forall_forall. intros x Hx. rewrite <- Ein in Hx.
      rewrite length_scale. apply (rectangular_nth Hrect).
      rewrite Hlen. now apply (wf_graph_in_edges _ _ Hwf Hx).
    + rewrite Forall_forall. intros x Hx. rewrite <- Ein in Hx.
      unfold flagged, in_edges in *. rewrite Forall_forall in Hfl.
      apply filter_In in Hx. now apply Hfl.
Qed.

Lemma length_neighbour_sum (g : DGLGraph) (h : tensor) (d v : nat) (f : R) :
  wf_graph g -> length h = number_of_nodes g -> rectangular d h ->
  length (neighbour_sum d h g v f) = d.
Proof.
  intros Hwf Hlen Hrect. unfold neighbour_sum. apply length_sum_messages.
  rewrite Forall_forall. intros x Hx. apply filter_In in Hx.
  rewrite length_scale. apply (rectangular_nth Hrect). rewrite Hlen.
  now apply (wf_graph_in_edges _ _ Hwf (proj1 Hx)).
Qed.

Lemma BiGCN_forward_nodes (layer : BiDirectionalGCN.t) (g : DGLGraph)
    (h : tensor) (d : nat) :
  edata g <> [] -> wf_graph g -> flagged g ->
  length h = number_of_nodes g -> rectangular d h ->
  in_features (BiDirectionalGCN.fc layer) = 3 * d ->
  BiDirectionalGCN.forward layer g h
  = inr (map (BiGCN_node layer d h g) (seq 0 (number_of_nodes g))).
Proof.
  intros Hne Hwf Hfl Hlen Hrect Hin. unfold BiDirectionalGCN.forward, set_ndata.
  rewrite Hlen, Nat.eqb_refl. cbn [bind ret].
  rewrite (BiGCN_update_all Hne Hwf Hfl Hlen Hrect).
  unfold BiDirectionalGCN.node_apply_func, BiDirectionalGCN.cat3. rewrite <- Hlen.
  rewrite (combine_map_seq _ ([] : list R) h 0), map_map. cbn [fst snd].
  rewrite linear_rectangular.
  - cbn [bind ret]. rewrite !map_map. unfold ret. f_equal.
    apply map_ext. intros v. unfold BiGCN_node. now rewrite Nat.sub_0_r.
  - apply Forall_map. rewrite Forall_forall. intros v Hv. apply in_seq in Hv.
    rewrite !length_app, !(length_neighbour_sum _ _ Hwf Hlen Hrect).
    rewrite (rectangular_nth Hrect) by (rewrite Nat.sub_0_r; exact (proj2 Hv)).
    rewrite Hin. lia.
Qed.

(** C1, amended.  On a graph with at least one edge, whose edges are
    flagged 0 or 1, the layer gives every node [v] the row
    [activation (Linear (concat (H[v], h0, h1)))] where [h0] is the sum of
    [H[u] * weight(u -> v)] over the incoming edges flagged 1 and [h1] the
    sum over the incoming edges flagged 0; a sum over no edge is the zero
    vector. *)
Theorem BiGCN_forward_spec (layer : BiDirectionalGCN.t) (g : DGLGraph)
    (h : tensor) (d : nat) :
  edata g <> [] -> wf_graph g -> flagged g ->
  length h = number_of_nodes g -> rectangular d h ->
  in_features (BiDirectionalGCN.fc layer) = 3 * d ->
  exists h',
    BiDirectionalGCN.forward layer g h = inr h' /\
    length h' = number_of_nodes g /\
    forall v, v < number_of_nodes g ->
      nth v h' []
      = map (BiDirectionalGCN.activation layer)
            (linear_row (BiDirectionalGCN.fc layer)
               (nth v h [] ++ neighbour_sum d h g v 1
                           ++ neighbour_sum d h g v 0)) /\
      (forall flag, filter (has_flag flag) (in_edges g v) = [] ->
                    neighbour_sum d h g v flag = zeros d).
Proof.
  intros Hne Hwf Hfl Hlen Hrect Hin. eexists.
  split; [apply (BiGCN_forward_nodes layer Hne Hwf Hfl Hlen Hrect Hin)|].
  split; [now rewrite length_map, length_seq|].
  intros v Hv. split.
  - rewrite (nth_map_lt _ _ 0) by now rewrite length_seq.
    now rewrite seq_nth.
  - intros flag E. unfold neighbour_sum. now rewrite E.
Qed.

Ltac vec_eq := repeat (apply f_equal2; [lra|]); reflexivity.

Lemma two_node_graph_ok :
  edata two_node_graph <> [] /\ wf_graph two_node_graph /\
  flagged two_node_graph /\
  length (ndata_h two_node_graph) = number_of_nodes two_node_graph /\
  rectangular 1 (ndata_h two_node_graph).
Proof.
  split; [discriminate|]. split; [repeat constructor|].
  split; [repeat (constructor; [simpl; auto|]); constructor|].
  split; [reflexivity | repeat constructor].
Qed.

Lemma BiGCN_forward_spec_witness :
  exists h',
    BiDirectionalGCN.forward identity_BiGCN two_node_graph [[3]; [5]]%R
    = inr h' /\
    length h' = 2.
Proof.
  destruct two_node_graph_ok as [H1 [H2 [H3 [H4 H5]]]].
  destruct (@BiGCN_forward_spec identity_BiGCN two_node_graph [[3]; [5]]%R 1
              H1 H2 H3 H4 H5 eq_refl) as [h' [Hf [Hl _]]].
  exists h'. split; [exact Hf | exact Hl].
Defined.

(** C1 as stated fails.  Node 1 of the two-node graph receives the forward
    edge 0 -> 1 (flag 0, weight 2, source feature 3) and nothing flagged 1.
    The layer returns (5, 0, 6): the sum over flag 0 is the third
    component, not the second. *)
Lemma BiGCN_forward_spec_counterexample :
  exists h',
    BiDirectionalGCN.forward identity_BiGCN two_node_graph [[3]; [5]]%R
    = inr h' /\
    nth 1 h' [] = [5; 0; 6]%R /\
    BiGCN_node_flag0_first identity_BiGCN 1 [[3]; [5]]%R two_node_graph 1
    = [5; 6; 0]%R /\
    nth 1 h' [] <> BiGCN_node_flag0_first identity_BiGCN 1 [[3]; [5]]%R
                     two_node_graph 1.
Proof.
  destruct two_node_graph_ok as [H1 [H2 [H3 [H4 H5]]]].
  eexists. split.
  { apply (@BiGCN_forward_nodes identity_BiGCN two_node_graph [[3]; [5]]%R 1
             H1 H2 H3 H4 H5 eq_refl). }
  change (nth 1 (map (BiGCN_node identity_BiGCN 1 [[3]; [5]]%R two_node_graph)
                     (seq 0 (number_of_nodes two_node_graph))) [])
    with (BiGCN_node identity_BiGCN 1 [[3]; [5]]%R two_node_graph 1).
  assert (E1 : neighbour_sum 1 [[3]; [5]]%R two_node_graph 1 1 = [0%R]).
  { unfold neighbour_sum.
    change (in_edges two_node_graph 1) with [mkEdge 0 1 2 0].
    simpl filter. rewrite has_flag_false by (simpl; lra). reflexivity. }
  assert (E0 : neighbour_sum 1 [[3]; [5]]%R two_node_graph 1 0 = [6%R]).
  { unfold neighbour_sum.
    change (in_edges two_node_graph 1) with [mkEdge 0 1 2 0].
    simpl filter. rewrite has_flag_true by reflexivity.
    unfold sum_messages, vadd, scale, zeros. simpl. vec_eq. }
  assert (A : BiGCN_node identity_BiGCN 1 [[3]; [5]]%R two_node_graph 1
              = [5; 0; 6]%R).
  { unfold BiGCN_node. rewrite E1, E0.
    unfold linear_row, dot, total, vadd. simpl. vec_eq. }
  assert (B : BiGCN_node_flag0_first identity_BiGCN 1 [[3]; [5]]%R
                two_node_graph 1 = [5; 6; 0]%R).
  { unfold BiGCN_node_flag0_first. rewrite E1, E0.
    unfold linear_row, dot, total, vadd. simpl. vec_eq. }
  rewrite A, B. split; [reflexivity|]. split; [reflexivity|].
  intros H. injection H as H _. lra.
Qed.

(** ** GATWithSelfLoop *)






Lemma softmax_singleton (x : R) : softmax [x] = [1%R].
Proof.
  unfold softmax. simpl. f_equal. rewrite Rplus_0_r.
  apply Rdiv_diag. assert (H := exp_pos x). lra.
Qed.


Lemma mailbox_dst {M} (es1 es2 : list Edge) (msgs : list M) (v : nat) :
  map e_dst es1 = map e_dst es2 -> mailbox es1 msgs v = mailbox es2 msgs v.
Proof.
  unfold mailbox. revert es2 msgs.
  induction es1 as [|a es1 IH]; intros [|b es2] msgs Hd; try discriminate;
    [reflexivity|].
  injection Hd as Hab Hd. destruct msgs as [|m msgs]; [reflexivity|].
  simpl. rewrite Hab. destruct (e_dst b =? v); simpl; now rewrite (IH es2 msgs Hd).
Qed.

Lemma update_all_dst {M O} (g1 g2 : DGLGraph) (msgs : list M)
    (r : nat -> list M -> O) (i : O) :
  number_of_nodes g1 = number_of_nodes g2 ->
  map e_dst (edata g1) = map e_dst (edata g2) ->
  update_all g1 msgs r i = update_all g2 msgs r i.
Proof.
  destruct g1 as [n1 h1 es1], g2 as [n2 h2 es2]. cbn [number_of_nodes edata].
  intros -> Hd. unfold update_all. cbn [number_of_nodes edata].
  destruct es1 as [|a es1], es2 as [|b es2]; try discriminate; [reflexivity|].
  f_equal. apply map_ext. intros v. unfold node_out.
  now rewrite (@mailbox_dst M (a :: es1) (b :: es2) msgs v Hd).
Qed.

(** C10.  Two graphs with the same nodes and the same edge endpoints, in
    the same order, get the same output from the layer whatever their edge
    weights (and direction flags) are: the layer reads [e_src] and [e_dst]
    only. *)
Theorem GAT_ignores_weights (layer : GATWithSelfLoop.t) (g1 g2 : DGLGraph)
    (h : tensor) :
  number_of_nodes g1 = number_of_nodes g2 ->
  map edge_ends (edata g1) = map edge_ends (edata g2) ->
  GATWithSelfLoop.forward layer g1 h = GATWithSelfLoop.forward layer g2 h.
Proof.
  intros Hn He.
  assert (Hs : map e_src (edata g1) = map e_src (edata g2)).
  { apply (f_equal (map fst)) in He. now rewrite !map_map in He. }
  assert (Hd : map e_dst (edata g1) = map e_dst (edata g2)).
  { apply (f_equal (map snd)) in He. now rewrite !map_map in He. }
  assert (Hcat : forall z, GATWithSelfLoop.cat_src_dst z (edata g1)
                           = GATWithSelfLoop.cat_src_dst z (edata g2)).
  { intros z.
    assert (E : forall es, GATWithSelfLoop.cat_src_dst z es
                = map (fun p => nth (fst p) z [] ++ nth (snd p) z [])
                      (map edge_ends es)).
    { intros es. now rewrite map_map. }
    now rewrite !E, He. }
  assert (Hmsg : forall z e, GATWithSelfLoop.message_func z e (edata g1)
                             = GATWithSelfLoop.message_func z e (edata g2)).
  { intros z e.
    assert (E : forall es, GATWithSelfLoop.message_func z e es
                = combine (map (fun u => nth u z []) (map e_src es)) e).
    { intros es. now rewrite map_map. }
    now rewrite !E, Hs. }
  unfold GATWithSelfLoop.forward, set_ndata. rewrite Hn.
  destruct (length h =? number_of_nodes g2); [|reflexivity]. cbn [bind ret].
  destruct (GATWithSelfLoop.node_apply_func layer h) as [|[[z z_self] e_self]];
    [reflexivity|].
  cbn [bind]. unfold GATWithSelfLoop.edge_attention. rewrite Hcat.
  destruct (linear (GATWithSelfLoop.attn_fc layer)
              (GATWithSelfLoop.cat_src_dst z (edata g2))) as [|a]; [reflexivity|].
  cbn [bind ret]. rewrite Hmsg.
  now rewrite (@update_all_dst _ _ g1 g2 _ _ _ Hn Hd).
Qed.

Lemma GAT_ignores_weights_witness :
  GATWithSelfLoop.forward unit_GAT isolated_node_graph [[1]; [1]; [1]]%R
  = GATWithSelfLoop.forward unit_GAT isolated_node_graph' [[1]; [1]; [1]]%R.
Proof.
  apply GAT_ignores_weights; reflexivity.
Defined.

Lemma mailbox_no_in_edge {M} (g : DGLGraph) (msgs : list M) (v : nat) :
  in_edges g v = [] -> mailbox (edata g) msgs v = [].
Proof.
  unfold in_edges, mailbox. revert msgs.
  induction (edata g) as [|e es IH]; intros msgs H; [reflexivity|].
  destruct msgs as [|m msgs]; [reflexivity|]. simpl in *.
  destruct (e_dst e =? v); [discriminate|]. now apply IH.
Qed.

Lemma update_all_no_in_edge {M O} (g : DGLGraph) (msgs : list M)
    (r : nat -> list M -> O) (i : O) (out : list O) (v : nat) (dflt : O) :
  v < number_of_nodes g -> in_edges g v = [] ->
  update_all g msgs r i = Some out -> nth v out dflt = i.
Proof.
  intros Hv Hin. unfold update_all.
  destruct (edata g) eqn:E; [discriminate|]. rewrite <- E.
  intros H. injection H as <-.
  rewrite (nth_map_lt _ _ 0) by now rewrite length_seq.
  rewrite seq_nth by assumption. simpl. unfold node_out.
  now rewrite mailbox_no_in_edge by assumption.
Qed.

(** A node without incoming edge, in a graph that has edges, leaves the
    layer with the zero vector: [reduce_func] is not run for it. *)
Lemma GAT_zero_in_degree (layer : GATWithSelfLoop.t) (g : DGLGraph)
    (h h' : tensor) (v : nat) :
  edata g <> [] -> v < number_of_nodes g -> in_edges g v = [] ->
  GATWithSelfLoop.forward layer g h = inr h' ->
  nth v h' [] = zeros (out_features (GATWithSelfLoop.self_fc layer)).
Proof.
  intros Hne Hv Hin. unfold GATWithSelfLoop.forward.
  destruct (set_ndata g h); [discriminate|]. cbn [bind].
  destruct (GATWithSelfLoop.node_apply_func layer h) as [|[[z z_self] e_self]];
    [discriminate|]. cbn [bind].
  destruct (GATWithSelfLoop.edge_attention layer z (edata g)) as [|e];
    [discriminate|]. cbn [bind].
  destruct (update_all g _ _ _) as [out|] eqn:E.
  - intros H. injection H as <-.
    eapply update_all_no_in_edge; eassumption.
  - unfold update_all in E. destruct (edata g); [congruence | discriminate].
Qed.

(** C2, at the failing input.  In [isolated_node_graph] node 1 has no
    incoming edge.  With all weights 1 and feature 1,
    [activation(z_self[1])] is (1), but the layer returns (0) at node 1. *)
Theorem GAT_isolated_node :
  in_edges isolated_node_graph 1 = [] /\
  map (GATWithSelfLoop.activation unit_GAT)
      (linear_row (GATWithSelfLoop.self_fc unit_GAT)
                  (nth 1 [[1]; [1]; [1]]%R []))
  = [1%R] /\
  exists h',
    GATWithSelfLoop.forward unit_GAT isolated_node_graph [[1]; [1]; [1]]%R
    = inr h' /\
    nth 1 h' [] = [0%R].
Proof.
  split; [reflexivity|]. split.
  - unfold linear_row, dot, total. simpl. f_equal.
    replace (1 * 1 + 0)%R with 1%R by lra. unfold relu. apply Rmax_right. lra.
  - eexists. split; [reflexivity|]. reflexivity.
Qed.

(** ** Readout *)

Unset Implicit Arguments.

Lemma vec_as_map (d : nat) (a : vec) :
  length a = d -> a = map (fun j => nth j a 0%R) (seq 0 d).
Proof.
  intros <-. induction a as [|x a IH]; [reflexivity|].
  simpl. f_equal. rewrite <- seq_shift, map_map. exact IH.
Qed.

Lemma combine_map_map {A B C} (f : A -> B) (g : A -> C) (l : list A) :
  combine (map f l) (map g l) = map (fun x => (f x, g x)) l.
Proof.
  induction l as [|x l IH]; simpl; [reflexivity | now rewrite IH].
Qed.

Lemma vadd_pointwise (d : nat) (a : vec) (f : nat -> R) :
  length a = d ->
  vadd a (map f (seq 0 d)) = map (fun j => (nth j a 0 + f j)%R) (seq 0 d).
Proof.
  intros Ha. rewrite (vec_as_map d a Ha) at 1. unfold vadd.
  now rewrite combine_map_map, map_map.
Qed.

Lemma vmax_pointwise (d : nat) (a : vec) (f : nat -> R) :
  length a = d ->
  vmax (map f (seq 0 d)) a = map (fun j => Rmax (f j) (nth j a 0%R)) (seq 0 d).
Proof.
  intros Ha. rewrite (vec_as_map d a Ha) at 1. unfold vmax.
  now rewrite combine_map_map, map_map.
Qed.

(** The row-by-row sum is the column-by-column total. *)
Lemma sum_rows_columns (d : nat) (t : tensor) :
  rectangular d t ->
  fold_right vadd (zeros d) t = map (fun j => total (column j t)) (seq 0 d).
Proof.
  induction 1 as [|r t Hr _ IH]; simpl.
  - assert (E : forall l : list nat,
               map (fun _ => 0%R) l = repeat 0%R (length l)).
    { induction l as [|j l IH]; simpl; [reflexivity | now rewrite IH]. }
    rewrite E, length_seq. reflexivity.
  - rewrite IH. now apply vadd_pointwise.
Qed.

Lemma torch_mean_elementwise (d : nat) (t : tensor) :
  rectangular d t -> t <> [] -> torch_mean t = elementwise_mean d t.
Proof.
  intros Hr Hne. unfold torch_mean, elementwise_mean.
  rewrite (torch_sum_rectangular Hr Hne), (sum_rows_columns d t Hr).
  now rewrite map_map.
Qed.

(** The row-by-row maximum is the column-by-column maximum. *)
Lemma max_rows_columns (d : nat) (rs : tensor) : forall f : nat -> R,
  rectangular d rs ->
  fold_left vmax rs (map f (seq 0 d))
  = map (fun j => fold_left Rmax (column j rs) (f j)) (seq 0 d).
Proof.
  induction rs as [|x rs IH]; intros f Hr; simpl; [reflexivity|].
  apply Forall_cons_iff in Hr as [Hx Hr].
  rewrite (vmax_pointwise d x f Hx). now rewrite IH.
Qed.

Lemma torch_max_elementwise (d : nat) (t : tensor) :
  rectangular d t -> t <> [] -> torch_max t = inr (elementwise_max d t).
Proof.
  intros Hr Hne. destruct t as [|r rs]; [congruence|].
  apply Forall_cons_iff in Hr as [Hlen Hr].
  unfold torch_max, elementwise_max, ret. f_equal.
  rewrite (vec_as_map d r Hlen) at 1. now rewrite (max_rows_columns d rs _ Hr).
Qed.

Lemma torch_max_empty : torch_max [] = inl RuntimeError.
Proof. reflexivity. Qed.

Lemma length_concat_rectangular (d : nat) (t : tensor) :
  rectangular d t -> length (concat t) = length t * d.
Proof.
  induction 1 as [|r t Hr _ IH]; simpl; [reflexivity|].
  now rewrite length_app, IH, Hr.
Qed.

Lemma rectangular_firstn_skipn (d n : nat) (t : tensor) :
  rectangular d t -> rectangular d (firstn n t) /\ rectangular d (skipn n t).
Proof.
  unfold rectangular. intros H. rewrite <- (firstn_skipn n t) in H.
  now apply Forall_app in H.
Qed.

Lemma rectangular_app (d : nat) (t1 t2 : tensor) :
  rectangular d t1 -> rectangular d t2 -> rectangular d (t1 ++ t2).
Proof. intros H1 H2. apply Forall_app. now split. Qed.

(** The maximum of a column bounds its entries and is one of them. *)
Lemma fold_left_Rmax_ge (l : vec) : forall a x,
  x = a \/ In x l -> (x <= fold_left Rmax l a)%R.
Proof.
  induction l as [|y l IH]; simpl; intros a x H.
  - destruct H as [->|[]]. lra.
  - destruct H as [->|[->|H]].
    + eapply Rle_trans; [apply (Rmax_l a y)|]. apply IH. now left.
    + eapply Rle_trans; [apply (Rmax_r a x)|]. apply IH. now left.
    + apply IH. now right.
Qed.

Lemma fold_left_Rmax_mem (l : vec) : forall a,
  fold_left Rmax l a = a \/ In (fold_left Rmax l a) l.
Proof.
  induction l as [|y l IH]; simpl; intros a; [now left|].
  destruct (IH (Rmax a y)) as [H|H]; [|now right; right].
  rewrite H. unfold Rmax. destruct (Rle_dec a y); [right; now left | now left].
Qed.

Lemma maximum_spec (l : vec) :
  l <> [] ->
  In (maximum l) l /\ forall x, In x l -> (x <= maximum l)%R.
Proof.
  destruct l as [|a l]; [congruence|]. intros _. simpl. split.
  - destruct (fold_left_Rmax_mem l a) as [H|H]; [left; now rewrite H | now right].
  - intros x [<-|H]; apply fold_left_Rmax_ge; [now left | now right].
Qed.

(** C6.  For node embeddings of width [d] with at least 8 rows, the
    readout succeeds and is the first 7 rows in index order, then the
    column means of the remaining rows, then their column maxima: a flat
    vector of [9 * d] entries whatever the number of rows. *)
Theorem readout_fixed_width (h : tensor) (d : nat) :
  rectangular d h -> 8 <= length h ->
  exists r,
    Classifier.readout h = inr r /\
    r = concat (firstn 7 h) ++ elementwise_mean d (skipn 7 h)
                            ++ elementwise_max d (skipn 7 h) /\
    length r = 9 * d.
Proof.
  intros Hr Hlen.
  destruct (rectangular_firstn_skipn d 7 h Hr) as [Hf Hs].
  assert (Hne : skipn 7 h <> []).
  { intros E. apply (f_equal (@length vec)) in E.
    rewrite length_skipn in E. simpl in E. lia. }
  unfold Classifier.readout.
  rewrite (torch_max_elementwise d _ Hs Hne). cbn [bind ret].
  rewrite (torch_mean_elementwise d _ Hs Hne).
  assert (Ec : forall (t : tensor) (m x : vec),
             concat (t ++ [m] ++ [x]) = concat t ++ m ++ x).
  { intros t m x. rewrite concat_app. simpl. now rewrite app_nil_r. }
  rewrite Ec. eexists. split; [reflexivity|]. split; [reflexivity|].
  rewrite !length_app, (length_concat_rectangular d _ Hf), length_firstn.
  unfold elementwise_mean, elementwise_max.
  rewrite !length_map, !length_seq. lia.
Qed.

Lemma readout_fixed_width_witness :
  exists r,
    Classifier.readout (repeat [1%R] 9) = inr r /\ length r = 9 * 1.
Proof.
  destruct (readout_fixed_width (repeat [1%R] 9) 1) as [r [Hr [_ Hl]]].
  - repeat constructor.
  - simpl. lia.
  - exists r. split; [exact Hr | exact Hl].
Defined.

(** The entries of the pooled maximum: column [j] of the remaining rows
    has [elementwise_max] as its largest entry. *)
Lemma elementwise_max_spec (d j : nat) (t : tensor) :
  t <> [] -> j < d ->
  In (nth j (elementwise_max d t) 0%R) (column j t) /\
  forall x, In x (column j t) -> (x <= nth j (elementwise_max d t) 0)%R.
Proof.
  intros Hne Hj. unfold elementwise_max.
  rewrite (nth_map_lt _ _ 0) by now rewrite length_seq.
  rewrite seq_nth by assumption. simpl. apply maximum_spec.
  intros E. apply map_eq_nil in E. contradiction.
Qed.

Lemma readout_error (h : tensor) (e : exception) :
  Classifier.readout h = inl e -> e = RuntimeError.
Proof.
  unfold Classifier.readout, torch_max, bind, raise, ret.
  destruct (skipn 7 h); intros H; [injection H as <-; reflexivity | discriminate].
Qed.




(** The loading loop builds no graph with fewer than 8 nodes. *)
Lemma build_graph_too_few_nodes (lines : list (nat * nat * R)) :
  lines <> [] -> max_node_id lines < 7 ->
  build_graph lines = inl RuntimeError.
Proof.
  intros Hne Hmax. unfold build_graph.
  rewrite (build_graph_with_unfold 8 Hne). cbv zeta.
  rewrite make_node_feature_too_few by lia. reflexivity.
Qed.

(** ** Batching *)

Lemma shift_edge_0 (e : Edge) : shift_edge 0 e = e.
Proof. now destruct e. Qed.

Lemma map_shift_edge_0 (es : list Edge) : map (shift_edge 0) es = es.
Proof.
  rewrite <- (map_id es) at 2. apply map_ext. apply shift_edge_0.
Qed.

Lemma collate_one (g : DGLGraph) :
  bg_graph (collate [g]) = g.
Proof.
  destruct g as [n h es]. unfold collate, dgl_batch. simpl.
  now rewrite Nat.add_0_r, !app_nil_r, map_shift_edge_0.
Qed.

Lemma collate_two (g1 g2 : DGLGraph) :
  collate [g1; g2]
  = mkBatched (disjoint_union g1 g2)
              [number_of_nodes g1; number_of_nodes g2]
              [length (edata g1); length (edata g2)].
Proof.
  unfold collate, dgl_batch, disjoint_union. simpl.
  now rewrite Nat.add_0_r, !app_nil_r, map_shift_edge_0.
Qed.

Lemma combine_app_eq {A B} (a1 a2 : list A) (b1 b2 : list B) :
  length a1 = length b1 ->
  combine (a1 ++ a2) (b1 ++ b2) = combine a1 b1 ++ combine a2 b2.
Proof.
  revert b1. induction a1 as [|x a1 IH]; intros [|y b1] H; try discriminate;
    [reflexivity|].
  simpl. f_equal. apply IH. now injection H.
Qed.

Lemma seq_add (n : nat) : forall s k,
  seq (k + s) n = map (Nat.add k) (seq s n).
Proof.
  induction n as [|n IH]; intros s k; simpl; [reflexivity|].
  f_equal. rewrite <- IH. f_equal. lia.
Qed.

Section Mailboxes.

Variable M : Type.

Lemma mailbox_app (es1 es2 : list Edge) (m1 m2 : list M) (v : nat) :
  length es1 = length m1 ->
  mailbox (es1 ++ es2) (m1 ++ m2) v = mailbox es1 m1 v ++ mailbox es2 m2 v.
Proof.
  intros H. unfold mailbox.
  now rewrite (combine_app_eq _ _ _ _ H), filter_app, map_app.
Qed.

Lemma mailbox_above (n : nat) (es : list Edge) (m : list M) (v : nat) :
  Forall (fun e => e_dst e < n) es -> n <= v -> mailbox es m v = [].
Proof.
  intros Hes Hv. unfold mailbox. revert m.
  induction Hes as [|e es He _ IH]; intros m; [reflexivity|].
  destruct m as [|x m]; [reflexivity|]. simpl.
  destruct (Nat.eqb_spec (e_dst e) v); [lia | apply IH].
Qed.

Lemma mailbox_shift_below (k : nat) (es : list Edge) (m : list M) (v : nat) :
  v < k -> mailbox (map (shift_edge k) es) m v = [].
Proof.
  intros Hv. unfold mailbox. revert m.
  induction es as [|e es IH]; intros m; [reflexivity|].
  destruct m as [|x m]; [reflexivity|]. simpl.
  destruct (Nat.eqb_spec (k + e_dst e) v); [lia | apply IH].
Qed.

Lemma mailbox_shift (k : nat) (es : list Edge) (m : list M) (v : nat) :
  mailbox (map (shift_edge k) es) m (k + v) = mailbox es m v.
Proof.
  unfold mailbox. revert m.
  induction es as [|e es IH]; intros m; [reflexivity|].
  destruct m as [|x m]; [reflexivity|]. simpl.
  destruct (Nat.eqb_spec (k + e_dst e) (k + v)) as [E|E];
    destruct (Nat.eqb_spec (e_dst e) v) as [E'|E']; try lia;
    simpl; now rewrite IH.
Qed.

Variable O : Type.

(** The new node features of a disjoint union are those of the parts. *)
Lemma node_out_union (g1 g2 : DGLGraph) (m1 m2 : list M)
    (r r1 r2 : nat -> list M -> O) (i : O) :
  wf_graph g1 ->
  length (edata g1) = length m1 ->
  (forall v ms, v < number_of_nodes g1 -> r v ms = r1 v ms) ->
  (forall v ms, v < number_of_nodes g2 ->
                r (number_of_nodes g1 + v) ms = r2 v ms) ->
  map (node_out (edata (disjoint_union g1 g2)) (m1 ++ m2) r i)
      (seq 0 (number_of_nodes (disjoint_union g1 g2)))
  = map (node_out (edata g1) m1 r1 i) (seq 0 (number_of_nodes g1))
    ++ map (node_out (edata g2) m2 r2 i) (seq 0 (number_of_nodes g2)).
Proof.
  intros Hwf Hlen Hr1 Hr2. unfold disjoint_union. cbn [edata number_of_nodes].
  rewrite seq_app, map_app. f_equal.
  - apply map_ext_in. intros v Hv. apply in_seq in Hv. unfold node_out.
    rewrite (mailbox_app _ _ _ _ v Hlen).
    rewrite mailbox_shift_below by lia. rewrite app_nil_r.
    destruct (mailbox (edata g1) m1 v); [reflexivity | apply Hr1; lia].
  - replace (0 + number_of_nodes g1) with (number_of_nodes g1 + 0) by lia.
    rewrite seq_add, map_map.
    apply map_ext_in. intros v Hv. apply in_seq in Hv. unfold node_out.
    rewrite (mailbox_app _ _ _ _ _ Hlen).
    rewrite (mailbox_above (number_of_nodes g1)); [|  | lia].
    + simpl. rewrite mailbox_shift.
      destruct (mailbox (edata g2) m2 v); [reflexivity | apply Hr2; lia].
    + unfold wf_graph in Hwf. rewrite Forall_forall in *.
      intros e He. now apply Hwf.
Qed.

End Mailboxes.

(** ** Linear maps on stacked rows *)

Lemma rows_ok_app (L : Linear) (X1 X2 : tensor) :
  rows_ok L (X1 ++ X2) = rows_ok L X1 && rows_ok L X2.
Proof. apply forallb_app. Qed.

Lemma linear_app (L : Linear) (X1 X2 : tensor) :
  linear L (X1 ++ X2)
  = (y1 <- linear L X1 ;; y2 <- linear L X2 ;; ret (y1 ++ y2)).
Proof.
  unfold linear. rewrite rows_ok_app, map_app.
  destruct (rows_ok L X1), (rows_ok L X2); reflexivity.
Qed.

Lemma linear_error (L : Linear) (X : tensor) (e : exception) :
  linear L X = inl e -> e = RuntimeError.
Proof.
  unfold linear. destruct (rows_ok L X); [discriminate|].
  intros H. now injection H as <-.
Qed.

Lemma linear_length (L : Linear) (X Y : tensor) :
  linear L X = inr Y -> length Y = length X.
Proof.
  unfold linear. destruct (rows_ok L X); [|discriminate].
  intros H. injection H as <-. apply length_map.
Qed.

Lemma linear_value (L : Linear) (X Y : tensor) :
  linear L X = inr Y -> Y = map (linear_row L) X.
Proof.
  unfold linear. destruct (rows_ok L X); [|discriminate].
  intros H. now injection H as <-.
Qed.

(** ** The layers on a disjoint union *)

Lemma update_all_edges {M O} (g : DGLGraph) (msgs : list M)
    (r : nat -> list M -> O) (i : O) :
  edata g <> [] ->
  update_all g msgs r i
  = Some (map (node_out (edata g) msgs r i) (seq 0 (number_of_nodes g))).
Proof.
  unfold update_all. destruct (edata g); [congruence | reflexivity].
Qed.

Lemma disjoint_union_edges (g1 g2 : DGLGraph) :
  edata g1 <> [] -> edata (disjoint_union g1 g2) <> [].
Proof.
  unfold disjoint_union. cbn [edata]. destruct (edata g1); [congruence|].
  discriminate.
Qed.

Lemma BiGCN_forward_rows (layer : BiDirectionalGCN.t) (g : DGLGraph)
    (h : tensor) :
  length h = number_of_nodes g -> edata g <> [] ->
  BiDirectionalGCN.forward layer g h
  = (y <- linear (BiDirectionalGCN.fc layer) (BiGCN_rows g h) ;;
     ret (map (map (BiDirectionalGCN.activation layer)) y)).
Proof.
  intros Hlen Hne.
  unfold BiDirectionalGCN.forward, BiDirectionalGCN.node_apply_func, set_ndata.
  rewrite Hlen, Nat.eqb_refl. cbn [bind ret].
  now rewrite (update_all_edges _ _ _ _ Hne).
Qed.

Lemma width_app (h1 h2 : tensor) : h1 <> [] -> width (h1 ++ h2) = width h1.
Proof. destruct h1; [congruence | reflexivity]. Qed.

Lemma BiGCN_messages_union (g1 g2 : DGLGraph) (ha hb : tensor) :
  wf_graph g1 -> length ha = number_of_nodes g1 ->
  map (BiDirectionalGCN.message_func (ha ++ hb))
      (edata (disjoint_union g1 g2))
  = map (BiDirectionalGCN.message_func ha) (edata g1)
    ++ map (BiDirectionalGCN.message_func hb) (edata g2).
Proof.
  intros Hwf Hlen. unfold disjoint_union. cbn [edata].
  rewrite map_app, map_map. f_equal.
  - apply map_ext_in. intros e He. unfold BiDirectionalGCN.message_func.
    unfold wf_graph in Hwf. rewrite Forall_forall in Hwf.
    rewrite app_nth1; [reflexivity|]. rewrite Hlen. now apply Hwf.
  - apply map_ext. intros e. unfold BiDirectionalGCN.message_func.
    cbn [shift_edge e_src e_weight e_direction].
    rewrite <- Hlen. now rewrite app_nth2_plus.
Qed.

Lemma BiGCN_rows_union (g1 g2 : DGLGraph) (ha hb : tensor) :
  wf_graph g1 -> edata g1 <> [] ->
  length ha = number_of_nodes g1 -> length hb = number_of_nodes g2 ->
  width ha = width hb ->
  BiGCN_rows (disjoint_union g1 g2) (ha ++ hb)
  = BiGCN_rows g1 ha ++ BiGCN_rows g2 hb.
Proof.
  intros Hwf Hne Ha Hb Hw. unfold BiGCN_rows.
  rewrite (BiGCN_messages_union g1 g2 ha hb Hwf Ha).
  assert (Hha : ha <> []).
  { intros ->. simpl in Ha. assert (H := wf_graph_nonempty Hwf Hne). lia. }
  rewrite (width_app ha hb Hha).
  rewrite (node_out_union _ _ g1 g2 _ _ _
             (fun _ => BiDirectionalGCN.reduce_func)
             (fun _ => BiDirectionalGCN.reduce_func));
    [| assumption | now rewrite length_map | reflexivity | reflexivity].
  unfold BiDirectionalGCN.cat3.
  rewrite combine_app_eq by now rewrite length_map, length_seq.
  rewrite map_app. now rewrite <- Hw.
Qed.

Lemma BiGCN_forward_union (layer : BiDirectionalGCN.t) (g1 g2 : DGLGraph)
    (ha hb : tensor) :
  wf_graph g1 -> edata g1 <> [] -> edata g2 <> [] ->
  length ha = number_of_nodes g1 -> length hb = number_of_nodes g2 ->
  width ha = width hb ->
  BiDirectionalGCN.forward layer (disjoint_union g1 g2) (ha ++ hb)
  = (a <- BiDirectionalGCN.forward layer g1 ha ;;
     b <- BiDirectionalGCN.forward layer g2 hb ;;
     ret (a ++ b)).
Proof.
  intros Hwf Hne1 Hne2 Ha Hb Hw.
  rewrite (BiGCN_forward_rows layer (disjoint_union g1 g2) (ha ++ hb)).
  - rewrite (BiGCN_forward_rows layer g1 ha Ha Hne1).
    rewrite (BiGCN_forward_rows layer g2 hb Hb Hne2).
    rewrite (BiGCN_rows_union g1 g2 ha hb Hwf Hne1 Ha Hb Hw), linear_app.
    destruct (linear (BiDirectionalGCN.fc layer) (BiGCN_rows g1 ha));
      [reflexivity|].
    destruct (linear (BiDirectionalGCN.fc layer) (BiGCN_rows g2 hb));
      [reflexivity|].
    cbn [bind ret]. now rewrite map_app.
  - rewrite length_app, Ha, Hb. reflexivity.
  - now apply disjoint_union_edges.
Qed.

Lemma BiGCN_forward_error (layer : BiDirectionalGCN.t) (g : DGLGraph)
    (h : tensor) (e : exception) :
  length h = number_of_nodes g -> edata g <> [] ->
  BiDirectionalGCN.forward layer g h = inl e -> e = RuntimeError.
Proof.
  intros Hlen Hne. rewrite (BiGCN_forward_rows layer g h Hlen Hne).
  destruct (linear _ _) eqn:E; [|discriminate].
  cbn [bind]. intros H. injection H as <-. now apply linear_error in E.
Qed.

Lemma length_BiGCN_rows (g : DGLGraph) (h : tensor) :
  length h = number_of_nodes g ->
  length (BiGCN_rows g h) = number_of_nodes g.
Proof.
  intros Hlen. unfold BiGCN_rows, BiDirectionalGCN.cat3.
  rewrite length_map, length_combine, length_map, length_seq. lia.
Qed.

Lemma BiGCN_forward_length (layer : BiDirectionalGCN.t) (g : DGLGraph)
    (h h' : tensor) :
  length h = number_of_nodes g -> edata g <> [] ->
  BiDirectionalGCN.forward layer g h = inr h' ->
  length h' = number_of_nodes g.
Proof.
  intros Hlen Hne. rewrite (BiGCN_forward_rows layer g h Hlen Hne).
  destruct (linear _ _) eqn:E; [discriminate|].
  cbn [bind ret]. intros H. injection H as <-.
  rewrite length_map, <- (length_BiGCN_rows g h Hlen).
  apply (linear_length _ _ _ E).
Qed.

Lemma GAT_forward_cases (layer : GATWithSelfLoop.t) (g : DGLGraph)
    (h : tensor) :
  length h = number_of_nodes g -> edata g <> [] ->
  GATWithSelfLoop.forward layer g h
  = if GAT_checks layer g h then inr (GAT_nodes layer g h)
    else inl RuntimeError.
Proof.
  intros Hlen Hne. unfold GATWithSelfLoop.forward, set_ndata, GAT_checks.
  unfold GATWithSelfLoop.node_apply_func, GATWithSelfLoop.edge_attention.
  rewrite Hlen, Nat.eqb_refl. cbn [bind ret]. unfold linear at 1.
  destruct (rows_ok (GATWithSelfLoop.self_fc layer) h); [|reflexivity].
  cbn [bind ret]. unfold linear at 1.
  destruct (rows_ok (GATWithSelfLoop.fc layer) h); [|reflexivity].
  cbn [bind ret]. unfold linear at 1.
  destruct (rows_ok (GATWithSelfLoop.self_attn_fc layer) _); [|reflexivity].
  cbn [bind ret]. unfold linear at 1.
  destruct (rows_ok (GATWithSelfLoop.attn_fc layer) _); [|reflexivity].
  cbn [bind ret andb]. now rewrite (update_all_edges _ _ _ _ Hne).
Qed.

Lemma cat_src_dst_union (g1 g2 : DGLGraph) (z1 z2 : tensor) :
  wf_graph g1 -> length z1 = number_of_nodes g1 ->
  GATWithSelfLoop.cat_src_dst (z1 ++ z2) (edata (disjoint_union g1 g2))
  = GATWithSelfLoop.cat_src_dst z1 (edata g1)
    ++ GATWithSelfLoop.cat_src_dst z2 (edata g2).
Proof.
  intros Hwf Hlen. unfold disjoint_union, GATWithSelfLoop.cat_src_dst.
  cbn [edata]. rewrite map_app, map_map. f_equal.
  - apply map_ext_in. intros e He.
    unfold wf_graph in Hwf. rewrite Forall_forall in Hwf.
    destruct (Hwf e He) as [Hs Hd].
    now rewrite !app_nth1 by (rewrite Hlen; assumption).
  - apply map_ext. intros e. cbn [shift_edge e_src e_dst].
    rewrite <- Hlen. now rewrite !app_nth2_plus.
Qed.

Lemma GAT_messages_union (g1 g2 : DGLGraph) (z1 z2 : tensor) (e1 e2 : vec) :
  wf_graph g1 -> length z1 = number_of_nodes g1 ->
  length e1 = length (edata g1) ->
  GATWithSelfLoop.message_func (z1 ++ z2) (e1 ++ e2)
                               (edata (disjoint_union g1 g2))
  = GATWithSelfLoop.message_func z1 e1 (edata g1)
    ++ GATWithSelfLoop.message_func z2 e2 (edata g2).
Proof.
  intros Hwf Hlen He. unfold disjoint_union, GATWithSelfLoop.message_func.
  cbn [edata]. rewrite map_app, map_map.
  rewrite combine_app_eq by now rewrite length_map.
  f_equal; f_equal.
  - apply map_ext_in. intros e Hin.
    unfold wf_graph in Hwf. rewrite Forall_forall in Hwf.
    rewrite app_nth1; [reflexivity|]. rewrite Hlen. now apply Hwf.
  - apply map_ext. intros e. cbn [shift_edge e_src].
    rewrite <- Hlen. now rewrite app_nth2_plus.
Qed.

Lemma GAT_checks_union (layer : GATWithSelfLoop.t) (g1 g2 : DGLGraph)
    (ha hb : tensor) :
  wf_graph g1 -> length ha = number_of_nodes g1 ->
  GAT_checks layer (disjoint_union g1 g2) (ha ++ hb)
  = GAT_checks layer g1 ha && GAT_checks layer g2 hb.
Proof.
  intros Hwf Hlen. unfold GAT_checks. rewrite !map_app.
  rewrite cat_src_dst_union by (try assumption; now rewrite length_map).
  rewrite !rows_ok_app.
  repeat match goal with
         | |- context [rows_ok ?L ?X] => destruct (rows_ok L X)
         end; reflexivity.
Qed.

Lemma GAT_nodes_union (layer : GATWithSelfLoop.t) (g1 g2 : DGLGraph)
    (ha hb : tensor) :
  wf_graph g1 -> length ha = number_of_nodes g1 ->
  GAT_nodes layer (disjoint_union g1 g2) (ha ++ hb)
  = GAT_nodes layer g1 ha ++ GAT_nodes layer g2 hb.
Proof.
  intros Hwf Hlen. unfold GAT_nodes. rewrite !map_app.
  rewrite cat_src_dst_union by (try assumption; now rewrite length_map).
  rewrite !map_app.
  rewrite GAT_messages_union
    by (try assumption; unfold GATWithSelfLoop.cat_src_dst;
        now rewrite !length_map).
  apply node_out_union.
  - assumption.
  - unfold GATWithSelfLoop.message_func.
    rewrite length_combine, !length_map.
    unfold GATWithSelfLoop.cat_src_dst. rewrite length_map. lia.
  - intros v ms Hv. unfold GATWithSelfLoop.reduce_func.
    now rewrite !app_nth1 by (rewrite !length_map; lia).
  - intros v ms Hv. unfold GATWithSelfLoop.reduce_func.
    assert (L1 : number_of_nodes g1
                 = length (map (fun r : vec => leaky_relu (item r))
                     (map (linear_row (GATWithSelfLoop.self_attn_fc layer))
                        (map (linear_row (GATWithSelfLoop.self_fc layer)) ha))))
      by now rewrite !length_map.
    assert (L2 : number_of_nodes g1
                 = length (map (linear_row (GATWithSelfLoop.self_fc layer)) ha))
      by now rewrite length_map.
    rewrite L1 at 1. rewrite app_nth2_plus.
    rewrite L2 at 1. now rewrite app_nth2_plus.
Qed.

Lemma GAT_forward_union (layer : GATWithSelfLoop.t) (g1 g2 : DGLGraph)
    (ha hb : tensor) :
  wf_graph g1 -> edata g1 <> [] -> edata g2 <> [] ->
  length ha = number_of_nodes g1 -> length hb = number_of_nodes g2 ->
  GATWithSelfLoop.forward layer (disjoint_union g1 g2) (ha ++ hb)
  = (a <- GATWithSelfLoop.forward layer g1 ha ;;
     b <- GATWithSelfLoop.forward layer g2 hb ;;
     ret (a ++ b)).
Proof.
  intros Hwf Hne1 Hne2 Ha Hb.
  rewrite (GAT_forward_cases layer (disjoint_union g1 g2) (ha ++ hb)).
  - rewrite (GAT_forward_cases layer g1 ha Ha Hne1).
    rewrite (GAT_forward_cases layer g2 hb Hb Hne2).
    rewrite (GAT_checks_union layer g1 g2 ha hb Hwf Ha).
    rewrite (GAT_nodes_union layer g1 g2 ha hb Hwf Ha).
    destruct (GAT_checks layer g1 ha), (GAT_checks layer g2 hb); reflexivity.
  - rewrite length_app, Ha, Hb. reflexivity.
  - now apply disjoint_union_edges.
Qed.

Lemma GAT_forward_error (layer : GATWithSelfLoop.t) (g : DGLGraph)
    (h : tensor) (e : exception) :
  length h = number_of_nodes g -> edata g <> [] ->
  GATWithSelfLoop.forward layer g h = inl e -> e = RuntimeError.
Proof.
  intros Hlen Hne. rewrite (GAT_forward_cases layer g h Hlen Hne).
  destruct (GAT_checks layer g h); [discriminate|].
  intros H. now injection H as <-.
Qed.

Lemma GAT_forward_length (layer : GATWithSelfLoop.t) (g : DGLGraph)
    (h h' : tensor) :
  length h = number_of_nodes g -> edata g <> [] ->
  GATWithSelfLoop.forward layer g h = inr h' ->
  length h' = number_of_nodes g.
Proof.
  intros Hlen Hne. rewrite (GAT_forward_cases layer g h Hlen Hne).
  destruct (GAT_checks layer g h); [|discriminate].
  intros H. injection H as <-. unfold GAT_nodes.
  now rewrite length_map, length_seq.
Qed.

(** ** The classifier on a batch *)

Section Pipeline.

Variable model : Classifier.t.

Lemma embed_graph_error (g : DGLGraph) (e : exception) :
  length (ndata_h g) = number_of_nodes g -> edata g <> [] ->
  embed_graph model g = inl e -> e = RuntimeError.
Proof.
  intros Hlen Hne. unfold embed_graph.
  destruct (BiDirectionalGCN.forward _ g (ndata_h g)) as [e1|h] eqn:E1.
  - cbn [bind]. intros H. injection H as <-.
    now apply (BiGCN_forward_error _ _ _ e1 Hlen Hne E1).
  - cbn [bind]. apply GAT_forward_error; [|assumption].
    now apply (BiGCN_forward_length _ _ _ _ Hlen Hne E1).
Qed.

Lemma embed_graph_length (g : DGLGraph) (h : tensor) :
  length (ndata_h g) = number_of_nodes g -> edata g <> [] ->
  embed_graph model g = inr h -> length h = number_of_nodes g.
Proof.
  intros Hlen Hne. unfold embed_graph.
  destruct (BiDirectionalGCN.forward _ g (ndata_h g)) as [e1|h1] eqn:E1;
    [discriminate|].
  cbn [bind]. apply GAT_forward_length; [|assumption].
  now apply (BiGCN_forward_length _ _ _ _ Hlen Hne E1).
Qed.

Lemma embed_graph_union (g1 g2 : DGLGraph) :
  wf_graph g1 -> edata g1 <> [] -> edata g2 <> [] ->
  length (ndata_h g1) = number_of_nodes g1 ->
  length (ndata_h g2) = number_of_nodes g2 ->
  width (ndata_h g1) = width (ndata_h g2) ->
  embed_graph model (disjoint_union g1 g2)
  = (a <- embed_graph model g1 ;; b <- embed_graph model g2 ;; ret (a ++ b)).
Proof.
  intros Hwf Hne1 Hne2 Hl1 Hl2 Hw. unfold embed_graph.
  change (ndata_h (disjoint_union g1 g2)) with (ndata_h g1 ++ ndata_h g2).
  rewrite (BiGCN_forward_union _ g1 g2 _ _ Hwf Hne1 Hne2 Hl1 Hl2 Hw).
  destruct (BiDirectionalGCN.forward _ g1 (ndata_h g1)) as [e1|a] eqn:E1;
    [reflexivity|].
  destruct (BiDirectionalGCN.forward _ g2 (ndata_h g2)) as [e2|b] eqn:E2.
  - cbn [bind]. apply (BiGCN_forward_error _ _ _ _ Hl2 Hne2) in E2. subst e2.
    destruct (GATWithSelfLoop.forward _ g1 a) as [e|a'] eqn:E; [|reflexivity].
    apply GAT_forward_error in E; [now subst | | assumption].
    now apply (BiGCN_forward_length _ _ _ _ Hl1 Hne1 E1).
  - cbn [bind ret].
    apply GAT_forward_union; try assumption.
    + now apply (BiGCN_forward_length _ _ _ _ Hl1 Hne1 E1).
    + now apply (BiGCN_forward_length _ _ _ _ Hl2 Hne2 E2).
Qed.

Lemma embed_as_graph (bg : BatchedDGLGraph) :
  Classifier.embed model bg
  = (h <- embed_graph model (bg_graph bg) ;;
     _ <- set_ndata (bg_graph bg) h ;;
     ret (mkBatched (mkGraph (number_of_nodes (bg_graph bg)) h
                             (edata (bg_graph bg)))
                    (batch_num_nodes bg) (batch_num_edges bg))).
Proof.
  unfold Classifier.embed, embed_graph.
  now destruct (BiDirectionalGCN.forward _ _ _).
Qed.

(** The readout vectors of a batch of one graph. *)
Lemma features_one (g : DGLGraph) :
  length (ndata_h g) = number_of_nodes g -> edata g <> [] ->
  Classifier.features model (collate [g])
  = (h <- embed_graph model g ;; f <- Classifier.readout h ;; ret [f]).
Proof.
  intros Hlen Hne. unfold Classifier.features.
  rewrite embed_as_graph, collate_one.
  destruct (embed_graph model g) as [e|h] eqn:E; [reflexivity|].
  assert (Hh := embed_graph_length g h Hlen Hne E).
  cbn [bind]. unfold set_ndata. rewrite Hh, Nat.eqb_refl. cbn [bind ret].
  unfold dgl_unbatch, collate, dgl_batch. destruct g as [n h0 es].
  cbn [union_from batch_num_nodes batch_num_edges map bg_graph ndata_h edata
       number_of_nodes unbatch_from Classifier.readout_all] in *.
  rewrite firstn_all2 by lia.
  now destruct (Classifier.readout h).
Qed.

(** The readout vectors of a batch of two graphs. *)
Lemma features_two (g1 g2 : DGLGraph) :
  wf_graph g1 -> edata g1 <> [] -> edata g2 <> [] ->
  length (ndata_h g1) = number_of_nodes g1 ->
  length (ndata_h g2) = number_of_nodes g2 ->
  width (ndata_h g1) = width (ndata_h g2) ->
  Classifier.features model (collate [g1; g2])
  = (a <- embed_graph model g1 ;;
     b <- embed_graph model g2 ;;
     f1 <- Classifier.readout a ;;
     f2 <- Classifier.readout b ;;
     ret [f1; f2]).
Proof.
  intros Hwf Hne1 Hne2 Hl1 Hl2 Hw. unfold Classifier.features.
  rewrite embed_as_graph, collate_two. cbn [bg_graph].
  rewrite (embed_graph_union g1 g2 Hwf Hne1 Hne2 Hl1 Hl2 Hw).
  destruct (embed_graph model g1) as [e|a] eqn:E1; [reflexivity|].
  destruct (embed_graph model g2) as [e|b] eqn:E2; [reflexivity|].
  assert (Ha := embed_graph_length g1 a Hl1 Hne1 E1).
  assert (Hb := embed_graph_length g2 b Hl2 Hne2 E2).
  cbn [bind ret]. unfold set_ndata.
  replace (length (a ++ b) =? number_of_nodes (disjoint_union g1 g2))
    with true
    by (symmetry; apply Nat.eqb_eq; rewrite length_app, Ha, Hb; reflexivity).
  cbn [bind ret]. unfold dgl_unbatch.
  cbn [batch_num_nodes batch_num_edges bg_graph ndata_h edata unbatch_from
       Classifier.readout_all].
  rewrite <- Ha at 1. rewrite firstn_app, Nat.sub_diag, firstn_all, firstn_O, app_nil_r.
  replace (skipn (number_of_nodes g1) (a ++ b)) with b
    by (rewrite <- Ha, skipn_app, Nat.sub_diag, skipn_all; reflexivity).
  rewrite firstn_all2 by lia.
  destruct (Classifier.readout a); [reflexivity|].
  now destruct (Classifier.readout b).
Qed.

End Pipeline.

Lemma head_app (model : Classifier.t) (X1 X2 : tensor) :
  Classifier.head model (X1 ++ X2)
  = (x <- Classifier.head model X1 ;;
     y <- Classifier.head model X2 ;;
     ret (x ++ y)).
Proof.
  unfold Classifier.head. rewrite linear_app.
  destruct (linear (Classifier.fc1 model) X1) as [e1|y1]; [reflexivity|].
  cbn [bind].
  destruct (linear (Classifier.fc1 model) X2) as [e2|y2] eqn:E2.
  - apply linear_error in E2. subst e2. cbn [bind].
    destruct (linear (Classifier.fc2 model) (map (map relu) y1)) as [e|x] eqn:E;
      [|reflexivity].
    apply linear_error in E. now subst e.
  - cbn [bind ret]. now rewrite map_app, linear_app.
Qed.

Lemma head_error (model : Classifier.t) (X : tensor) (e : exception) :
  Classifier.head model X = inl e -> e = RuntimeError.
Proof.
  unfold Classifier.head.
  destruct (linear (Classifier.fc1 model) X) as [e1|y] eqn:E1; cbn [bind].
  - intros H. injection H as <-. now apply linear_error in E1.
  - apply linear_error.
Qed.

(** C7.  Two graphs with edges, each with one feature row per node and
    rows of the same width, batched by [collate]: the readout vectors of
    the batch are the readout vector of the first graph run alone followed
    by that of the second run alone, and the same holds for the logits.
    When a run raises, the batch raises the same exception. *)
Theorem batch_matches_single_runs (model : Classifier.t) (g1 g2 : DGLGraph) :
  wf_graph g1 -> edata g1 <> [] -> edata g2 <> [] ->
  length (ndata_h g1) = number_of_nodes g1 ->
  length (ndata_h g2) = number_of_nodes g2 ->
  width (ndata_h g1) = width (ndata_h g2) ->
  Classifier.features model (collate [g1; g2])
  = (f1 <- Classifier.features model (collate [g1]) ;;
     f2 <- Classifier.features model (collate [g2]) ;;
     ret (f1 ++ f2)) /\
  Classifier.forward model (collate [g1; g2])
  = (l1 <- Classifier.forward model (collate [g1]) ;;
     l2 <- Classifier.forward model (collate [g2]) ;;
     ret (l1 ++ l2)).
Proof.
  intros Hwf Hne1 Hne2 Hl1 Hl2 Hw. unfold Classifier.forward.
  rewrite (features_two model g1 g2 Hwf Hne1 Hne2 Hl1 Hl2 Hw).
  rewrite (features_one model g1 Hl1 Hne1), (features_one model g2 Hl2 Hne2).
  destruct (embed_graph model g1) as [e1|a] eqn:E1;
    [split; reflexivity|].
  cbn [bind].
  destruct (embed_graph model g2) as [e2|b] eqn:E2.
  - apply (embed_graph_error model g2 e2 Hl2 Hne2) in E2. subst e2. cbn [bind].
    destruct (Classifier.readout a) as [e|f1] eqn:R1.
    + apply readout_error in R1. subst e. split; reflexivity.
    + cbn [bind ret]. split; [reflexivity|].
      destruct (Classifier.head model [f1]) as [e|x] eqn:H1; [|reflexivity].
      apply head_error in H1. now subst e.
  - cbn [bind].
    destruct (Classifier.readout a) as [e|f1] eqn:R1; [split; reflexivity|].
    cbn [bind].
    destruct (Classifier.readout b) as [e|f2] eqn:R2.
    + apply readout_error in R2. subst e. cbn [bind ret].
      split; [reflexivity|].
      destruct (Classifier.head model [f1]) as [e|x] eqn:H1; [|reflexivity].
      apply head_error in H1. now subst e.
    + cbn [bind ret app]. split; [reflexivity|].
      change [f1; f2] with ([f1] ++ [f2]). apply head_app.
Qed.

Lemma example_graphs_built :
  build_graph [(0, 7, 1%R)] = inr eight_node_graph /\
  build_graph [(0, 8, 2%R)] = inr nine_node_graph.
Proof. split; reflexivity. Qed.

(** The two example graphs go through the whole classifier. *)
Lemma example_runs_succeed :
  (exists fs, Classifier.features unit_classifier (collate [eight_node_graph])
              = inr fs) /\
  (exists fs, Classifier.features unit_classifier (collate [nine_node_graph])
              = inr fs) /\
  (exists l, Classifier.forward unit_classifier (collate [eight_node_graph])
             = inr l) /\
  (exists l, Classifier.forward unit_classifier (collate [nine_node_graph])
             = inr l).
Proof.
  split; [eexists; reflexivity|]. split; [eexists; reflexivity|].
  split; eexists; reflexivity.
Qed.

Lemma batch_matches_single_runs_witness :
  exists fs1 fs2 l1 l2,
    Classifier.features unit_classifier (collate [eight_node_graph])
    = inr fs1 /\
    Classifier.features unit_classifier (collate [nine_node_graph])
    = inr fs2 /\
    Classifier.features unit_classifier
      (collate [eight_node_graph; nine_node_graph]) = inr (fs1 ++ fs2) /\
    Classifier.forward unit_classifier (collate [eight_node_graph])
    = inr l1 /\
    Classifier.forward unit_classifier (collate [nine_node_graph])
    = inr l2 /\
    Classifier.forward unit_classifier
      (collate [eight_node_graph; nine_node_graph]) = inr (l1 ++ l2).
Proof.
  destruct (@batch_matches_single_runs unit_classifier
              eight_node_graph nine_node_graph) as [Hf Hl].
  - repeat constructor.
  - discriminate.
  - discriminate.
  - reflexivity.
  - reflexivity.
  - reflexivity.
  - destruct example_runs_succeed
      as [[fs1 F1] [[fs2 F2] [[l1 L1] [l2 L2]]]].
    exists fs1, fs2, l1, l2. rewrite Hf, Hl, F1, F2, L1, L2.
    repeat split; reflexivity.
Defined.

(** ** Edge lists that name a node pair more than once *)

Lemma same_pair_eq (k1 k2 : nat * nat) : same_pair k1 k2 = true <-> k1 = k2.
Proof.
  destruct k1 as [a b], k2 as [c d]. unfold same_pair. simpl.
  rewrite andb_true_iff, !Nat.eqb_eq. split; [intros [-> ->] | intros H];
    [reflexivity | now injection H].
Qed.

Lemma dict_set_keys_NoDup {V} (k : nat) (v : V) (d : dict V) :
  NoDup (map fst d) -> NoDup (map fst (dict_set k v d)).
Proof.
  induction d as [|[k' v'] d IH]; simpl; intros Hd.
  - repeat constructor. simpl. tauto.
  - apply NoDup_cons_iff in Hd as [Hk Hd].
    destruct (Nat.eqb_spec k' k) as [->|Hne]; simpl.
    + now constructor.
    + constructor; [|now apply IH].
      intros Hin. apply Hk. clear IH Hd Hk.
      induction d as [|[k2 v2] d IH]; simpl in *.
      * destruct Hin as [E|[]]. congruence.
      * destruct (Nat.eqb_spec k2 k) as [->|Hne2]; simpl in *.
        -- destruct Hin as [E|Hin]; [congruence | now right].
        -- destruct Hin as [E|Hin]; [now left | right; now apply IH].
Qed.

Lemma In_dict_set {V} (k : nat) (v : V) (d : dict V) (k' : nat) (x : V) :
  NoDup (map fst d) ->
  In (k', x) (dict_set k v d)
  <-> (k', x) = (k, v) \/ (k' <> k /\ In (k', x) d).
Proof.
  induction d as [|[k0 v0] d IH]; simpl; intros Hd.
  - split; [intros [E|[]]; left; now symmetry | intros [E|[_ []]]; left; now symmetry].
  - apply NoDup_cons_iff in Hd as [Hk Hd].
    destruct (Nat.eqb_spec k0 k) as [->|Hne]; simpl.
    + split.
      * intros [E|Hin]; [left; now symmetry|]. right. split; [|now right].
        intros ->. apply Hk. apply in_map_iff. now exists (k, x).
      * intros [E|[Hne [E|Hin]]]; [left; now symmetry | | now right].
        injection E as -> _. congruence.
    + rewrite (IH Hd). split.
      * intros [E|[E|[Hne' Hin]]].
        -- right. injection E as -> ->. split; [congruence | now left].
        -- now left.
        -- right. split; [assumption | now right].
      * intros [E|[Hne' [E|Hin]]]; [right; now left | now left |].
        right. right. now split.
Qed.

Lemma In_dict_update {V} (u : nat) (f : V -> V) (d : dict V) (a : nat) (y : V) :
  NoDup (map fst d) ->
  In (a, y) (dict_update u f d)
  <-> (a = u /\ exists y0, In (u, y0) d /\ y = f y0) \/ (a <> u /\ In (a, y) d).
Proof.
  induction d as [|[k0 v0] d IH]; simpl; intros Hd.
  - split; [tauto | intros [[_ [y0 [[] _]]]|[_ []]]].
  - apply NoDup_cons_iff in Hd as [Hk Hd].
    assert (Hfresh : forall z, In (k0, z) d -> False).
    { intros z Hz. apply Hk. apply in_map_iff. now exists (k0, z). }
    destruct (Nat.eqb_spec k0 u) as [->|Hne]; simpl.
    + split.
      * intros [E|Hin].
        -- injection E as <- <-. left. split; [reflexivity|].
           exists v0. split; [now left | reflexivity].
        -- right. split; [|now right]. intros ->. now apply (Hfresh y).
      * intros [[-> [y0 [[E|Hin] ->]]]|[Hne [E|Hin]]].
        -- injection E as <-. now left.
        -- now destruct (Hfresh y0).
        -- injection E as -> _. congruence.
        -- now right.
    + rewrite (IH Hd). split.
      * intros [E|[[-> [y0 [Hin ->]]]|[Hne' Hin]]].
        -- injection E as <- <-. right. split; [assumption | now left].
        -- left. split; [reflexivity|]. exists y0. split; [now right | reflexivity].
        -- right. split; [assumption | now right].
      * intros [[-> [y0 [[E|Hin] ->]]]|[Hne' [E|Hin]]].
        -- injection E as E _. congruence.
        -- right. left. split; [reflexivity|]. now exists y0.
        -- now left.
        -- right. right. now split.
Qed.

Lemma successors_unique_add_node (u : nat) (G : DiGraph) :
  successors_unique G -> successors_unique (add_node u G).
Proof.
  unfold successors_unique, add_node. intros H.
  destruct (has_node G u); [assumption|].
  apply Forall_app. split; [assumption|]. repeat constructor.
Qed.

Lemma successors_unique_add_edge (u v : nat) (w : R) (G : DiGraph) :
  successors_unique G -> successors_unique (add_edge u v w G).
Proof.
  intros H. unfold add_edge.
  assert (H2 := successors_unique_add_node v _ (successors_unique_add_node u _ H)).
  revert H2. generalize (add_node v (add_node u G)) as G2.
  unfold successors_unique. induction G2 as [|[k nbrs] G2 IH]; simpl; intros H2.
  - constructor.
  - apply Forall_cons_iff in H2 as [Hk H2].
    destruct (k =? u); constructor; simpl in *; auto.
    now apply dict_set_keys_NoDup.
Qed.

Lemma In_node_entry (G : DiGraph) (u : nat) :
  In u (nx_nodes G) -> exists nbrs, In (u, nbrs) G.
Proof.
  unfold nx_nodes. intros H. apply in_map_iff in H.
  destruct H as [[u' nbrs] [E H]]. simpl in E. subst u'. now exists nbrs.
Qed.

Lemma entry_successors_unique (G : DiGraph) (u : nat) (nbrs : dict R) :
  successors_unique G -> In (u, nbrs) G -> NoDup (map fst nbrs).
Proof.
  unfold successors_unique. rewrite Forall_forall. intros H Hin.
  apply (H _ Hin).
Qed.

(** [add_edge] on the edge set: the new edge replaces whatever edge the
    node pair had. *)
Lemma In_nx_edges_add_edge (G : DiGraph) (u v : nat) (w : R)
    (a b : nat) (x : R) :
  wf_DiGraph G -> successors_unique G ->
  In (a, b, x) (nx_edges (add_edge u v w G))
  <-> (a, b, x) = (u, v, w) \/ ((a, b) <> (u, v) /\ In (a, b, x) (nx_edges G)).
Proof.
  intros Hwf Hsu.
  rewrite <- (nx_edges_add_node u G), <- (nx_edges_add_node v (add_node u G)).
  assert (Hwf2 : wf_DiGraph (add_node v (add_node u G)))
    by now apply wf_add_node, wf_add_node.
  assert (Hsu2 : successors_unique (add_node v (add_node u G)))
    by now apply successors_unique_add_node, successors_unique_add_node.
  assert (Hu : In u (nx_nodes (add_node v (add_node u G)))).
  { apply In_nodes_add_node. right. apply In_nodes_add_node. now left. }
  unfold add_edge. revert Hwf2 Hsu2 Hu.
  generalize (add_node v (add_node u G)) as G2. clear. intros G2 Hwf Hsu Hu.
  rewrite !In_nx_edges. split.
  - intros [nbrs [Hin Hb]].
    apply (In_dict_update u (dict_set v w) G2 a nbrs Hwf) in Hin.
    destruct Hin as [[-> [y0 [Hy0 ->]]]|[Hne Hin]].
    + apply In_dict_set in Hb;
        [|now apply (entry_successors_unique G2 u y0)].
      destruct Hb as [E|[Hne Hb]].
      * left. now injection E as -> ->.
      * right. split; [congruence|]. now exists y0.
    + right. split; [congruence|]. now exists nbrs.
  - intros [E|[Hne [nbrs [Hin Hb]]]].
    + injection E as -> -> ->.
      destruct (In_node_entry G2 u Hu) as [y0 Hy0].
      exists (dict_set v w y0). split.
      * apply (In_dict_update u (dict_set v w) G2 u _ Hwf). left.
        split; [reflexivity|]. now exists y0.
      * apply In_dict_set; [now apply (entry_successors_unique G2 u y0)|].
        now left.
    + destruct (Nat.eq_dec a u) as [->|Hau].
      * exists (dict_set v w nbrs). split.
        -- apply (In_dict_update u (dict_set v w) G2 u _ Hwf). left.
           split; [reflexivity|]. now exists nbrs.
        -- apply In_dict_set; [now apply (entry_successors_unique G2 u nbrs)|].
           right. split; [congruence | assumption].
      * exists nbrs. split; [|assumption].
        apply (In_dict_update u (dict_set v w) G2 a nbrs Hwf). now right.
Qed.

Lemma read_lines_successors_unique (lines : list (nat * nat * R)) : forall G,
  successors_unique G -> successors_unique (fold_left add_line lines G).
Proof.
  induction lines as [|[[u v] w] lines IH]; simpl; intros G HG; [assumption|].
  now apply IH, successors_unique_add_edge.
Qed.

(** The edges after reading the lines: for each node pair the lines name,
    the weight of the last line that names it. *)
Lemma read_lines_last_weight (lines : list (nat * nat * R)) :
  forall G a b x,
    wf_DiGraph G -> successors_unique G ->
    In (a, b, x) (nx_edges (fold_left add_line lines G))
    <-> match last_weight lines (a, b) with
        | Some w => x = w
        | None => In (a, b, x) (nx_edges G)
        end.
Proof.
  induction lines as [|[[u v] w] lines IH]; simpl; intros G a b x Hwf Hsu;
    [tauto|].
  rewrite IH by (try apply wf_add_edge; try apply successors_unique_add_edge;
                 assumption).
  destruct (last_weight lines (a, b)) as [w'|]; [tauto|].
  rewrite (In_nx_edges_add_edge G u v w a b x Hwf Hsu).
  unfold endpoints. simpl fst.
  destruct (same_pair (u, v) (a, b)) eqn:E.
  - apply same_pair_eq in E. injection E as -> ->. simpl snd.
    split; [intros [H|[H _]]; [now injection H | congruence] | intros ->; now left].
  - split; [|intros H].
    + intros [H|[_ H]]; [|assumption]. injection H as -> -> ->.
      assert (E' : same_pair (u, v) (u, v) = true) by now apply same_pair_eq.
      congruence.
    + right. split; [|assumption]. intros H'. injection H' as -> ->.
      assert (E' : same_pair (u, v) (u, v) = true) by now apply same_pair_eq.
      congruence.
Qed.

Lemma last_weight_In (lines : list (nat * nat * R)) (a b : nat) (x : R) :
  last_weight lines (a, b) = Some x -> In (a, b, x) lines.
Proof.
  induction lines as [|[[u v] w] lines IH]; simpl; [discriminate|].
  destruct (last_weight lines (a, b)) as [w'|].
  - intros H. right. now apply IH.
  - unfold endpoints. simpl fst. destruct (same_pair (u, v) (a, b)) eqn:E;
      [|discriminate].
    apply same_pair_eq in E. injection E as -> ->. simpl.
    intros H. injection H as ->. now left.
Qed.

Lemma In_last_weight (lines : list (nat * nat * R)) (a b : nat) (x : R) :
  In (a, b, x) lines -> exists x', last_weight lines (a, b) = Some x'.
Proof.
  induction lines as [|[[u v] w] lines IH]; simpl; [tauto|].
  intros [E|H].
  - injection E as -> -> ->. destruct (last_weight lines (a, b)); [eauto|].
    unfold endpoints. simpl fst.
    assert (E' : same_pair (a, b) (a, b) = true) by now apply same_pair_eq.
    rewrite E'. eauto.
  - destruct (IH H) as [x' ->]. eauto.
Qed.

Lemma built_edges_last_weight (lines : list (nat * nat * R)) (a b : nat) (x : R) :
  In (a, b, x) (nx_edges (pad_nodes (max_node_id lines)
                                    (read_weighted_edgelist lines)))
  <-> last_weight lines (a, b) = Some x.
Proof.
  unfold pad_nodes. rewrite pad_nodes_edges. unfold read_weighted_edgelist.
  rewrite read_lines_last_weight; [| constructor | constructor].
  destruct (last_weight lines (a, b)) as [w|]; simpl.
  - split; [intros -> | intros H; injection H as ->]; reflexivity.
  - split; [tauto | discriminate].
Qed.

Lemma nx_edges_keys_NoDup (G : DiGraph) :
  wf_DiGraph G -> successors_unique G -> NoDup (map endpoints (nx_edges G)).
Proof.
  unfold wf_DiGraph, successors_unique.
  induction G as [|[u nbrs] G IH]; simpl; intros Hwf Hsu; [constructor|].
  apply NoDup_cons_iff in Hwf as [Hu Hwf].
  apply Forall_cons_iff in Hsu as [Hn Hsu]. simpl in Hn.
  rewrite map_app. apply NoDup_app.
  - rewrite map_map. clear - Hn.
    induction nbrs as [|[v w] nbrs IH]; simpl in *; [constructor|].
    apply NoDup_cons_iff in Hn as [Hv Hn]. constructor; [|now apply IH].
    intros Hin. apply Hv. apply in_map_iff in Hin.
    destruct Hin as [[v' w'] [E Hin]]. unfold endpoints in E. simpl in E.
    injection E as ->. apply in_map_iff. now exists (v, w').
  - now apply IH.
  - intros [a b] H1 H2.
    apply in_map_iff in H1. destruct H1 as [[[a1 b1] x1] [E1 H1]].
    apply in_map_iff in H1. destruct H1 as [[v w] [E H1]].
    injection E as <- <- <-. unfold endpoints in E1. simpl in E1.
    injection E1 as <- <-.
    apply in_map_iff in H2. destruct H2 as [[[a2 b2] x2] [E2 H2]].
    unfold endpoints in E2. simpl in E2. injection E2 as -> ->.
    apply Hu. apply (nx_edges_src_node G (u, v, x2) H2).
Qed.

Lemma built_edges_keys_NoDup (lines : list (nat * nat * R)) :
  NoDup (map endpoints
             (nx_edges (pad_nodes (max_node_id lines)
                                  (read_weighted_edgelist lines)))).
Proof.
  unfold pad_nodes. rewrite pad_nodes_edges. unfold read_weighted_edgelist.
  apply nx_edges_keys_NoDup.
  - apply read_lines_wf. constructor.
  - apply read_lines_successors_unique. constructor.
Qed.




Lemma In_lines_observed (lines : list (nat * nat * R)) (a b : nat) (x : R) :
  In (a, b, x) lines ->
  In a (observed_ids lines) /\ In b (observed_ids lines).
Proof.
  unfold observed_ids. intros H. split; apply in_flat_map;
    exists (a, b, x); simpl; auto.
Qed.

(** Every graph the loading loop builds has edges, edge endpoints that are
    nodes, direction flags 0 or 1, and one feature row of width [F] per
    node. *)
Lemma built_graph_invariants (F : nat) (lines : list (nat * nat * R))
    (g : DGLGraph) :
  build_graph_with F lines = inr g ->
  edata g <> [] /\ wf_graph g /\ flagged g /\
  length (ndata_h g) = number_of_nodes g /\ rectangular F (ndata_h g).
Proof.
  intros Hb. destruct (@build_graph_with_inv F lines g Hb) as [Hne HF].
  rewrite (build_graph_with_ok Hne HF) in Hb.
  remember (seq 0 (S (max_node_id lines))) as ids eqn:Hids.
  injection Hb as <-. unfold wf_graph, flagged.
  cbn [number_of_nodes ndata_h edata]. subst ids.
  rewrite from_networkx_forward. unfold add_reverse_edges.
  set (G := pad_nodes (max_node_id lines) (read_weighted_edgelist lines)).
  assert (Hin : forall l, In l (nx_edges G) -> In l lines).
  { intros [[a b] x] H. apply built_edges_last_weight in H.
    now apply last_weight_In. }
  assert (Hbound : forall a b x, In (a, b, x) lines ->
             a < S (max_node_id lines) /\ b < S (max_node_id lines)).
  { intros a b x H. destruct (In_lines_observed lines a b x H) as [Ha Hb'].
    apply list_max_ge in Ha, Hb'. unfold max_node_id. lia. }
  split; [|split; [|split; [|split]]].
  - destruct lines as [|[[a b] x] lines]; [congruence|].
    destruct (In_last_weight ((a, b, x) :: lines) a b x (or_introl eq_refl))
      as [x' E].
    apply built_edges_last_weight in E. fold G in E.
    destruct (nx_edges G); [destruct E | discriminate].
  - apply Forall_app. split; [|rewrite map_map]; apply Forall_map;
      rewrite Forall_forall; intros [[a b] x] H; simpl;
      destruct (Hbound a b x (Hin _ H)); split; assumption.
  - apply Forall_app. split; [|rewrite map_map]; apply Forall_map;
      rewrite Forall_forall; intros l H; simpl; auto.
  - now rewrite length_map, length_seq.
  - apply Forall_map. rewrite Forall_forall. intros v _. apply length_one_hot.
Qed.

(** * Further properties of the notebook *)

(** ** The loading loop: outcomes, padding, repeated lines *)

(** X1.  The loading loop returns a graph exactly when the edge list is not
    empty and the feature width [F] is at least 1 and at most the number
    of nodes [max node id + 1].  It raises an [IndexError] on an empty
    edge list (and for [F = 0]) and a [RuntimeError] when there are fewer
    nodes than [F]. *)
Theorem build_graph_with_outcome (F : nat) (lines : list (nat * nat * R)) :
  ((exists g, build_graph_with F lines = inr g)
   <-> lines <> [] /\ 1 <= F <= S (max_node_id lines)) /\
  (build_graph_with F lines = inl IndexError <-> lines = [] \/ F = 0) /\
  (build_graph_with F lines = inl RuntimeError
   <-> lines <> [] /\ S (max_node_id lines) < F).
Proof.
  assert (Hcases :
    (lines = [] /\ build_graph_with F lines = inl IndexError) \/
    (lines <> [] /\ S (max_node_id lines) < F /\
     build_graph_with F lines = inl RuntimeError) \/
    (lines <> [] /\ F = 0 /\ build_graph_with F lines = inl IndexError) \/
    (lines <> [] /\ 1 <= F <= S (max_node_id lines) /\
     exists g, build_graph_with F lines = inr g)).
  { destruct lines as [|l lines]; [left; now split|]. right.
    assert (Hne : l :: lines <> []) by discriminate.
    rewrite (build_graph_with_unfold F Hne). cbv zeta.
    unfold make_node_feature.
    destruct (Nat.ltb_spec (S (max_node_id (l :: lines))) F) as [Hlt|Hge];
      [left; now repeat split|].
    right. destruct (Nat.eqb_spec F 0) as [->|HF];
      [left; now repeat split|].
    right. split; [assumption|]. split; [lia|]. eexists. reflexivity. }
  destruct Hcases as [[H1 E]|[[H1 [H2 E]]|[[H1 [H2 E]]|[H1 [H2 [g E]]]]]];
    rewrite E; (split; [|split]); split;
    try discriminate; try tauto; try lia;
    try (intros [g' Hg]; discriminate);
    try (intros [? ?]; (contradiction || lia));
    try (intros [?|?]; (contradiction || lia));
    try (intros _; eexists; reflexivity).
Qed.

(** X2.  The padding loop, on any [DiGraph] that holds each node once: after
    it every id below [last] is a node, the nodes that were there still
    are, no node is held twice, and the edges are the same, so the added
    nodes have no edge. *)
Theorem pad_nodes_spec (last : nat) (G : DiGraph) :
  wf_DiGraph G ->
  wf_DiGraph (pad_nodes last G) /\
  (forall v, In v (nx_nodes (pad_nodes last G))
             <-> v < last \/ In v (nx_nodes G)) /\
  nx_edges (pad_nodes last G) = nx_edges G.
Proof.
  intros Hwf. unfold pad_nodes. split; [|split].
  - now apply pad_nodes_wf.
  - intros v. apply pad_nodes_In.
  - apply pad_nodes_edges.
Qed.

Lemma pad_nodes_spec_witness :
  wf_DiGraph (pad_nodes 2 (read_weighted_edgelist [(0, 2, 1%R)])) /\
  (forall v, In v (nx_nodes (pad_nodes 2 (read_weighted_edgelist [(0, 2, 1%R)])))
             <-> v < 2 \/ In v (nx_nodes (read_weighted_edgelist [(0, 2, 1%R)]))) /\
  nx_edges (pad_nodes 2 (read_weighted_edgelist [(0, 2, 1%R)]))
  = nx_edges (read_weighted_edgelist [(0, 2, 1%R)]).
Proof.
  apply pad_nodes_spec. unfold wf_DiGraph. simpl.
  repeat constructor; simpl; intuition discriminate.
Defined.

Lemma built_edata_In (F : nat) (lines : list (nat * nat * R)) (g : DGLGraph)
    (e : Edge) :
  build_graph_with F lines = inr g ->
  In e (edata g)
  <-> exists a b x, last_weight lines (a, b) = Some x /\
                    (e = mkEdge a b x 0 \/ e = mkEdge b a x 1).
Proof.
  intros Hb. destruct (@build_graph_with_inv F lines g Hb) as [Hne HF].
  rewrite (build_graph_with_ok Hne HF) in Hb.
  remember (seq 0 (S (max_node_id lines))) as ids eqn:Hids.
  injection Hb as <-. cbn [edata]. clear Hids.
  rewrite from_networkx_forward. unfold add_reverse_edges.
  rewrite in_app_iff, map_map, !in_map_iff. split.
  - intros [[[[a b] x] [E H]]|[[[a b] x] [E H]]]; subst e;
      apply built_edges_last_weight in H; exists a, b, x; split; auto.
  - intros [a [b [x [H [E|E]]]]]; subst e; apply built_edges_last_weight in H;
      [left | right]; exists (a, b, x); split; auto.
Qed.



Lemma in_edges_nonempty (g : DGLGraph) (v : nat) :
  in_edges g v <> [] <-> exists e, In e (edata g) /\ e_dst e = v.
Proof.
  unfold in_edges. split.
  - intros H. destruct (filter _ (edata g)) as [|e es] eqn:E; [congruence|].
    assert (He : In e (filter (fun e => e_dst e =? v) (edata g)))
      by (rewrite E; now left).
    apply filter_In in He. exists e. now rewrite <- Nat.eqb_eq.
  - intros [e [He Hv]] E.
    assert (Hin : In e (filter (fun e => e_dst e =? v) (edata g))).
    { apply filter_In. split; [assumption | now apply Nat.eqb_eq]. }
    rewrite E in Hin. destruct Hin.
Qed.

Lemma observed_ids_In (lines : list (nat * nat * R)) (v : nat) :
  In v (observed_ids lines)
  <-> exists a b x, In (a, b, x) lines /\ (v = a \/ v = b).
Proof.
  unfold observed_ids. rewrite in_flat_map. split.
  - intros [[[a b] x] [Hl Hv]]. exists a, b, x. split; [assumption|].
    simpl in Hv. intuition.
  - intros [a [b [x [Hl Hv]]]]. exists (a, b, x). split; [assumption|].
    simpl. intuition.
Qed.

Lemma in_edges_observed (F : nat) (lines : list (nat * nat * R))
    (g : DGLGraph) (v : nat) :
  build_graph_with F lines = inr g ->
  in_edges g v <> [] -> In v (observed_ids lines).
Proof.
  intros Hb. rewrite in_edges_nonempty, observed_ids_In.
  intros [e [He Hv]]. apply (built_edata_In F lines g e Hb) in He.
  destruct He as [a [b [x [H E]]]]. apply last_weight_In in H.
  exists a, b, x. split; [assumption|].
  destruct E as [->| ->]; simpl in Hv; auto.
Qed.

(** X4.  In a built graph the nodes that receive a message are exactly the ids
    the edge list mentions: the mirrored edges give every endpoint an
    incoming edge, and the padded ids have none. *)
Theorem built_graph_in_degree (F : nat) (lines : list (nat * nat * R))
    (g : DGLGraph) (v : nat) :
  build_graph_with F lines = inr g ->
  (in_edges g v <> [] <-> In v (observed_ids lines)).
Proof.
  intros Hb. split; [exact (in_edges_observed F lines g v Hb)|].
  rewrite in_edges_nonempty, observed_ids_In.
  intros [a [b [x [Hl Hv]]]].
  destruct (In_last_weight lines a b x Hl) as [x' H].
  destruct Hv as [->| ->].
  - exists (mkEdge b a x' 1). split; [|reflexivity].
    apply (built_edata_In F lines g _ Hb). exists a, b, x'. auto.
  - exists (mkEdge a b x' 0). split; [|reflexivity].
    apply (built_edata_In F lines g _ Hb). exists a, b, x'. auto.
Qed.

Lemma built_graph_in_degree_witness :
  exists g,
    build_graph [(0, 7, 1%R)] = inr g /\
    in_edges g 7 <> [] /\ in_edges g 3 = [].
Proof.
  eexists. split; [reflexivity|]. split.
  - apply (built_graph_in_degree 8 [(0, 7, 1%R)] _ 7 eq_refl). simpl. auto.
  - reflexivity.
Defined.

Lemma in_edges_empty_dec (g : DGLGraph) (v : nat) :
  in_edges g v = [] \/ in_edges g v <> [].
Proof. destruct (in_edges g v); [now left | right; discriminate]. Qed.

(** X5.  Through the two layers of the classifier, a node of a built graph
    whose id the edge list does not mention ends with the zero vector as
    its embedding. *)
Theorem padded_node_embedding (model : Classifier.t) (F : nat)
    (lines : list (nat * nat * R)) (g : DGLGraph) (h : tensor) (v : nat) :
  build_graph_with F lines = inr g ->
  embed_graph model g = inr h ->
  v < number_of_nodes g -> ~ In v (observed_ids lines) ->
  nth v h []
  = zeros (out_features (GATWithSelfLoop.self_fc (Classifier.conv2 model))).
Proof.
  intros Hb He Hv Hobs.
  destruct (built_graph_invariants F lines g Hb) as [Hne _].
  assert (Hin : in_edges g v = []).
  { destruct (in_edges_empty_dec g v) as [E|E]; [assumption|].
    apply (in_edges_observed F lines g v Hb) in E. contradiction. }
  unfold embed_graph in He.
  destruct (BiDirectionalGCN.forward _ g (ndata_h g)) as [e|h1];
    [discriminate|].
  cbn [bind] in He.
  apply (@GAT_zero_in_degree (Classifier.conv2 model) g h1 h v Hne Hv Hin He).
Qed.

Lemma example_embed_succeeds :
  exists h, embed_graph unit_classifier eight_node_graph = inr h.
Proof. eexists. reflexivity. Qed.

Lemma padded_node_embedding_witness :
  exists h,
    embed_graph unit_classifier eight_node_graph = inr h /\
    nth 3 h [] = [0%R].
Proof.
  destruct example_embed_succeeds as [h Hh]. exists h. split; [exact Hh|].
  apply (padded_node_embedding unit_classifier 8 [(0, 7, 1%R)]
           eight_node_graph h 3).
  - reflexivity.
  - exact Hh.
  - simpl. lia.
  - simpl. intuition discriminate.
Defined.

(** ** Batching and un-batching *)


Lemma firstn_app_exact {A} (n : nat) (a b : list A) :
  length a = n -> firstn n (a ++ b) = a.
Proof.
  intros <-. now rewrite firstn_app, Nat.sub_diag, firstn_all, firstn_O, app_nil_r.
Qed.

Lemma skipn_app_exact {A} (n : nat) (a b : list A) :
  length a = n -> skipn n (a ++ b) = b.
Proof.
  intros <-. now rewrite skipn_app, Nat.sub_diag, skipn_all, skipn_O.
Qed.




(** ** Batches of any size *)

Lemma shift_edge_add (k m : nat) (e : Edge) :
  shift_edge k (shift_edge m e) = shift_edge (k + m) e.
Proof.
  destruct e as [s d w f]. unfold shift_edge. simpl. f_equal; lia.
Qed.

Lemma union_from_offset (gs : list DGLGraph) : forall k,
  union_from k gs
  = (fst (union_from 0 gs), map (shift_edge k) (snd (union_from 0 gs))).
Proof.
  induction gs as [|g gs IH]; intros k; [reflexivity|].
  simpl. rewrite (IH (k + number_of_nodes g)), (IH (number_of_nodes g)).
  simpl. f_equal. rewrite map_app, !map_map.
  apply f_equal2; apply map_ext; intros e; rewrite shift_edge_add;
    [now rewrite Nat.add_0_r | reflexivity].
Qed.

Lemma batch_graph_cons (g : DGLGraph) (gs : list DGLGraph) :
  bg_graph (dgl_batch (g :: gs))
  = disjoint_union g (bg_graph (dgl_batch gs)).
Proof.
  unfold dgl_batch, disjoint_union. simpl.
  rewrite (union_from_offset gs (number_of_nodes g)).
  destruct (union_from 0 gs) as [h es]. simpl.
  now rewrite map_shift_edge_0.
Qed.

Lemma batch_graph_nil : bg_graph (dgl_batch []) = mkGraph 0 [] [].
Proof. reflexivity. Qed.

Lemma batch_num_nodes_batch (gs : list DGLGraph) :
  batch_num_nodes (dgl_batch gs) = map number_of_nodes gs /\
  batch_num_edges (dgl_batch gs) = map (fun g => length (edata g)) gs.
Proof. unfold dgl_batch. now destruct (union_from 0 gs). Qed.

Lemma batch_graph_rows (gs : list DGLGraph) :
  Forall (fun g => length (ndata_h g) = number_of_nodes g) gs ->
  length (ndata_h (bg_graph (dgl_batch gs)))
  = number_of_nodes (bg_graph (dgl_batch gs)).
Proof.
  induction 1 as [|g gs Hg _ IH]; [reflexivity|].
  rewrite batch_graph_cons. unfold disjoint_union. cbn [ndata_h number_of_nodes].
  now rewrite length_app, Hg, IH.
Qed.

Lemma batchable_rows (d : nat) (gs : list DGLGraph) :
  Forall (batchable d) gs ->
  Forall (fun g => length (ndata_h g) = number_of_nodes g) gs.
Proof.
  apply Forall_impl. intros g H. apply H.
Qed.

Lemma batchable_ndata (d : nat) (g : DGLGraph) :
  batchable d g -> ndata_h g <> [].
Proof.
  intros [Hwf [Hne [Hlen _]]] E.
  assert (H := wf_graph_nonempty Hwf Hne). rewrite E in Hlen. simpl in Hlen. lia.
Qed.

Lemma batch_graph_batchable (d : nat) (g : DGLGraph) (gs : list DGLGraph) :
  Forall (batchable d) (g :: gs) ->
  edata (bg_graph (dgl_batch (g :: gs))) <> [] /\
  width (ndata_h (bg_graph (dgl_batch (g :: gs)))) = d.
Proof.
  intros H. apply Forall_cons_iff in H as [Hg _].
  rewrite batch_graph_cons. split.
  - apply disjoint_union_edges, Hg.
  - unfold disjoint_union. cbn [ndata_h].
    rewrite (width_app _ _ (batchable_ndata d g Hg)). apply Hg.
Qed.

Section Batches.

Variable model : Classifier.t.
Variable d : nat.

Lemma embed_each_error (gs : list DGLGraph) (e : exception) :
  Forall (batchable d) gs ->
  embed_each model gs = inl e -> e = RuntimeError.
Proof.
  induction 1 as [|g gs Hg _ IH]; simpl; [discriminate|].
  destruct Hg as [_ [Hne [Hlen _]]].
  destruct (embed_graph model g) as [e1|a] eqn:E1; cbn [bind].
  - intros H. injection H as <-.
    now apply (embed_graph_error model g e1 Hlen Hne).
  - destruct (embed_each model gs) as [e2|r]; cbn [bind ret]; [|discriminate].
    intros H. injection H as <-. now apply IH.
Qed.

Lemma embed_each_lengths (gs : list DGLGraph) (hs : list tensor) :
  Forall (batchable d) gs ->
  embed_each model gs = inr hs ->
  Forall2 (fun a g => length a = number_of_nodes g) hs gs.
Proof.
  intros Hgs. revert hs.
  induction Hgs as [|g gs Hg _ IH]; simpl; intros hs H.
  - injection H as <-. constructor.
  - destruct Hg as [_ [Hne [Hlen _]]].
    destruct (embed_graph model g) as [e1|a] eqn:E1; [discriminate|].
    cbn [bind] in H.
    destruct (embed_each model gs) as [e2|r]; [discriminate|].
    cbn [bind ret] in H. injection H as <-. constructor.
    + now apply (embed_graph_length model g a Hlen Hne).
    + now apply IH.
Qed.

(** The two layers on a batch give the embeddings of the graphs run one by
    one, stacked. *)
Lemma embed_graph_batch (gs : list DGLGraph) :
  gs <> [] -> Forall (batchable d) gs ->
  embed_graph model (bg_graph (dgl_batch gs))
  = (hs <- embed_each model gs ;; ret (concat hs)).
Proof.
  induction gs as [|g gs IH]; [congruence|]. intros _ Hgs.
  destruct gs as [|g' gs].
  - change (dgl_batch [g]) with (collate [g]). rewrite collate_one. simpl.
    destruct (embed_graph model g); [reflexivity|].
    cbn [bind ret concat]. now rewrite app_nil_r.
  - assert (Hg := Forall_inv Hgs). assert (Hrest := Forall_inv_tail Hgs).
    destruct Hg as [Hwf [Hne [Hlen Hw]]].
    destruct (batch_graph_batchable d g' gs Hrest) as [Hne' Hw'].
    rewrite batch_graph_cons.
    rewrite (embed_graph_union model g _ Hwf Hne Hne' Hlen
               (batch_graph_rows _ (batchable_rows d _ Hrest))
               (eq_trans Hw (eq_sym Hw'))).
    rewrite (IH (ltac:(discriminate)) Hrest).
    change (embed_each model (g :: g' :: gs))
      with (a <- embed_graph model g ;;
            r <- embed_each model (g' :: gs) ;; ret (a :: r)).
    destruct (embed_graph model g); [reflexivity|]. cbn [bind].
    destruct (embed_each model (g' :: gs)); reflexivity.
Qed.

Lemma length_concat_rows (hs : list tensor) (gs : list DGLGraph) :
  Forall2 (fun a g => length a = number_of_nodes g) hs gs ->
  length (concat hs) = number_of_nodes (bg_graph (dgl_batch gs)).
Proof.
  induction 1 as [|a g hs gs Ha _ IH]; [reflexivity|].
  rewrite batch_graph_cons. unfold disjoint_union. cbn [number_of_nodes].
  simpl. now rewrite length_app, Ha, IH.
Qed.

Lemma readout_unbatch (hs : list tensor) (gs : list DGLGraph) :
  Forall2 (fun a g => length a = number_of_nodes g) hs gs ->
  forall k es,
    Classifier.readout_all
      (unbatch_from k (concat hs) es (map number_of_nodes gs)
                    (map (fun g => length (edata g)) gs))
    = readout_each hs.
Proof.
  induction 1 as [|a g hs gs Ha _ IH]; intros k es; [reflexivity|].
  simpl. rewrite (firstn_app_exact _ _ _ Ha), (skipn_app_exact _ _ _ Ha).
  now rewrite IH.
Qed.

(** The readout vectors of a batch, from the graphs run one by one. *)
Lemma features_batch (gs : list DGLGraph) :
  gs <> [] -> Forall (batchable d) gs ->
  Classifier.features model (dgl_batch gs)
  = (hs <- embed_each model gs ;; readout_each hs).
Proof.
  intros Hne Hgs. unfold Classifier.features.
  rewrite embed_as_graph, (embed_graph_batch gs Hne Hgs).
  destruct (embed_each model gs) as [e|hs] eqn:E; [reflexivity|].
  assert (Hl := embed_each_lengths gs hs Hgs E).
  cbn [bind ret]. unfold set_ndata.
  rewrite (length_concat_rows hs gs Hl), Nat.eqb_refl. cbn [bind ret].
  unfold dgl_unbatch. cbn [bg_graph ndata_h edata batch_num_nodes batch_num_edges].
  destruct (batch_num_nodes_batch gs) as [-> ->].
  now apply readout_unbatch.
Qed.

Lemma readout_each_error (hs : list tensor) (e : exception) :
  readout_each hs = inl e -> e = RuntimeError.
Proof.
  induction hs as [|h hs IH]; simpl; [discriminate|].
  destruct (Classifier.readout h) as [e1|f] eqn:E1; cbn [bind].
  - intros H. injection H as <-. now apply readout_error in E1.
  - destruct (readout_each hs) as [e2|fs]; cbn [bind ret]; [|discriminate].
    intros H. injection H as <-. now apply IH.
Qed.

Lemma features_single_runs (gs : list DGLGraph) :
  Forall (batchable d) gs ->
  (hs <- embed_each model gs ;; readout_each hs)
  = single_runs (fun g => Classifier.features model (collate [g])) gs.
Proof.
  induction 1 as [|g gs Hg Hgs IH]; [reflexivity|].
  assert (Hg' := Hg). destruct Hg' as [_ [Hne [Hlen _]]].
  cbn [single_runs embed_each]. rewrite <- IH.
  rewrite (features_one model g Hlen Hne).
  destruct (embed_graph model g) as [e|a]; [reflexivity|]. cbn [bind].
  destruct (embed_each model gs) as [e|r] eqn:E.
  - apply (embed_each_error gs e Hgs) in E. subst e. cbn [bind].
    destruct (Classifier.readout a) as [e|f] eqn:R; [|reflexivity].
    apply readout_error in R. now subst e.
  - cbn [bind ret readout_each].
    destruct (Classifier.readout a); [reflexivity|]. cbn [bind ret].
    now destruct (readout_each r).
Qed.

End Batches.

Section BatchRuns.

Variable model : Classifier.t.
Variable d : nat.

Let feat1 (g : DGLGraph) : result tensor :=
  Classifier.features model (collate [g]).

Let fwd1 (g : DGLGraph) : result tensor :=
  Classifier.forward model (collate [g]).

Lemma single_features_shape (g : DGLGraph) (x : tensor) :
  batchable d g -> feat1 g = inr x -> exists f, x = [f].
Proof.
  intros [_ [Hne [Hlen _]]]. unfold feat1.
  rewrite (features_one model g Hlen Hne).
  destruct (embed_graph model g); [discriminate|]. cbn [bind].
  destruct (Classifier.readout t) as [e|f]; [discriminate|]. cbn [bind ret].
  intros H. injection H as <-. now exists f.
Qed.

Lemma single_features_error (g : DGLGraph) (e : exception) :
  batchable d g -> feat1 g = inl e -> e = RuntimeError.
Proof.
  intros [_ [Hne [Hlen _]]]. unfold feat1.
  rewrite (features_one model g Hlen Hne).
  destruct (embed_graph model g) as [e1|a] eqn:E1; cbn [bind].
  - intros H. injection H as <-.
    now apply (embed_graph_error model g e1 Hlen Hne).
  - destruct (Classifier.readout a) as [e2|f] eqn:E2; cbn [bind ret];
      [|discriminate].
    intros H. injection H as <-. now apply readout_error in E2.
Qed.

Lemma single_runs_features_error (gs : list DGLGraph) (e : exception) :
  Forall (batchable d) gs -> single_runs feat1 gs = inl e -> e = RuntimeError.
Proof.
  induction 1 as [|g gs Hg _ IH]; simpl; [discriminate|].
  destruct (feat1 g) as [e1|x] eqn:E1; cbn [bind].
  - intros H. injection H as <-. now apply (single_features_error g).
  - destruct (single_runs feat1 gs) as [e2|xs]; cbn [bind ret]; [|discriminate].
    intros H. injection H as <-. now apply IH.
Qed.

Lemma single_runs_features_length (gs : list DGLGraph) (xs : tensor) :
  Forall (batchable d) gs -> single_runs feat1 gs = inr xs ->
  length xs = length gs.
Proof.
  intros Hgs. revert xs. induction Hgs as [|g gs Hg _ IH]; simpl; intros xs H.
  - now injection H as <-.
  - destruct (feat1 g) as [e1|x] eqn:E1; [discriminate|]. cbn [bind] in H.
    destruct (single_features_shape g x Hg E1) as [f ->].
    destruct (single_runs feat1 gs) as [e2|ys]; [discriminate|].
    cbn [bind ret] in H. injection H as <-. simpl. f_equal. now apply IH.
Qed.

Lemma forward_single_runs (gs : list DGLGraph) :
  gs <> [] -> Forall (batchable d) gs ->
  (fs <- single_runs feat1 gs ;;
   match fs with
   | [] => raise RuntimeError
   | _ :: _ => Classifier.head model fs
   end)
  = single_runs fwd1 gs.
Proof.
  induction gs as [|g gs IH]; [congruence|]. intros _ Hgs.
  assert (Hg := Forall_inv Hgs). assert (Hrest := Forall_inv_tail Hgs).
  cbn [single_runs]. unfold fwd1 at 1, Classifier.forward. fold (feat1 g).
  destruct (feat1 g) as [e|x] eqn:E1; [reflexivity|].
  destruct (single_features_shape g x Hg E1) as [f ->]. cbn [bind].
  destruct gs as [|g' gs].
  - cbn [single_runs bind ret app].
    destruct (Classifier.head model [f]); [reflexivity|].
    cbn [bind ret]. now rewrite app_nil_r.
  - rewrite <- (IH (ltac:(discriminate)) Hrest).
    destruct (single_runs feat1 (g' :: gs)) as [e|xs] eqn:E2.
    + apply (single_runs_features_error _ e Hrest) in E2. subst e. cbn [bind].
      destruct (Classifier.head model [f]) as [e|l] eqn:H1; [|reflexivity].
      apply head_error in H1. now subst e.
    + assert (Hlen := single_runs_features_length _ xs Hrest E2).
      destruct xs as [|x xs]; [discriminate|].
      cbn [bind ret app]. change (f :: x :: xs) with ([f] ++ x :: xs).
      apply head_app.
Qed.

End BatchRuns.

Lemma forward_batch_runs (model : Classifier.t) (d : nat)
    (gs : list DGLGraph) :
  gs <> [] -> Forall (batchable d) gs ->
  Classifier.forward model (collate gs)
  = single_runs (fun g => Classifier.forward model (collate [g])) gs.
Proof.
  intros Hne Hgs.
  unfold Classifier.forward at 1, collate at 1.
  rewrite (features_batch model d gs Hne Hgs).
  rewrite (features_single_runs model d gs Hgs).
  now apply (forward_single_runs model d).
Qed.

(** X7.  A batch of any number of graphs (at least one): the readout vectors
    and the logits of the batch are those of the graphs run one at a time,
    in the order of the list; when a single run raises, so does the
    batch. *)
Theorem batch_matches_runs_of_each (model : Classifier.t) (d : nat)
    (gs : list DGLGraph) :
  gs <> [] -> Forall (batchable d) gs ->
  Classifier.features model (collate gs)
  = single_runs (fun g => Classifier.features model (collate [g])) gs /\
  Classifier.forward model (collate gs)
  = single_runs (fun g => Classifier.forward model (collate [g])) gs.
Proof.
  intros Hne Hgs.
  assert (Hf : Classifier.features model (collate gs)
               = single_runs
                   (fun g => Classifier.features model (collate [g])) gs).
  { unfold collate at 1. rewrite (features_batch model d gs Hne Hgs).
    now apply (features_single_runs model d). }
  split; [exact Hf|].
  unfold Classifier.forward at 1. rewrite Hf.
  now apply (forward_single_runs model d).
Qed.

Lemma example_graphs_batchable :
  Forall (batchable 8) [eight_node_graph; nine_node_graph; eight_node_graph].
Proof.
  repeat constructor; try discriminate; simpl; lia.
Qed.

Lemma batch_matches_runs_of_each_witness :
  Classifier.features unit_classifier
    (collate [eight_node_graph; nine_node_graph; eight_node_graph])
  = single_runs (fun g => Classifier.features unit_classifier (collate [g]))
                [eight_node_graph; nine_node_graph; eight_node_graph] /\
  Classifier.forward unit_classifier
    (collate [eight_node_graph; nine_node_graph; eight_node_graph])
  = single_runs (fun g => Classifier.forward unit_classifier (collate [g]))
                [eight_node_graph; nine_node_graph; eight_node_graph].
Proof.
  apply (batch_matches_runs_of_each unit_classifier 8).
  - discriminate.
  - exact example_graphs_batchable.
Defined.

(** ** The evaluation loop *)

Section Chunks.

Variable A : Type.
Variable batch_size : nat.
Hypothesis batch_size_pos : 0 < batch_size.

Lemma batch_slice_chunk (l : list A) (i : nat) :
  batch_slice l batch_size i = firstn batch_size (skipn (i * batch_size) l).
Proof.
  unfold batch_slice, slice.
  assert (E : firstn (if length l <? (i + 1) * batch_size
                      then length l else (i + 1) * batch_size) l
              = firstn ((i + 1) * batch_size) l).
  { destruct (Nat.ltb_spec (length l) ((i + 1) * batch_size)); [|reflexivity].
    rewrite firstn_all. symmetry. apply firstn_all2. lia. }
  rewrite E, skipn_firstn_comm. f_equal. lia.
Qed.

Lemma chunks_concat (c : nat) : forall l : list A,
  length l <= c * batch_size ->
  concat (map (fun i => firstn batch_size (skipn (i * batch_size) l))
              (seq 0 c))
  = l.
Proof.
  induction c as [|c IH]; intros l Hl.
  - simpl in *. destruct l; [reflexivity | simpl in Hl; lia].
  - cbn [seq map concat]. rewrite <- seq_shift, map_map.
    etransitivity; [|apply (firstn_skipn batch_size l)].
    apply f_equal2; [reflexivity|].
    etransitivity; [|apply (IH (skipn batch_size l))].
    + f_equal. apply map_ext. intros i. f_equal.
      rewrite skipn_skipn. f_equal. lia.
    + rewrite length_skipn. simpl in Hl. lia.
Qed.

Lemma ceil_covers (n : nat) :
  n <= (n + batch_size - 1) / batch_size * batch_size.
Proof.
  assert (H := Nat.mul_succ_div_gt (n + batch_size - 1) batch_size
                 (ltac:(lia))).
  rewrite Nat.mul_succ_r in H. rewrite Nat.mul_comm. lia.
Qed.

Lemma ceil_tight (n i : nat) :
  i < (n + batch_size - 1) / batch_size -> i * batch_size < n.
Proof.
  intros Hi.
  assert (H := Nat.Div0.mul_div_le (n + batch_size - 1) batch_size).
  assert (H2 : S i * batch_size
               <= (n + batch_size - 1) / batch_size * batch_size)
    by (apply Nat.mul_le_mono_r; lia).
  rewrite (Nat.mul_comm batch_size) in H. simpl in H2. lia.
Qed.

End Chunks.

Lemma iteration_count_inv (n batch_size count : nat) :
  iteration_count n batch_size = inr count ->
  0 < batch_size /\ count = (n + batch_size - 1) / batch_size.
Proof.
  unfold iteration_count. destruct batch_size; [discriminate|].
  intros H. injection H as <-. split; [lia | reflexivity].
Qed.

Lemma iteration_count_pos (n batch_size : nat) :
  0 < batch_size ->
  iteration_count n batch_size = inr ((n + batch_size - 1) / batch_size).
Proof. destruct batch_size; [lia | reflexivity]. Qed.

Lemma eval_batches_concat {A} (l : list A) (batch_size count : nat) :
  iteration_count (length l) batch_size = inr count ->
  concat (eval_batches l batch_size count) = l.
Proof.
  intros H. apply iteration_count_inv in H as [Hpos ->]. unfold eval_batches.
  rewrite (map_ext _ _ (batch_slice_chunk A batch_size Hpos l)).
  apply (chunks_concat A batch_size Hpos).
  apply (ceil_covers batch_size Hpos).
Qed.

Lemma eval_batches_lengths {A} (l : list A) (batch_size count : nat) :
  iteration_count (length l) batch_size = inr count ->
  Forall (fun b => 1 <= length b <= batch_size)
         (eval_batches l batch_size count).
Proof.
  intros H. apply iteration_count_inv in H as [Hpos ->]. unfold eval_batches.
  rewrite (map_ext _ _ (batch_slice_chunk A batch_size Hpos l)).
  apply Forall_map. rewrite Forall_forall. intros i Hi. apply in_seq in Hi.
  assert (H := ceil_tight batch_size Hpos (length l) i (proj2 Hi)).
  rewrite length_firstn, length_skipn. lia.
Qed.

Lemma eval_batches_nonempty {A} (l : list A) (batch_size count : nat) :
  iteration_count (length l) batch_size = inr count ->
  Forall (fun b => b <> []) (eval_batches l batch_size count).
Proof.
  intros H. apply eval_batches_lengths in H. revert H. apply Forall_impl.
  intros b Hb ->. simpl in Hb. lia.
Qed.

(** X8.  The evaluation loop cuts the list of graphs into
    [ceil(total / batch_size)] consecutive slices that together are the
    list, in order; no slice is empty, none is longer than [batch_size],
    and every slice before the last has exactly [batch_size] graphs. *)
Theorem eval_batches_partition (A : Type) (l : list A) (batch_size : nat) :
  0 < batch_size ->
  exists count,
    iteration_count (length l) batch_size = inr count /\
    concat (eval_batches l batch_size count) = l /\
    length (eval_batches l batch_size count) = count /\
    Forall (fun b => 1 <= length b <= batch_size)
           (eval_batches l batch_size count) /\
    forall i, S i < count ->
              length (nth i (eval_batches l batch_size count) [])
              = batch_size.
Proof.
  intros Hpos. eexists. split; [exact (iteration_count_pos _ _ Hpos)|].
  assert (Hc := iteration_count_pos (length l) batch_size Hpos).
  split; [exact (eval_batches_concat l batch_size _ Hc)|].
  split; [unfold eval_batches; now rewrite length_map, length_seq|].
  split; [exact (eval_batches_lengths l batch_size _ Hc)|].
  intros i Hi. unfold eval_batches.
  rewrite (map_ext _ _ (batch_slice_chunk A batch_size Hpos l)).
  rewrite (nth_map_lt _ _ 0) by (rewrite length_seq; lia).
  rewrite seq_nth by lia. simpl.
  assert (H := ceil_tight batch_size Hpos (length l) (S i) Hi).
  rewrite length_firstn, length_skipn. simpl in H. lia.
Qed.

Lemma eval_batches_partition_witness :
  exists count,
    iteration_count 5 2 = inr count /\
    concat (eval_batches [1; 2; 3; 4; 5] 2 count) = [1; 2; 3; 4; 5] /\
    length (eval_batches [1; 2; 3; 4; 5] 2 count) = count.
Proof.
  destruct (eval_batches_partition nat [1; 2; 3; 4; 5] 2)
    as [count [H0 [H1 [H2 _]]]].
  - lia.
  - exists count. split; [exact H0|]. split; [exact H1 | exact H2].
Defined.

Lemma Forall_of_concat {A} (P : A -> Prop) (ls : list (list A)) :
  Forall P (concat ls) -> Forall (Forall P) ls.
Proof.
  induction ls as [|l ls IH]; simpl; intros H; [constructor|].
  apply Forall_app in H as [H1 H2]. constructor; [assumption | now apply IH].
Qed.

Lemma single_runs_app {A} (f : DGLGraph -> result (list A))
    (gs1 gs2 : list DGLGraph) :
  single_runs f (gs1 ++ gs2)
  = (x <- single_runs f gs1 ;; y <- single_runs f gs2 ;; ret (x ++ y)).
Proof.
  induction gs1 as [|g gs1 IH]; simpl.
  - now destruct (single_runs f gs2).
  - rewrite IH. destruct (f g); [reflexivity|]. cbn [bind].
    destruct (single_runs f gs1); [reflexivity|]. cbn [bind].
    destruct (single_runs f gs2); [reflexivity|]. cbn [bind ret].
    now rewrite app_assoc.
Qed.

Lemma torch_sigmoid_range (x : R) : (0 < torch_sigmoid x < 1)%R.
Proof.
  unfold torch_sigmoid. assert (H := exp_pos (- x)).
  split.
  - apply Rdiv_lt_0_compat; lra.
  - apply (Rmult_lt_reg_r (1 + exp (- x))); [lra|].
    unfold Rdiv. rewrite Rmult_assoc, Rinv_l; lra.
Qed.

Lemma unbatch_from_length (nn ne : list nat) :
  length nn = length ne ->
  forall offset h es,
    length (unbatch_from offset h es nn ne) = length nn.
Proof.
  revert ne. induction nn as [|n nn IH]; intros [|m ne] Hlen;
    try discriminate; intros offset h es; [reflexivity|].
  cbn [unbatch_from length]. f_equal. apply IH. now injection Hlen.
Qed.

Lemma readout_all_length (gs : list DGLGraph) : forall fs,
  Classifier.readout_all gs = inr fs -> length fs = length gs.
Proof.
  induction gs as [|g gs IH]; intros fs; cbn [Classifier.readout_all].
  - intros H. now injection H as <-.
  - destruct (Classifier.readout (ndata_h g)); [discriminate|]. cbn [bind].
    destruct (Classifier.readout_all gs) as [|fs']; [discriminate|].
    cbn [bind ret]. intros H. injection H as <-. cbn [length].
    f_equal. now apply IH.
Qed.

Lemma linear_row_length (L : Linear) (x : vec) :
  bias_fits L -> length (linear_row L x) = out_features L.
Proof.
  intros Hb. unfold linear_row, out_features.
  destruct (lin_bias L) as [b|] eqn:E.
  - rewrite length_vadd, length_map, (Hb b E). unfold out_features. lia.
  - apply length_map.
Qed.

Lemma length_concat_unit_rows (t : tensor) :
  Forall (fun r => length r = 1) t -> length (concat t) = length t.
Proof.
  induction 1 as [|r t Hr _ IH]; [reflexivity|].
  cbn [concat length]. rewrite length_app, Hr, IH. reflexivity.
Qed.

Lemma features_length (model : Classifier.t) (gs : list DGLGraph)
    (fs : tensor) :
  Classifier.features model (dgl_batch gs) = inr fs -> length fs = length gs.
Proof.
  unfold Classifier.features, Classifier.embed.
  destruct (BiDirectionalGCN.forward _ _ _); [discriminate|]. cbn [bind].
  destruct (GATWithSelfLoop.forward _ _ _); [discriminate|]. cbn [bind].
  destruct (set_ndata _ _); [discriminate|]. cbn [bind ret].
  intros H. apply readout_all_length in H. rewrite H.
  unfold dgl_unbatch, dgl_batch. destruct (union_from 0 gs) as [h es].
  cbn [batch_num_nodes batch_num_edges].
  rewrite unbatch_from_length; now rewrite !length_map.
Qed.

Lemma predict_proba_range (model : Classifier.t) (b : list DGLGraph)
    (probs : vec) :
  predict_proba model b = inr probs ->
  Forall (fun p => (0 < p < 1)%R) probs.
Proof.
  unfold predict_proba.
  destruct (Classifier.forward model (dgl_batch b)) as [|logits];
    [discriminate|].
  cbn [bind ret]. intros H. injection H as <-.
  apply Forall_map. rewrite Forall_forall. intros x _.
  apply torch_sigmoid_range.
Qed.

Lemma eval_loop_frames (model : Classifier.t) (batches : list (list DGLGraph)) :
  forall frames,
    eval_loop model batches = inr frames ->
    Forall (fun p => (0 < p < 1)%R) (concat frames) /\
    length (concat frames) = length (concat batches) /\
    length frames = length batches.
Proof.
  induction batches as [|b bs IH]; intros frames; cbn [eval_loop].
  - intros H. injection H as <-. repeat split. constructor.
  - destruct (predict_proba model b) as [|p] eqn:Ep; [discriminate|].
    destruct (Nat.eqb_spec (length p) (length b)) as [El|]; [|discriminate].
    destruct (eval_loop model bs) as [|rest]; [discriminate|].
    intros H. injection H as <-.
    destruct (IH rest eq_refl) as [Hr [Hl Hn]].
    cbn [concat length]. split; [|split].
    + apply Forall_app. split; [|assumption].
      exact (predict_proba_range model b p Ep).
    + now rewrite !length_app, El, Hl.
    + now rewrite Hn.
Qed.


(** X10.  The edge cases of the evaluation: a batch size of 0 raises the
    [ZeroDivisionError] of the division, and an empty list of graphs
    makes no slice, so that [pd.concat] raises its [ValueError]. *)
Theorem evaluate_edge_cases (model : Classifier.t) :
  (forall graphs, evaluate model graphs 0 = inl ZeroDivisionError) /\
  (forall batch_size, 0 < batch_size ->
                      evaluate model [] batch_size = inl ValueError).
Proof.
  split; [reflexivity|]. intros batch_size Hpos. unfold evaluate.
  rewrite (iteration_count_pos _ _ Hpos). cbn [length].
  rewrite Nat.div_small by lia. reflexivity.
Qed.

Lemma evaluate_edge_cases_witness :
  evaluate unit_classifier [] 100 = inl ValueError.
Proof.
  apply (proj2 (evaluate_edge_cases unit_classifier)). lia.
Defined.

(** ** The order of the edges and of the nodes *)

Section FoldPermutation.

Variable A : Type.
Variable op : A -> A -> A.
Hypothesis op_comm : forall x y, op x y = op y x.
Hypothesis op_assoc : forall x y z, op x (op y z) = op (op x y) z.

Lemma op_swap (x y z : A) : op x (op y z) = op y (op x z).
Proof. now rewrite op_assoc, (op_comm x y), <- op_assoc. Qed.

Lemma fold_right_permutation (z : A) (l l' : list A) :
  Permutation l l' -> fold_right op z l = fold_right op z l'.
Proof.
  induction 1 as [|x l l' _ IH|x y l|l l' l'' _ IH1 _ IH2]; simpl.
  - reflexivity.
  - now rewrite IH.
  - apply op_swap.
  - now rewrite IH1.
Qed.

Lemma fold_right_init (x a : A) (l : list A) :
  fold_right op (op x a) l = op a (fold_right op x l).
Proof.
  induction l as [|b l IH]; simpl; [apply op_comm|].
  rewrite IH. apply op_swap.
Qed.

Lemma fold_left_right (l : list A) : forall x,
  fold_left op l x = fold_right op x l.
Proof.
  induction l as [|a l IH]; intros x; simpl; [reflexivity|].
  rewrite IH. apply fold_right_init.
Qed.

Lemma fold_right_head_swap (x y : A) (l : list A) :
  op x (fold_right op y l) = op y (fold_right op x l).
Proof.
  induction l as [|a l IH]; simpl; [apply op_comm|].
  rewrite (op_swap x a), IH. apply op_swap.
Qed.

(** The fold of a non-empty list from its first element. *)
Lemma fold_from_head_permutation (l l' : list A) :
  Permutation l l' ->
  match l with [] => None | x :: xs => Some (fold_right op x xs) end
  = match l' with [] => None | x :: xs => Some (fold_right op x xs) end.
Proof.
  induction 1 as [|x l l' Hp _|x y l|l l' l'' _ IH1 _ IH2]; simpl.
  - reflexivity.
  - f_equal. now apply fold_right_permutation.
  - f_equal. apply fold_right_head_swap.
  - now rewrite IH1.
Qed.

End FoldPermutation.

Lemma vadd_comm (a b : vec) : vadd a b = vadd b a.
Proof.
  unfold vadd. revert b. induction a as [|x a IH]; intros [|y b]; simpl;
    try reflexivity.
  f_equal; [lra | apply IH].
Qed.

Lemma vadd_assoc (a b c : vec) : vadd a (vadd b c) = vadd (vadd a b) c.
Proof.
  unfold vadd. revert b c.
  induction a as [|x a IH]; intros [|y b] [|z c]; simpl; try reflexivity.
  f_equal; [lra | apply IH].
Qed.

Lemma vmax_comm (a b : vec) : vmax a b = vmax b a.
Proof.
  unfold vmax. revert b. induction a as [|x a IH]; intros [|y b]; simpl;
    try reflexivity.
  f_equal; [apply Rmax_comm | apply IH].
Qed.

Lemma vmax_assoc (a b c : vec) : vmax a (vmax b c) = vmax (vmax a b) c.
Proof.
  unfold vmax. revert b c.
  induction a as [|x a IH]; intros [|y b] [|z c]; simpl; try reflexivity.
  f_equal; [apply Rmax_assoc | apply IH].
Qed.

Lemma width_permutation (d : nat) (t t' : tensor) :
  Permutation t t' -> rectangular d t -> width t = width t'.
Proof.
  intros Hp Hr.
  assert (Hr' : rectangular d t') by exact (Permutation_Forall Hp Hr).
  destruct t as [|r t].
  - apply Permutation_nil in Hp. now subst t'.
  - destruct t' as [|r' t'].
    + symmetry in Hp. apply Permutation_nil in Hp. discriminate.
    + unfold width. simpl.
      now rewrite (Forall_inv Hr), (Forall_inv Hr').
Qed.

Lemma torch_sum_permutation (d : nat) (t t' : tensor) :
  Permutation t t' -> rectangular d t -> torch_sum t = torch_sum t'.
Proof.
  intros Hp Hr. unfold torch_sum.
  rewrite (width_permutation d t t' Hp Hr).
  now apply (fold_right_permutation vec vadd vadd_comm vadd_assoc).
Qed.

Lemma torch_max_permutation (t t' : tensor) :
  Permutation t t' -> torch_max t = torch_max t'.
Proof.
  intros Hp.
  assert (H := fold_from_head_permutation vec vmax vmax_comm vmax_assoc
                 t t' Hp).
  unfold torch_max.
  destruct t as [|r rs], t' as [|r' rs']; try discriminate; [reflexivity|].
  injection H as H. unfold ret.
  now rewrite !(fold_left_right vec vmax vmax_comm vmax_assoc), H.
Qed.

Lemma Permutation_filter {A} (f : A -> bool) (l l' : list A) :
  Permutation l l' -> Permutation (filter f l) (filter f l').
Proof.
  induction 1 as [|x l l' _ IH|x y l|l l' l'' _ IH1 _ IH2]; simpl.
  - constructor.
  - destruct (f x); [now constructor | assumption].
  - destruct (f x), (f y); try reflexivity. constructor.
  - now transitivity (filter f l').
Qed.

Lemma forallb_permutation {A} (f : A -> bool) (l l' : list A) :
  Permutation l l' -> forallb f l = forallb f l'.
Proof.
  induction 1 as [|x l l' _ IH|x y l|l l' l'' _ IH1 _ IH2]; simpl.
  - reflexivity.
  - now rewrite IH.
  - now rewrite !andb_assoc, (andb_comm (f x)).
  - now rewrite IH1.
Qed.

(** [update_all] when every message is a function of its edge and the
    reduce function does not depend on the order of the mailbox. *)
Lemma update_all_permutation {M O} (g1 g2 : DGLGraph) (f : Edge -> M)
    (r : nat -> list M -> O) (i : O) :
  number_of_nodes g1 = number_of_nodes g2 ->
  Permutation (edata g1) (edata g2) ->
  (forall v es es', Permutation es es' -> incl es (edata g1) ->
                    r v (map f es) = r v (map f es')) ->
  update_all g1 (map f (edata g1)) r i = update_all g2 (map f (edata g2)) r i.
Proof.
  intros Hn Hp Hr. unfold update_all.
  destruct (edata g1) as [|e1 es1] eqn:E1.
  - apply Permutation_nil in Hp. now rewrite Hp.
  - destruct (edata g2) as [|e2 es2] eqn:E2.
    + symmetry in Hp. apply Permutation_nil in Hp. discriminate.
    + rewrite <- E1, <- E2 in *. rewrite Hn. f_equal. apply map_ext.
      intros v. unfold node_out. rewrite !mailbox_map.
      assert (Hv : Permutation (in_edges g1 v) (in_edges g2 v))
        by now apply Permutation_filter.
      assert (Hi : incl (in_edges g1 v) (edata g1)).
      { intros e He. apply filter_In in He. tauto. }
      destruct (in_edges g1 v) as [|a l] eqn:Ea.
      * apply Permutation_nil in Hv. now rewrite Hv.
      * destruct (in_edges g2 v) as [|a' l'] eqn:Ea'.
        -- symmetry in Hv. apply Permutation_nil in Hv. discriminate.
        -- exact (Hr v (a :: l) (a' :: l') Hv Hi).
Qed.

Lemma BiGCN_forward_permutation (layer : BiDirectionalGCN.t)
    (g1 g2 : DGLGraph) (h : tensor) (d : nat) :
  number_of_nodes g1 = number_of_nodes g2 ->
  Permutation (edata g1) (edata g2) ->
  wf_graph g1 -> rectangular d h ->
  BiDirectionalGCN.forward layer g1 h = BiDirectionalGCN.forward layer g2 h.
Proof.
  intros Hn Hp Hwf Hrect. unfold BiDirectionalGCN.forward, set_ndata.
  rewrite <- Hn.
  destruct (length h =? number_of_nodes g1) eqn:El; [|reflexivity].
  apply Nat.eqb_eq in El. cbn [bind].
  rewrite (update_all_permutation g1 g2 (BiDirectionalGCN.message_func h)
             (fun _ => BiDirectionalGCN.reduce_func)
             (zeros (width h), zeros (width h)) Hn Hp); [reflexivity|].
  intros _ es es' Hpe Hincl. unfold BiDirectionalGCN.reduce_func.
  rewrite !map_map, !combine_map_map, !map_map.
  assert (Hrows : forall c : Edge -> R,
            rectangular d
              (map (fun e => scale (c e)
                       (fst (BiDirectionalGCN.message_func h e))) es)).
  { intros c. apply Forall_map. rewrite Forall_forall. intros e He.
    cbn [BiDirectionalGCN.message_func fst]. rewrite !length_scale.
    apply (rectangular_nth Hrect). rewrite El.
    unfold wf_graph in Hwf. rewrite Forall_forall in Hwf.
    exact (proj1 (Hwf e (Hincl e He))). }
  cbn [fst snd] in *.
  f_equal; (apply (torch_sum_permutation d);
            [now apply Permutation_map | apply Hrows]).
Qed.

(** X11.  The edge ids play no role in [BiDirectionalGCN]: two graphs with the
    same nodes and the same edges listed in a different order give the same
    result (or raise the same exception) on the same node features. *)
Theorem BiGCN_edge_order (layer : BiDirectionalGCN.t) (g1 g2 : DGLGraph)
    (h : tensor) (d : nat) :
  number_of_nodes g1 = number_of_nodes g2 ->
  Permutation (edata g1) (edata g2) ->
  wf_graph g1 -> rectangular d h ->
  BiDirectionalGCN.forward layer g1 h = BiDirectionalGCN.forward layer g2 h.
Proof. apply BiGCN_forward_permutation. Qed.

Lemma BiGCN_edge_order_witness :
  BiDirectionalGCN.forward identity_BiGCN
    (mkGraph 3 [[1]; [2]; [3]]%R
             [mkEdge 0 2 2 0; mkEdge 1 2 3 0; mkEdge 2 0 2 1; mkEdge 2 1 3 1])
    [[1]; [2]; [3]]%R
  = BiDirectionalGCN.forward identity_BiGCN
      (mkGraph 3 [[1]; [2]; [3]]%R
               [mkEdge 2 1 3 1; mkEdge 1 2 3 0; mkEdge 2 0 2 1; mkEdge 0 2 2 0])
      [[1]; [2]; [3]]%R.
Proof.
  apply (BiGCN_edge_order identity_BiGCN _ _ _ 1).
  - reflexivity.
  - cbn [edata].
    apply (Permutation_trans (Permutation_rev _)). cbn [rev app].
    apply perm_skip. apply perm_swap.
  - repeat constructor.
  - repeat constructor.
Defined.

Lemma length_linear_row_indep (L : Linear) (x y : vec) :
  length (linear_row L x) = length (linear_row L y).
Proof.
  unfold linear_row. destruct (lin_bias L).
  - now rewrite !length_vadd, !length_map.
  - now rewrite !length_map.
Qed.

Lemma total_permutation (l l' : vec) :
  Permutation l l' -> total l = total l'.
Proof.
  apply (fold_right_permutation R Rplus Rplus_comm).
  intros x y z. now rewrite Rplus_assoc.
Qed.

Lemma torch_sum_permutation_tail (d : nat) (t t' : tensor) (last : vec) :
  Permutation t t' -> rectangular d t ->
  torch_sum (t ++ [last]) = torch_sum (t' ++ [last]).
Proof.
  intros Hp Hr. unfold torch_sum.
  assert (Hw : width (t ++ [last]) = width (t' ++ [last])).
  { assert (Hr' : rectangular d t') by exact (Permutation_Forall Hp Hr).
    destruct t as [|r t].
    - apply Permutation_nil in Hp. now subst t'.
    - destruct t' as [|r' t'].
      + symmetry in Hp. apply Permutation_nil in Hp. discriminate.
      + unfold width. simpl. now rewrite (Forall_inv Hr), (Forall_inv Hr'). }
  rewrite Hw.
  apply (fold_right_permutation vec vadd vadd_comm vadd_assoc).
  now apply Permutation_app_tail.
Qed.

Lemma GAT_forward_permutation (layer : GATWithSelfLoop.t)
    (g1 g2 : DGLGraph) (h : tensor) :
  number_of_nodes g1 = number_of_nodes g2 ->
  Permutation (edata g1) (edata g2) ->
  wf_graph g1 ->
  GATWithSelfLoop.forward layer g1 h = GATWithSelfLoop.forward layer g2 h.
Proof.
  intros Hn Hp Hwf. unfold GATWithSelfLoop.forward, set_ndata.
  rewrite <- Hn.
  destruct (length h =? number_of_nodes g1) eqn:El; [|reflexivity].
  apply Nat.eqb_eq in El. cbn [bind].
  destruct (GATWithSelfLoop.node_apply_func layer h) as [|[[z z_self] e_self]]
    eqn:En; [reflexivity|].
  cbn [bind].
  assert (Hz : z = map (linear_row (GATWithSelfLoop.fc layer)) h).
  { unfold GATWithSelfLoop.node_apply_func in En.
    destruct (linear (GATWithSelfLoop.self_fc layer) h); [discriminate|].
    cbn [bind] in En.
    destruct (linear (GATWithSelfLoop.fc layer) h) as [|z0] eqn:E2;
      [discriminate|].
    cbn [bind] in En.
    destruct (linear (GATWithSelfLoop.self_attn_fc layer) _); [discriminate|].
    cbn [bind ret] in En. injection En as <- _ _.
    eapply linear_value; eassumption. }
  unfold GATWithSelfLoop.edge_attention, linear, rows_ok,
    GATWithSelfLoop.cat_src_dst.
  rewrite (forallb_permutation _ _ _
             (Permutation_map
                (fun e => nth (e_src e) z [] ++ nth (e_dst e) z []) Hp)).
  destruct (forallb _ _); [|reflexivity].
  cbn [bind ret]. unfold GATWithSelfLoop.message_func.
  rewrite !map_map, !combine_map_map.
  rewrite (update_all_permutation g1 g2 _ _ _ Hn Hp); [reflexivity|].
  intros v es es' Hpe Hincl.
  unfold GATWithSelfLoop.reduce_func, GATWithSelfLoop.attention, softmax.
  f_equal.
  rewrite !map_map. cbn [fst snd].
  set (x := nth v e_self 0%R). set (zs := nth v z_self []).
  set (c := fun e : Edge =>
              leaky_relu
                (item (linear_row (GATWithSelfLoop.attn_fc layer)
                         (nth (e_src e) z [] ++ nth (e_dst e) z [])))).
  assert (Hs : total (map exp (map c es ++ [x]))
               = total (map exp (map c es' ++ [x]))).
  { apply total_permutation. apply Permutation_map.
    apply Permutation_app_tail. now apply Permutation_map. }
  rewrite <- Hs. set (s := total (map exp (map c es ++ [x]))).
  rewrite !map_app, !map_map.
  rewrite !combine_app_eq by now rewrite !length_map.
  rewrite !combine_map_map, !map_app, !map_map. cbn [fst snd combine map].
  apply (torch_sum_permutation_tail
           (length (linear_row (GATWithSelfLoop.fc layer) []))).
  - now apply Permutation_map.
  - apply Forall_map. rewrite Forall_forall. intros e He.
    rewrite length_scale, Hz.
    unfold wf_graph in Hwf. rewrite Forall_forall in Hwf.
    assert (Hsrc : e_src e < length h)
      by (rewrite El; exact (proj1 (Hwf e (Hincl e He)))).
    etransitivity;
      [apply (f_equal (@length R));
       exact (@nth_map_lt _ _ (linear_row (GATWithSelfLoop.fc layer)) h
                (e_src e) [] [] Hsrc)|].
    apply length_linear_row_indep.
Qed.

(** X12.  The edge ids play no role in [GATWithSelfLoop] either: the softmax and
    the weighted sum over a mailbox do not depend on its order. *)
Theorem GAT_edge_order (layer : GATWithSelfLoop.t) (g1 g2 : DGLGraph)
    (h : tensor) :
  number_of_nodes g1 = number_of_nodes g2 ->
  Permutation (edata g1) (edata g2) ->
  wf_graph g1 ->
  GATWithSelfLoop.forward layer g1 h = GATWithSelfLoop.forward layer g2 h.
Proof. apply GAT_forward_permutation. Qed.

Lemma GAT_edge_order_witness :
  GATWithSelfLoop.forward unit_GAT
    (mkGraph 3 [[1]; [2]; [3]]%R
             [mkEdge 0 2 2 0; mkEdge 1 2 3 0; mkEdge 2 0 2 1; mkEdge 2 1 3 1])
    [[1]; [2]; [3]]%R
  = GATWithSelfLoop.forward unit_GAT
      (mkGraph 3 [[1]; [2]; [3]]%R
               [mkEdge 2 1 3 1; mkEdge 1 2 3 0; mkEdge 2 0 2 1; mkEdge 0 2 2 0])
      [[1]; [2]; [3]]%R.
Proof.
  apply GAT_edge_order.
  - reflexivity.
  - cbn [edata].
    apply (Permutation_trans (Permutation_rev _)). cbn [rev app].
    apply perm_skip. apply perm_swap.
  - repeat constructor.
Defined.

(** X13.  The readout keeps the first seven nodes in place and is symmetric in
    the others: listing the nodes from the eighth on in another order does
    not change the readout vector (nor the exception, when there is no
    eighth node). *)
Theorem readout_order (h h' : tensor) (d : nat) :
  firstn 7 h = firstn 7 h' ->
  Permutation (skipn 7 h) (skipn 7 h') ->
  rectangular d (skipn 7 h) ->
  Classifier.readout h = Classifier.readout h'.
Proof.
  intros Hf Hp Hr. unfold Classifier.readout, torch_mean.
  rewrite Hf, (torch_max_permutation _ _ Hp).
  rewrite (torch_sum_permutation d _ _ Hp Hr).
  now rewrite (Permutation_length Hp).
Qed.

Lemma readout_order_witness :
  Classifier.readout
    [[1]; [2]; [3]; [4]; [5]; [6]; [7]; [8]; [9]; [10]]%R
  = Classifier.readout
      [[1]; [2]; [3]; [4]; [5]; [6]; [7]; [10]; [8]; [9]]%R.
Proof.
  apply (readout_order _ _ 1).
  - reflexivity.
  - cbn [skipn].
    apply (Permutation_trans (perm_skip _ (perm_swap _ _ _))).
    apply perm_swap.
  - repeat constructor.
Defined.

(** ** The shapes through the classifier *)

Lemma built_graph_loaded (F : nat) (lines : list (nat * nat * R))
    (g : DGLGraph) :
  8 <= F -> build_graph_with F lines = inr g -> loaded_graph F g.
Proof.
  intros HF Hb.
  destruct (built_graph_invariants F lines g Hb)
    as [Hne [Hwf [Hfl [Hlen Hrect]]]].
  repeat (split; [assumption|]).
  destruct (@build_graph_with_inv F lines g Hb) as [Hl Hbound].
  rewrite (build_graph_with_ok Hl Hbound) in Hb.
  remember (seq 0 (S (max_node_id lines))) as ids.
  injection Hb as <-. cbn [number_of_nodes]. lia.
Qed.

Lemma loaded_batchable (d : nat) (g : DGLGraph) :
  loaded_graph d g -> batchable d g.
Proof.
  intros [Hne [Hwf [_ [Hlen [Hrect Hn]]]]].
  repeat (split; [assumption|]).
  apply (rectangular_width Hrect). intros E. rewrite E in Hlen.
  simpl in Hlen. lia.
Qed.

Lemma rows_ok_rectangular (L : Linear) (X : tensor) :
  rectangular (in_features L) X -> rows_ok L X = true.
Proof.
  intros H. unfold rows_ok. apply forallb_forall. intros x Hx.
  unfold rectangular in H. rewrite Forall_forall in H.
  apply Nat.eqb_eq. now apply H.
Qed.

Lemma linear_shape (L : Linear) (i o : nat) (X : tensor) :
  shaped L i o -> rectangular i X ->
  linear L X = inr (map (linear_row L) X) /\
  rectangular o (map (linear_row L) X).
Proof.
  intros [Hi [Ho Hb]] Hr. subst i o. unfold linear.
  rewrite (rows_ok_rectangular L X Hr). split; [reflexivity|].
  apply Forall_map. rewrite Forall_forall. intros x _.
  now apply linear_row_length.
Qed.

Lemma rectangular_map_map (f : R -> R) (d : nat) (X : tensor) :
  rectangular d X -> rectangular d (map (map f) X).
Proof.
  intros H. apply Forall_map. revert H. apply Forall_impl.
  intros x Hx. now rewrite length_map.
Qed.

Lemma BiGCN_forward_shape (layer : BiDirectionalGCN.t) (g : DGLGraph)
    (h : tensor) (d o : nat) :
  edata g <> [] -> wf_graph g -> flagged g ->
  length h = number_of_nodes g -> rectangular d h ->
  shaped (BiDirectionalGCN.fc layer) (d * 3) o ->
  exists h', BiDirectionalGCN.forward layer g h = inr h' /\
             length h' = number_of_nodes g /\ rectangular o h'.
Proof.
  intros Hne Hwf Hfl Hlen Hrect [Hi [Ho Hb]].
  assert (Hin : in_features (BiDirectionalGCN.fc layer) = 3 * d) by lia.
  eexists. split; [exact (BiGCN_forward_nodes layer Hne Hwf Hfl Hlen Hrect Hin)|].
  split; [now rewrite length_map, length_seq|].
  apply Forall_map. rewrite Forall_forall. intros v _.
  unfold BiGCN_node. rewrite length_map, <- Ho.
  now apply linear_row_length.
Qed.

Lemma mailbox_In {M} (es : list Edge) (msgs : list M) (v : nat) (m : M) :
  In m (mailbox es msgs v) -> In m msgs.
Proof.
  unfold mailbox. intros H. apply in_map_iff in H as [[e m'] [E H]].
  simpl in E. subst m'. apply filter_In in H as [H _].
  now apply in_combine_r in H.
Qed.

Lemma GAT_forward_shape (layer : GATWithSelfLoop.t) (g : DGLGraph)
    (h : tensor) (d : nat) :
  edata g <> [] -> wf_graph g ->
  length h = number_of_nodes g -> rectangular d h ->
  shaped (GATWithSelfLoop.fc layer) d d ->
  shaped (GATWithSelfLoop.attn_fc layer) (2 * d) 1 ->
  shaped (GATWithSelfLoop.self_fc layer) d d ->
  shaped (GATWithSelfLoop.self_attn_fc layer) d 1 ->
  exists h', GATWithSelfLoop.forward layer g h = inr h' /\
             length h' = number_of_nodes g /\ rectangular d h'.
Proof.
  intros Hne Hwf Hlen Hrect Hfc Hattn Hself Hsattn.
  rewrite (GAT_forward_cases layer g h Hlen Hne).
  assert (Hz : rectangular d (map (linear_row (GATWithSelfLoop.fc layer)) h)).
  { apply (linear_shape _ d d h Hfc Hrect). }
  assert (Hzs : rectangular d
                  (map (linear_row (GATWithSelfLoop.self_fc layer)) h)).
  { apply (linear_shape _ d d h Hself Hrect). }
  assert (Hsrc : forall e, In e (edata g) ->
            length (nth (e_src e)
                        (map (linear_row (GATWithSelfLoop.fc layer)) h) [])
            = d /\
            length (nth (e_dst e)
                        (map (linear_row (GATWithSelfLoop.fc layer)) h) [])
            = d).
  { intros e He. unfold wf_graph in Hwf. rewrite Forall_forall in Hwf.
    destruct (Hwf e He) as [Hs Hd].
    split; apply (rectangular_nth Hz); rewrite length_map, Hlen; assumption. }
  assert (Hc : GAT_checks layer g h = true).
  { unfold GAT_checks. rewrite !andb_true_iff. repeat split.
    - apply rows_ok_rectangular. now rewrite (proj1 Hself).
    - apply rows_ok_rectangular. now rewrite (proj1 Hfc).
    - apply rows_ok_rectangular. now rewrite (proj1 Hsattn).
    - apply rows_ok_rectangular. rewrite (proj1 Hattn).
      unfold GATWithSelfLoop.cat_src_dst. apply Forall_map.
      rewrite Forall_forall. intros e He. rewrite length_app.
      destruct (Hsrc e He) as [-> ->]. lia. }
  rewrite Hc. eexists. split; [reflexivity|].
  split; [unfold GAT_nodes; now rewrite length_map, length_seq|].
  unfold GAT_nodes. apply Forall_map. rewrite Forall_forall. intros v Hv.
  apply in_seq in Hv. unfold node_out.
  destruct (mailbox _ _ v) as [|m ms] eqn:Em.
  - rewrite length_zeros. apply Hself.
  - unfold GATWithSelfLoop.reduce_func. rewrite length_map.
    set (z := map (linear_row (GATWithSelfLoop.fc layer)) h) in *.
    set (z_self := map (linear_row (GATWithSelfLoop.self_fc layer)) h) in *.
    match goal with
    | |- length (torch_sum ?t) = d =>
        assert (Hrows : rectangular d t); [|
          assert (Hnon : t <> []); [|
            rewrite (torch_sum_rectangular Hrows Hnon);
            now apply length_sum_rows]]
    end.
    + apply Forall_map. rewrite Forall_forall. intros [a r] Hp.
      cbn [fst snd]. rewrite length_scale.
      apply in_combine_r in Hp. apply in_app_or in Hp as [Hp|[<-|[]]].
      * apply in_map_iff in Hp as [m' [<- Hm']].
        rewrite <- Em in Hm'. apply mailbox_In in Hm'.
        unfold GATWithSelfLoop.message_func in Hm'.
        destruct m' as [zr er]. apply in_combine_l in Hm'.
        apply in_map_iff in Hm' as [e [<- He]]. apply (Hsrc e He).
      * apply (rectangular_nth Hzs). unfold z_self.
        rewrite length_map, Hlen. lia.
    + unfold GATWithSelfLoop.attention, softmax. cbn [map app fst snd].
      discriminate.
Qed.

Lemma readout_shape (h : tensor) (d : nat) :
  rectangular d h -> 8 <= length h ->
  exists f, Classifier.readout h = inr f /\ length f = d * 9.
Proof.
  intros Hr Hn. destruct (rectangular_firstn_skipn d 7 h Hr) as [Hf Hs].
  assert (Hne : skipn 7 h <> []).
  { intros E. apply (f_equal (@length vec)) in E.
    rewrite length_skipn in E. simpl in E. lia. }
  unfold Classifier.readout.
  rewrite (torch_max_elementwise d _ Hs Hne),
    (torch_mean_elementwise d _ Hs Hne).
  cbn [bind ret]. eexists. split; [reflexivity|].
  rewrite (length_concat_rectangular d).
  - rewrite !length_app, length_firstn. cbn [length]. lia.
  - apply rectangular_app; [assumption|]. apply rectangular_app.
    + constructor; [|constructor]. unfold elementwise_mean.
      now rewrite length_map, length_seq.
    + constructor; [|constructor]. unfold elementwise_max.
      now rewrite length_map, length_seq.
Qed.

Lemma head_shape (model : Classifier.t) (d o : nat) (X : tensor) :
  shaped (Classifier.fc1 model) (d * 9) d ->
  shaped (Classifier.fc2 model) d o ->
  rectangular (d * 9) X ->
  exists Y, Classifier.head model X = inr Y /\
            length Y = length X /\ rectangular o Y.
Proof.
  intros H1 H2 Hr. unfold Classifier.head.
  destruct (linear_shape _ _ _ X H1 Hr) as [E1 Hr1]. rewrite E1.
  cbn [bind].
  destruct (linear_shape _ _ _ _ H2
              (rectangular_map_map relu d _ Hr1)) as [E2 Hr2].
  rewrite E2. eexists. split; [reflexivity|].
  split; [now rewrite !length_map | exact Hr2].
Qed.

Lemma embed_graph_shape (model : Classifier.t) (F d o : nat) (g : DGLGraph) :
  constructed F d o model -> loaded_graph F g ->
  exists h, embed_graph model g = inr h /\
            length h = number_of_nodes g /\ rectangular d h.
Proof.
  intros [Hc1 [Hfc [Hattn [Hself [Hsattn _]]]]]
         [Hne [Hwf [Hfl [Hlen [Hrect _]]]]].
  unfold embed_graph.
  destruct (BiGCN_forward_shape (Classifier.conv1 model) g (ndata_h g) F d
              Hne Hwf Hfl Hlen Hrect Hc1) as [h1 [E1 [Hl1 Hr1]]].
  rewrite E1. cbn [bind].
  exact (GAT_forward_shape (Classifier.conv2 model) g h1 d
           Hne Hwf Hl1 Hr1 Hfc Hattn Hself Hsattn).
Qed.

Lemma single_forward_shape (model : Classifier.t) (F d o : nat)
    (g : DGLGraph) :
  constructed F d o model -> loaded_graph F g ->
  exists row, Classifier.forward model (collate [g]) = inr [row] /\
              length row = o.
Proof.
  intros Hc Hg.
  destruct (embed_graph_shape model F d o g Hc Hg) as [h [Eh [Hl Hr]]].
  destruct Hg as [Hne [_ [_ [Hlen [_ Hn]]]]].
  destruct Hc as [_ [_ [_ [_ [_ [H1 H2]]]]]].
  unfold Classifier.forward.
  rewrite (features_one model g Hlen Hne), Eh. cbn [bind].
  destruct (readout_shape h d Hr ltac:(lia)) as [f [Ef Hf]].
  rewrite Ef. cbn [bind ret].
  destruct (head_shape model d o [f] H1 H2) as [Y [EY [HlY HrY]]].
  { constructor; [assumption | constructor]. }
  rewrite EY. destruct Y as [|row [|row' Y]]; try discriminate.
  exists row. split; [reflexivity|]. exact (Forall_inv HrY).
Qed.

Lemma single_runs_shape (f : DGLGraph -> result tensor) (o : nat)
    (gs : list DGLGraph) :
  Forall (fun g => exists row, f g = inr [row] /\ length row = o) gs ->
  exists Y, single_runs f gs = inr Y /\
            length Y = length gs /\ rectangular o Y.
Proof.
  induction 1 as [|g gs [row [E Hrow]] _ [Y [EY [Hl Hr]]]].
  - exists []. repeat split. constructor.
  - exists (row :: Y). cbn [single_runs]. rewrite E, EY. cbn [bind ret app].
    split; [reflexivity|]. split; [cbn [length]; now rewrite Hl|].
    now constructor.
Qed.

Lemma built_graphs_loaded (F : nat) (gs : list DGLGraph) :
  8 <= F ->
  Forall (fun g => exists lines, build_graph_with F lines = inr g) gs ->
  Forall (loaded_graph F) gs.
Proof.
  intros HF. apply Forall_impl. intros g [lines Hb].
  exact (built_graph_loaded F lines g HF Hb).
Qed.

Lemma loaded_single_runs (model : Classifier.t) (F d o : nat)
    (gs : list DGLGraph) :
  constructed F d o model -> Forall (loaded_graph F) gs ->
  exists Y,
    single_runs (fun g => Classifier.forward model (collate [g])) gs = inr Y /\
    length Y = length gs /\ rectangular o Y.
Proof.
  intros Hc Hgs. apply single_runs_shape. revert Hgs. apply Forall_impl.
  intros g Hg. exact (single_forward_shape model F d o g Hc Hg).
Qed.

(** X14.  The shapes fit: on a batch of graphs from the loading loop, a
    classifier built as [Classifier(F, hidden_dim, n_classes)] with
    [F >= 8] raises nothing and returns one row of [n_classes] logits per
    graph. *)
Theorem classifier_runs (model : Classifier.t) (F hidden_dim n_classes : nat)
    (gs : list DGLGraph) :
  8 <= F -> constructed F hidden_dim n_classes model -> gs <> [] ->
  Forall (fun g => exists lines, build_graph_with F lines = inr g) gs ->
  exists logits,
    Classifier.forward model (collate gs) = inr logits /\
    length logits = length gs /\ rectangular n_classes logits.
Proof.
  intros HF Hc Hne Hgs. apply (built_graphs_loaded F gs HF) in Hgs.
  rewrite (forward_batch_runs model F gs Hne).
  - exact (loaded_single_runs model F hidden_dim n_classes gs Hc Hgs).
  - revert Hgs. apply Forall_impl. apply loaded_batchable.
Qed.

Lemma unit_classifier_constructed : constructed 8 1 1 unit_classifier.
Proof.
  unfold constructed, shaped, bias_fits, unit_classifier, unit_GAT.
  cbn [Classifier.conv1 Classifier.conv2 Classifier.fc1 Classifier.fc2
       BiDirectionalGCN.fc GATWithSelfLoop.fc GATWithSelfLoop.attn_fc
       GATWithSelfLoop.self_fc GATWithSelfLoop.self_attn_fc
       in_features lin_bias].
  repeat split; try reflexivity; intros b H; try discriminate;
    injection H as <-; reflexivity.
Qed.

Lemma example_graphs_from_lines :
  Forall (fun g => exists lines, build_graph_with 8 lines = inr g)
         [eight_node_graph; nine_node_graph; eight_node_graph].
Proof.
  constructor; [exists [(0, 7, 1%R)]; reflexivity|].
  constructor; [exists [(0, 8, 2%R)]; reflexivity|].
  constructor; [exists [(0, 7, 1%R)]; reflexivity|].
  constructor.
Qed.

Lemma classifier_runs_witness :
  exists logits,
    Classifier.forward unit_classifier
      (collate [eight_node_graph; nine_node_graph; eight_node_graph])
    = inr logits /\
    length logits = 3 /\ rectangular 1 logits.
Proof.
  apply (classifier_runs unit_classifier 8 1 1).
  - lia.
  - exact unit_classifier_constructed.
  - discriminate.
  - exact example_graphs_from_lines.
Defined.

(** ** The order of the lines of an edge list *)

Lemma list_max_same (l l' : list nat) :
  (forall x, In x l <-> In x l') -> list_max l = list_max l'.
Proof.
  intros H. apply Nat.le_antisymm; apply list_max_le; rewrite Forall_forall;
    intros x Hx; apply H in Hx;
    [assert (Hle := proj1 (list_max_le l' (list_max l')) (Nat.le_refl _))
    |assert (Hle := proj1 (list_max_le l (list_max l)) (Nat.le_refl _))];
    rewrite Forall_forall in Hle; now apply Hle.
Qed.

Lemma max_node_id_same (lines lines' : list (nat * nat * R)) :
  (forall l, In l lines <-> In l lines') ->
  max_node_id lines = max_node_id lines'.
Proof.
  intros H. unfold max_node_id. apply list_max_same. intros v.
  rewrite !observed_ids_In.
  split; intros [a [b [x [Hin Hv]]]]; exists a, b, x; split;
    try assumption; now apply H.
Qed.

Lemma built_edges_same (lines lines' : list (nat * nat * R)) :
  single_weighted lines ->
  (forall l, In l lines <-> In l lines') ->
  Permutation
    (nx_edges (pad_nodes (max_node_id lines) (read_weighted_edgelist lines)))
    (nx_edges (pad_nodes (max_node_id lines')
                         (read_weighted_edgelist lines'))).
Proof.
  intros Hsw Hsame.
  assert (Hsw' : single_weighted lines').
  { intros u v w w' H1 H2. apply Hsame in H1, H2. exact (Hsw u v w w' H1 H2). }
  assert (Hchar : forall ls, single_weighted ls -> forall a b x,
            In (a, b, x)
               (nx_edges (pad_nodes (max_node_id ls)
                                    (read_weighted_edgelist ls)))
            <-> In (a, b, x) ls).
  { intros ls Hs a b x. rewrite built_edges_last_weight. split.
    - apply last_weight_In.
    - intros Hin. destruct (In_last_weight ls a b x Hin) as [x' E].
      rewrite E. f_equal. apply (Hs a b x' x); [|assumption].
      now apply last_weight_In. }
  apply NoDup_Permutation.
  - exact (NoDup_map_inv _ _ (built_edges_keys_NoDup lines)).
  - exact (NoDup_map_inv _ _ (built_edges_keys_NoDup lines')).
  - intros [[a b] x]. rewrite (Hchar lines Hsw), (Hchar lines' Hsw').
    apply Hsame.
Qed.

Lemma embed_graph_permutation (model : Classifier.t) (g1 g2 : DGLGraph)
    (d : nat) :
  number_of_nodes g1 = number_of_nodes g2 ->
  ndata_h g1 = ndata_h g2 ->
  Permutation (edata g1) (edata g2) ->
  wf_graph g1 -> rectangular d (ndata_h g1) ->
  embed_graph model g1 = embed_graph model g2.
Proof.
  intros Hn Hh Hp Hwf Hr. unfold embed_graph. rewrite <- Hh.
  rewrite (BiGCN_forward_permutation (Classifier.conv1 model) g1 g2
             (ndata_h g1) d Hn Hp Hwf Hr).
  destruct (BiDirectionalGCN.forward _ g2 _); [reflexivity|]. cbn [bind].
  now apply GAT_forward_permutation.
Qed.

(** X15.  The graph and the classifier's output depend on the set of lines of
    the edge list only, not on their order or on repetitions, as long as
    no node pair is given two different weights: two such edge lists give
    graphs with the same nodes, the same features and the same edges up to
    their order, and the classifier returns the same logits (or raises the
    same exception) on both. *)
Theorem line_order_irrelevant (model : Classifier.t) (F : nat)
    (lines lines' : list (nat * nat * R)) (g : DGLGraph) :
  single_weighted lines ->
  (forall l, In l lines <-> In l lines') ->
  build_graph_with F lines = inr g ->
  exists g',
    build_graph_with F lines' = inr g' /\
    number_of_nodes g' = number_of_nodes g /\
    ndata_h g' = ndata_h g /\
    Permutation (edata g) (edata g') /\
    Classifier.forward model (collate [g])
    = Classifier.forward model (collate [g']).
Proof.
  intros Hsw Hsame Hb.
  destruct (built_graph_invariants F lines g Hb)
    as [Hne [Hwf [_ [Hlen Hrect]]]].
  destruct (@build_graph_with_inv F lines g Hb) as [Hl HF].
  assert (Hm := max_node_id_same lines lines' Hsame).
  assert (Hl' : lines' <> []).
  { destruct lines as [|l ls]; [congruence|].
    intros ->. exact (proj1 (Hsame l) (or_introl eq_refl)). }
  assert (HF' : 1 <= F <= S (max_node_id lines')) by (rewrite <- Hm; exact HF).
  assert (Hb' := build_graph_with_ok Hl' HF').
  eexists. split; [exact Hb'|].
  rewrite (build_graph_with_ok Hl HF) in Hb.
  remember (seq 0 (S (max_node_id lines))) as ids eqn:Hids.
  injection Hb as <-. cbn [number_of_nodes ndata_h edata] in *.
  assert (Hp : Permutation
            (add_reverse_edges
               (from_networkx (pad_nodes (max_node_id lines)
                                         (read_weighted_edgelist lines))))
            (add_reverse_edges
               (from_networkx (pad_nodes (max_node_id lines')
                                         (read_weighted_edgelist lines'))))).
  { unfold add_reverse_edges. rewrite !from_networkx_forward.
    assert (H := built_edges_same lines lines' Hsw Hsame).
    apply Permutation_app; repeat apply Permutation_map; exact H. }
  split; [now rewrite Hm|]. split; [subst ids; now rewrite Hm|].
  split; [exact Hp|].
  set (g1 := mkGraph (S (max_node_id lines)) _ _) in *.
  set (g2 := mkGraph (S (max_node_id lines')) _ _).
  assert (Hn12 : number_of_nodes g1 = number_of_nodes g2)
    by (cbn; now rewrite Hm).
  assert (Hh12 : ndata_h g1 = ndata_h g2)
    by (cbn; subst ids; now rewrite Hm).
  assert (Hlen2 : length (ndata_h g2) = number_of_nodes g2)
    by (rewrite <- Hh12, <- Hn12; exact Hlen).
  assert (Hne2 : edata g2 <> []).
  { intros E. cbn [edata g1 g2] in *. rewrite E in Hp.
    apply Permutation_sym, Permutation_nil in Hp. contradiction. }
  unfold Classifier.forward.
  rewrite (features_one model g1 Hlen Hne), (features_one model g2 Hlen2 Hne2).
  now rewrite (embed_graph_permutation model g1 g2 F Hn12 Hh12 Hp Hwf Hrect).
Qed.

Lemma line_order_irrelevant_witness :
  exists g',
    build_graph_with 8 [(2, 1, 5%R); (0, 7, 1%R); (2, 1, 5%R)] = inr g' /\
    number_of_nodes g' = 8 /\
    ndata_h g' = map (fun v => one_hot 8 (Nat.min v 7)) (seq 0 8) /\
    Permutation
      (add_reverse_edges [mkEdge 0 7 1 0; mkEdge 2 1 5 0]) (edata g') /\
    Classifier.forward unit_classifier
      (collate [mkGraph 8 (map (fun v => one_hot 8 (Nat.min v 7)) (seq 0 8))
                  (add_reverse_edges [mkEdge 0 7 1 0; mkEdge 2 1 5 0])])
    = Classifier.forward unit_classifier (collate [g']).
Proof.
  apply (line_order_irrelevant unit_classifier 8
           [(0, 7, 1%R); (2, 1, 5%R)]
           [(2, 1, 5%R); (0, 7, 1%R); (2, 1, 5%R)]
           (mkGraph 8 (map (fun v => one_hot 8 (Nat.min v 7)) (seq 0 8))
              (add_reverse_edges [mkEdge 0 7 1 0; mkEdge 2 1 5 0]))).
  - intros u v w w' H1 H2. simpl in H1, H2.
    destruct H1 as [H1|[H1|[]]], H2 as [H2|[H2|[]]]; congruence.
  - intros l. simpl. tauto.
  - reflexivity.
Defined.

(** ** A training step *)

(** X16.  The shapes of a training step fit: for a non-empty list of samples
    whose graphs come from the loading loop, [collate] returns a batch on
    which a [Classifier(F, hidden_dim, 1)] raises nothing, and
    [prediction.view(-1)] has one logit per label, as the loss function
    needs. *)
Theorem training_batch_shapes (model : Classifier.t) (F hidden_dim : nat)
    (samples : list (DGLGraph * R)) :
  8 <= F -> constructed F hidden_dim 1 model -> samples <> [] ->
  Forall (fun s => exists lines, build_graph_with F lines = inr (fst s))
         samples ->
  exists bg labels logits,
    collate_samples samples = Some (bg, labels) /\
    labels = map snd samples /\
    Classifier.forward model bg = inr logits /\
    length (concat logits) = length labels.
Proof.
  intros HF Hc Hne Hs.
  assert (Hgs : Forall (loaded_graph F) (map fst samples)).
  { apply (built_graphs_loaded F _ HF). now apply Forall_map. }
  assert (Hgne : map fst samples <> []) by (destruct samples; [congruence | discriminate]).
  destruct (loaded_single_runs model F hidden_dim 1 _ Hc Hgs)
    as [Y [EY [Hl Hr]]].
  exists (dgl_batch (map fst samples)), (map snd samples), Y.
  split; [destruct samples; [congruence | reflexivity]|].
  split; [reflexivity|]. split.
  - change (dgl_batch (map fst samples)) with (collate (map fst samples)).
    rewrite (forward_batch_runs model F _ Hgne); [exact EY|].
    revert Hgs. apply Forall_impl. apply loaded_batchable.
  - rewrite (length_concat_rectangular 1 Y Hr), Hl, !length_map. lia.
Qed.

Lemma training_batch_shapes_witness :
  exists bg labels logits,
    collate_samples [(eight_node_graph, 1%R); (nine_node_graph, 0%R)]
    = Some (bg, labels) /\
    labels = [1%R; 0%R] /\
    Classifier.forward unit_classifier bg = inr logits /\
    length (concat logits) = length labels.
Proof.
  apply (training_batch_shapes unit_classifier 8 1).
  - lia.
  - exact unit_classifier_constructed.
  - discriminate.
  - constructor; [exists [(0, 7, 1%R)]; reflexivity|].
    constructor; [exists [(0, 8, 2%R)]; reflexivity|].
    constructor.
Defined.

(** ** The exceptions of the classifier *)



(** ** The evaluation loop and the runs of single graphs *)

Lemma predict_proba_length (model : Classifier.t) (b : list DGLGraph)
    (probs : vec) :
  bias_fits (Classifier.fc2 model) ->
  predict_proba model b = inr probs ->
  length probs = length b * out_features (Classifier.fc2 model).
Proof.
  intros Hb. unfold predict_proba.
  destruct (Classifier.forward model (dgl_batch b)) as [|logits] eqn:E;
    [discriminate|].
  cbn [bind ret]. intros H. injection H as <-. rewrite length_map.
  unfold Classifier.forward in E.
  destruct (Classifier.features model (dgl_batch b)) as [|fs] eqn:Ef;
    [discriminate|].
  apply features_length in Ef. cbn [bind] in E.
  destruct fs as [|f fs]; [discriminate|].
  unfold Classifier.head in E.
  destruct (linear (Classifier.fc1 model) (f :: fs)) as [|y] eqn:E1;
    [discriminate|].
  cbn [bind] in E. apply linear_length in E1.
  assert (Hl := E). apply linear_length in Hl. apply linear_value in E.
  rewrite length_map in Hl.
  rewrite (length_concat_rectangular (out_features (Classifier.fc2 model))).
  - f_equal. exact (eq_trans Hl (eq_trans E1 Ef)).
  - subst logits. apply Forall_map. rewrite Forall_forall. intros x _.
    now apply linear_row_length.
Qed.

Lemma predict_proba_single_runs (model : Classifier.t) (d : nat)
    (b : list DGLGraph) :
  b <> [] -> Forall (batchable d) b ->
  predict_proba model b
  = (logits <- single_runs (fun g => Classifier.forward model (collate [g]))
                           b ;;
     ret (map torch_sigmoid (concat logits))).
Proof.
  intros Hne Hb. unfold predict_proba.
  change (dgl_batch b) with (collate b).
  now rewrite (forward_batch_runs model d b Hne Hb).
Qed.

Lemma eval_loop_single_runs (model : Classifier.t) (d : nat)
    (batches : list (list DGLGraph)) :
  bias_fits (Classifier.fc2 model) ->
  out_features (Classifier.fc2 model) = 1 ->
  Forall (fun b => b <> []) batches ->
  Forall (Forall (batchable d)) batches ->
  match eval_loop model batches with
  | inl e => inl e
  | inr frames => inr (concat frames)
  end
  = match single_runs (fun g => Classifier.forward model (collate [g]))
                      (concat batches) with
    | inl e => inl (ModelError e)
    | inr logits => inr (map torch_sigmoid (concat logits))
    end.
Proof.
  intros Hbias Hone Hne.
  induction Hne as [|b bs Hb _ IH]; intros Hd; [reflexivity|].
  apply Forall_cons_iff in Hd as [Hbd Hd]. specialize (IH Hd).
  cbn [eval_loop concat]. rewrite single_runs_app.
  assert (Ep := predict_proba_single_runs model d b Hb Hbd).
  destruct (single_runs _ b) as [e|lb]; cbn [bind ret] in Ep |- *;
    rewrite Ep; [reflexivity|].
  assert (Hlen := predict_proba_length model b _ Hbias Ep).
  rewrite Hone, Nat.mul_1_r in Hlen.
  apply Nat.eqb_eq in Hlen. unfold ret in *. rewrite Hlen.
  destruct (eval_loop model bs) as [e|frames],
           (single_runs _ (concat bs)) as [e'|ls];
    cbn [bind ret] in IH |- *; try discriminate; [exact IH|].
  injection IH as IH. cbn [concat]. now rewrite IH, concat_app, map_app.
Qed.

Lemma evaluate_single_runs (model : Classifier.t) (d : nat)
    (graphs : list DGLGraph) (batch_size : nat) :
  0 < batch_size -> graphs <> [] ->
  Forall (batchable d) graphs ->
  bias_fits (Classifier.fc2 model) ->
  out_features (Classifier.fc2 model) = 1 ->
  evaluate model graphs batch_size
  = match single_runs (fun g => Classifier.forward model (collate [g]))
                      graphs with
    | inl e => inl (ModelError e)
    | inr logits => inr (map torch_sigmoid (concat logits))
    end.
Proof.
  intros Hpos Hne Hgs Hbias Hone. unfold evaluate.
  assert (Hc := iteration_count_pos (length graphs) batch_size Hpos).
  rewrite Hc.
  assert (Hcat := eval_batches_concat graphs batch_size _ Hc).
  assert (Hnon := eval_batches_nonempty graphs batch_size _ Hc).
  set (batches := eval_batches graphs batch_size _) in *.
  assert (Hall : Forall (Forall (batchable d)) batches).
  { apply Forall_of_concat. now rewrite Hcat. }
  assert (H := eval_loop_single_runs model d batches Hbias Hone Hnon Hall).
  rewrite Hcat in H.
  destruct (eval_loop model batches) as [e|frames] eqn:El; [exact H|].
  destruct (eval_loop_frames model batches frames El) as [_ [_ Hn]].
  destruct frames as [|f frames]; [|exact H].
  destruct batches as [|b bs]; [|discriminate].
  simpl in Hcat. congruence.
Qed.

(** X18.  The outcome of the evaluation does not depend on the batch size: for
    a classifier with one output and graphs that can be batched (as all
    built graphs can), whatever the positive batch size, the probabilities
    are the sigmoids of the logits of the graphs run one at a time, in
    order, and the evaluation raises exactly when running the graphs one
    at a time raises, with the same exception. *)
Theorem evaluate_batch_size (model : Classifier.t) (d : nat)
    (graphs : list DGLGraph) (batch_size : nat) :
  0 < batch_size -> graphs <> [] ->
  Forall (batchable d) graphs ->
  bias_fits (Classifier.fc2 model) ->
  out_features (Classifier.fc2 model) = 1 ->
  evaluate model graphs batch_size
  = match single_runs (fun g => Classifier.forward model (collate [g]))
                      graphs with
    | inl e => inl (ModelError e)
    | inr logits => inr (map torch_sigmoid (concat logits))
    end.
Proof. apply evaluate_single_runs. Qed.

Lemma unit_classifier_one_output :
  bias_fits (Classifier.fc2 unit_classifier) /\
  out_features (Classifier.fc2 unit_classifier) = 1.
Proof.
  split; [|reflexivity]. intros b H. injection H as <-. reflexivity.
Qed.

Lemma evaluate_batch_size_witness :
  evaluate unit_classifier
           [eight_node_graph; nine_node_graph; eight_node_graph] 2
  = match single_runs
            (fun g => Classifier.forward unit_classifier (collate [g]))
            [eight_node_graph; nine_node_graph; eight_node_graph] with
    | inl e => inl (ModelError e)
    | inr logits => inr (map torch_sigmoid (concat logits))
    end.
Proof.
  apply (evaluate_batch_size unit_classifier 8).
  - lia.
  - discriminate.
  - exact example_graphs_batchable.
  - exact (proj1 unit_classifier_one_output).
  - exact (proj2 unit_classifier_one_output).
Defined.

Lemma predict_proba_loaded (model : Classifier.t) (F d o : nat)
    (b : list DGLGraph) :
  constructed F d o model -> b <> [] -> Forall (loaded_graph F) b ->
  exists probs, predict_proba model b = inr probs /\
                length probs = length b * o.
Proof.
  intros Hc Hne Hb.
  assert (Hbb : Forall (batchable F) b).
  { revert Hb. apply Forall_impl. apply loaded_batchable. }
  rewrite (predict_proba_single_runs model F b Hne Hbb).
  destruct (loaded_single_runs model F d o b Hc Hb) as [Y [EY [Hl Hr]]].
  rewrite EY. cbn [bind ret]. eexists. split; [reflexivity|].
  now rewrite length_map, (length_concat_rectangular o Y Hr), Hl.
Qed.

(** X19.  The evaluation of graphs from the loading loop with a classifier
    built as [Classifier(F, hidden_dim, n_classes)], [F >= 8]: with one
    class it raises nothing and returns one probability per graph,
    whatever the batch size; with any other number of classes the first
    assignment to the data frame raises a [ValueError]. *)
Theorem evaluate_runs (model : Classifier.t) (F hidden_dim n_classes : nat)
    (graphs : list DGLGraph) (batch_size : nat) :
  0 < batch_size -> graphs <> [] ->
  8 <= F -> constructed F hidden_dim n_classes model ->
  Forall (fun g => exists lines, build_graph_with F lines = inr g) graphs ->
  (n_classes = 1 ->
   exists probs, evaluate model graphs batch_size = inr probs /\
                 length probs = length graphs) /\
  (n_classes <> 1 -> evaluate model graphs batch_size = inl ValueError).
Proof.
  intros Hpos Hne HF Hc Hgs. apply (built_graphs_loaded F graphs HF) in Hgs.
  assert (Hfc2 : shaped (Classifier.fc2 model) hidden_dim n_classes)
    by apply Hc.
  destruct Hfc2 as [_ [Hout Hbias]].
  split.
  - intros H1. rewrite H1 in Hout, Hc.
    assert (Hb : Forall (batchable F) graphs).
    { revert Hgs. apply Forall_impl. apply loaded_batchable. }
    rewrite (evaluate_single_runs model F graphs batch_size
               Hpos Hne Hb Hbias Hout).
    destruct (loaded_single_runs model F hidden_dim 1 graphs Hc Hgs)
      as [Y [EY [Hl Hr]]].
    rewrite EY. eexists. split; [reflexivity|].
    rewrite length_map, (length_concat_rectangular 1 Y Hr), Hl. lia.
  - intros H1. unfold evaluate.
    assert (Hcnt := iteration_count_pos (length graphs) batch_size Hpos).
    rewrite Hcnt.
    assert (Hcat := eval_batches_concat graphs batch_size _ Hcnt).
    assert (Hnon := eval_batches_lengths graphs batch_size _ Hcnt).
    destruct (eval_batches graphs batch_size _) as [|b bs].
    + simpl in Hcat. congruence.
    + apply Forall_inv in Hnon.
      assert (Hbne : b <> []) by (intros ->; simpl in Hnon; lia).
      assert (Hbl : Forall (loaded_graph F) b).
      { rewrite <- Hcat in Hgs. cbn [concat] in Hgs.
        now apply Forall_app in Hgs. }
      destruct (predict_proba_loaded model F hidden_dim n_classes b
                  Hc Hbne Hbl) as [probs [Ep Hlen]].
      cbn [eval_loop]. rewrite Ep.
      destruct (Nat.eqb_spec (length probs) (length b)) as [E|]; [|reflexivity].
      exfalso. rewrite Hlen in E.
      destruct n_classes as [|[|n]]; [lia | congruence | nia].
Qed.

Lemma evaluate_runs_witness :
  exists probs,
    evaluate unit_classifier
             [eight_node_graph; nine_node_graph; eight_node_graph] 2
    = inr probs /\
    length probs = 3.
Proof.
  refine (proj1 (evaluate_runs unit_classifier 8 1 1
                   [eight_node_graph; nine_node_graph; eight_node_graph] 2
                   _ _ _ _ _) eq_refl).
  - lia.
  - discriminate.
  - lia.
  - exact unit_classifier_constructed.
  - exact example_graphs_from_lines.
Defined.


